(** * Order server: sessions, order normalisation, transactional writes, event hub

    A shallow embedding of [server.js].  The handlers are embedded as
    executable functions over an explicit [World] (database, session map,
    live subscriber set, clock, fault scripts and an output trace); the
    JavaScript values that reach the handlers are embedded as [value],
    numbers with the rounding of binary64 in sums and products.

    Embedded: [hashPassword], [verifyPassword], [createSession],
    [getSession], [authMiddleware], [sanitizeText], [normalizeItems],
    [getOrderById], [getAllOrdersWithItems], [sendSse], [broadcast], the
    handlers of POST /api/orders, POST /api/admin/login, GET
    /api/admin/orders, PATCH /api/admin/orders/:id/status and GET
    /api/admin/orders/stream, the close listener and the interval
    callback.  The conversions [String(v)] and [Number(v)] throw on an
    object that has a [toString] of its own; the handlers throw where the
    source converts outside its [try].

    The SQLite connection is modelled by [exec_stmt]: two tables with
    AUTOINCREMENT counters, one transaction at a time on the one
    connection, and calls that may fail as a fault script says.  The
    handler of POST /api/orders is embedded with its [await]s, as a
    [Task]: requests in flight take turns on the connection, each turn
    executing the call one of them awaits ([pool_step]); [createOrder] is
    that handler served without a call of another request in between.
    The other handlers are embedded as served in one piece.  Static
    files and the key derivation itself are not embedded. *)

From Stdlib Require Import Ascii String ZArith QArith Qround Lia.
From Stdlib Require Qcanon.
From stdpp Require Import gmap strings list fin_maps sorting pretty.

Set Warnings "-register-all".
Local Open Scope string_scope.
Local Open Scope list_scope.

(** ** JavaScript numbers

    A number is NaN, an infinity or a finite value.  A finite value is
    given by the rational it denotes; the results of [+] and [*] are rounded
    to binary64 as IEEE 754 prescribes ([round64]).  The sign of zero is
    outside the model. *)

Inductive num : Type :=
  | NaN
  | PInf
  | NInf
  | Fin (q : Q).

Definition num_of_Z (z : Z) : num := Fin (inject_Z z).

(** [a < b] on numbers; any comparison with NaN is false. *)
Definition num_ltb (a b : num) : bool :=
  match a, b with
  | NaN, _ | _, NaN => false
  | _, NInf => false
  | NInf, _ => true
  | PInf, _ => false
  | Fin _, PInf => true
  | Fin x, Fin y => negb (Qle_bool y x)
  end.

(** Truthiness of a number: NaN and 0 are falsy. *)
Definition num_truthy (n : num) : bool :=
  match n with
  | NaN => false
  | Fin q => negb (Qeq_bool q 0)
  | _ => true
  end.

(** [n || d] for a number [n]. *)
Definition num_or (n d : num) : num := if num_truthy n then n else d.

(** [Math.round]: nearest integer, ties towards +Infinity. *)
Definition Math_round (n : num) : num :=
  match n with
  | Fin q => num_of_Z (Qfloor (q + (1 # 2)))
  | _ => n
  end.

Definition Math_max (a b : num) : num :=
  match a, b with
  | NaN, _ | _, NaN => NaN
  | _, _ => if num_ltb a b then b else a
  end.

Definition Math_min (a b : num) : num :=
  match a, b with
  | NaN, _ | _, NaN => NaN
  | _, _ => if num_ltb b a then b else a
  end.

Definition q_sign (q : Q) : Z := Z.sgn (Qnum q).

(** *** Rounding to binary64

    [round64 q] is the binary64 number nearest to the rational [q]: a
    significand of at most 53 bits times a power of two with exponent
    between -1074 and 971, ties going to the even significand, and an
    infinity when the rounded value reaches 2^1024. *)

(** [a / (d * 2^e)] as a pair of integers. *)
Definition scaled (a d e : Z) : Z * Z :=
  if (0 <=? e)%Z then (a, (d * 2 ^ e)%Z) else ((a * 2 ^ (- e))%Z, d).

(** The exponent of the last place of the binary64 nearest to [a / d]. *)
Definition exponent64 (a d : Z) : Z :=
  let e0 := (Z.log2 a - Z.log2 d - 53)%Z in
  let e1 := if (fst (scaled a d e0) / snd (scaled a d e0) <? 2 ^ 53)%Z
            then e0 else (e0 + 1)%Z in
  Z.max e1 (-1074).

(** [p / r] rounded to the nearest integer, ties to even. *)
Definition nearest_even (p r : Z) : Z :=
  let m := (p / r)%Z in
  match (2 * (p mod r) ?= r)%Z with
  | Lt => m
  | Gt => (m + 1)%Z
  | Eq => if Z.even m then m else (m + 1)%Z
  end.

Definition inf_of_sign (s : Z) : num :=
  match s with
  | Z0 => NaN
  | Zpos _ => PInf
  | Zneg _ => NInf
  end.

Definition round64 (q : Q) : num :=
  let a := Z.abs (Qnum q) in
  let d := Zpos (Qden q) in
  if (a =? 0)%Z then Fin 0
  else
    let e := exponent64 a d in
    let m := nearest_even (fst (scaled a d e)) (snd (scaled a d e)) in
    if (2 ^ 1024 <=? m * 2 ^ e)%Z then inf_of_sign (q_sign q)
    else Fin (Qred (Qmake (q_sign q * m * 2 ^ Z.max e 0)
                          (Z.to_pos (2 ^ Z.max (- e) 0)))).

Definition num_add (a b : num) : num :=
  match a, b with
  | NaN, _ | _, NaN => NaN
  | PInf, NInf | NInf, PInf => NaN
  | PInf, _ | _, PInf => PInf
  | NInf, _ | _, NInf => NInf
  | Fin x, Fin y => round64 (x + y)
  end.

Definition num_sign (n : num) : Z :=
  match n with
  | NaN => 0
  | PInf => 1
  | NInf => -1
  | Fin q => q_sign q
  end.

Definition num_mul (a b : num) : num :=
  match a, b with
  | NaN, _ | _, NaN => NaN
  | Fin x, Fin y => round64 (x * y)
  | _, _ => inf_of_sign (num_sign a * num_sign b)
  end.

(** [Number.isInteger(n)], returning the integer. *)
Definition num_integer (n : num) : option Z :=
  match n with
  | Fin q => if Qeq_bool q (inject_Z (Qfloor q)) then Some (Qfloor q) else None
  | _ => None
  end.

(** ** JavaScript values, as [JSON.parse] and the query parser produce them *)

(** An object is the list of its properties, each key once; [assoc] looks a
    key up. *)
Inductive value : Type :=
  | VUndefined
  | VNull
  | VBool (b : bool)
  | VNum (n : num)
  | VStr (s : string)
  | VArr (elems : list value)
  | VObj (props : list (string * value)).

Definition truthy (v : value) : bool :=
  match v with
  | VUndefined | VNull => false
  | VBool b => b
  | VNum n => num_truthy n
  | VStr s => negb (String.eqb s "")
  | VArr _ | VObj _ => true
  end.

Fixpoint assoc (k : string) (props : list (string * value)) : value :=
  match props with
  | [] => VUndefined
  | (k', v) :: rest => if String.eqb k k' then v else assoc k rest
  end.

(** [v.k] for one of the keys the server reads (name, price, qty, image,
    customerName, ...): only objects carry them. *)
Definition prop (v : value) (k : string) : value :=
  match v with
  | VObj props => assoc k props
  | _ => VUndefined
  end.

(** [v && v.k] *)
Definition and_prop (v : value) (k : string) : value :=
  if truthy v then prop v k else v.

(** [v || d] *)
Definition or_else (v d : value) : value := if truthy v then v else d.

Definition Array_isArray (v : value) : bool :=
  match v with
  | VArr _ => true
  | _ => false
  end.

(** ** Strings: [trim], [slice], [toLowerCase]

    A string is its sequence of code units; the model has the code units
    below 256, of which 9-13, 32 and 160 are white space or line
    terminators. *)

Definition is_ws (c : ascii) : bool :=
  let n := nat_of_ascii c in
  ((9 <=? n)%nat && (n <=? 13)%nat) || (n =? 32)%nat || (n =? 160)%nat.

Fixpoint trimStart (s : string) : string :=
  match s with
  | "" => ""
  | String c rest => if is_ws c then trimStart rest else s
  end.

Fixpoint trimEnd (s : string) : string :=
  match s with
  | "" => ""
  | String c rest =>
      match trimEnd rest with
      | "" => if is_ws c then "" else String c ""
      | r => String c r
      end
  end.

Definition trim (s : string) : string := trimEnd (trimStart s).

(** [s.slice(0, n)] for [n >= 0]. *)
Fixpoint slice0 (n : nat) (s : string) : string :=
  match n, s with
  | O, _ => ""
  | _, "" => ""
  | S n', String c rest => String c (slice0 n' rest)
  end.

Definition lower_char (c : ascii) : ascii :=
  let n := nat_of_ascii c in
  if ((65 <=? n)%nat && (n <=? 90)%nat)
     || ((192 <=? n)%nat && (n <=? 222)%nat && negb (n =? 215)%nat)
  then ascii_of_nat (n + 32) else c.

Fixpoint toLowerCase (s : string) : string :=
  match s with
  | "" => ""
  | String c rest => String (lower_char c) (toLowerCase rest)
  end.

Definition startsWith (p s : string) : bool := String.prefix p s.

Fixpoint drop_chars (n : nat) (s : string) : string :=
  match n, s with
  | O, _ => s
  | _, "" => ""
  | S n', String _ rest => drop_chars n' rest
  end.

(** ** Rows, views and events *)

Record Session : Type := {
  adminId : Z;
  username : string;
  expiresAt : Z
}.

Record Admin : Type := {
  admin_id : Z;
  admin_username : string
}.

(** A normalised item: [{ name, price, qty, image }]. *)
Record Item : Type := {
  name : string;
  price : num;
  qty : num;
  image : string
}.

(** Rows of [orders] and [order_items]. *)
Record OrderRow : Type := {
  o_id : Z;
  o_customer_name : string;
  o_table_no : string;
  o_note : string;
  o_status : string;
  o_total : num;
  o_created_at : Z;
  o_updated_at : Z
}.

Record ItemRow : Type := {
  i_id : Z;
  i_order_id : Z;
  i_name : string;
  i_price : num;
  i_qty : num;
  i_image : string
}.

(** The order object that [getOrderById] builds: the selected columns of the
    order row and [items], the selected columns of its item rows. *)
Record ItemView : Type := {
  iv_id : Z;
  iv_name : string;
  iv_price : num;
  iv_qty : num;
  iv_image : string
}.

Record Order : Type := {
  id : Z;
  customerName : string;
  tableNo : string;
  note : string;
  status : string;
  total : num;
  createdAt : Z;
  updatedAt : Z;
  items : list ItemView
}.

(** Payloads handed to [sendSse]: [{ type, order }], [{ now }] and
    [{ ok: true, now }]. *)
Inductive Payload : Type :=
  | POrder (type : string) (order : option Order)
  | PPing (now : Z)
  | PReady (now : Z).

(** What [res.write] receives: the event line and the data line. *)
Inductive Chunk : Type :=
  | EventLine (event : string)
  | DataLine (payload : Payload).

(** A subscriber [{ res, token }]; [res] is identified by [cid]. *)
Record Client : Type := {
  cid : nat;
  token : string
}.

(** What leaves the process on the streaming connections, and the calls of
    [broadcast]. *)
Inductive Action : Type :=
  | Broadcast (event : string) (payload : Payload)
  | Write (c : nat) (chunk : Chunk)
  | End (c : nat).

(** ** The database

    The tables and their AUTOINCREMENT counters; [pending] is the working
    copy of the open transaction, if any.  The server has one connection, so
    every read sees the working copy while a transaction is open. *)

Record Tables : Type := {
  orders : list OrderRow;
  order_items : list ItemRow;
  seq_orders : Z;
  seq_order_items : Z
}.

Record DB : Type := {
  committed : Tables;
  pending : option Tables
}.

Definition view (d : DB) : Tables := default (committed d) (pending d).

Definition write_tables (f : Tables -> Tables) (d : DB) : DB :=
  match pending d with
  | Some t => {| committed := committed d; pending := Some (f t) |}
  | None => {| committed := f (committed d); pending := None |}
  end.

Inductive Stmt : Type :=
  | BEGIN
  | COMMIT
  | ROLLBACK
  | INSERT_order (customer_name table_no note : string) (total : num)
  | INSERT_item (order_id : Z) (name : string) (price qty : num) (image : string)
  | UPDATE_status (status : string) (id : Z).

Record RunResult : Type := {
  lastID : Z;
  changes : Z
}.

Definition insert_order (now : Z) (cn tn nt : string) (tot : num) (t : Tables) : Tables :=
  let i := (seq_orders t + 1)%Z in
  {| orders := orders t ++
       [{| o_id := i; o_customer_name := cn; o_table_no := tn; o_note := nt;
           o_status := "pending"; o_total := tot;
           o_created_at := now; o_updated_at := now |}];
     order_items := order_items t;
     seq_orders := i;
     seq_order_items := seq_order_items t |}.

Definition insert_item (oid : Z) (n : string) (p q : num) (im : string) (t : Tables) : Tables :=
  let i := (seq_order_items t + 1)%Z in
  {| orders := orders t;
     order_items := order_items t ++
       [{| i_id := i; i_order_id := oid; i_name := n; i_price := p;
           i_qty := q; i_image := im |}];
     seq_orders := seq_orders t;
     seq_order_items := i |}.

Definition set_status (now : Z) (st : string) (oid : Z) (r : OrderRow) : OrderRow :=
  if Z.eqb (o_id r) oid then
    {| o_id := o_id r; o_customer_name := o_customer_name r;
       o_table_no := o_table_no r; o_note := o_note r;
       o_status := st; o_total := o_total r;
       o_created_at := o_created_at r; o_updated_at := now |}
  else r.

Definition update_status (now : Z) (st : string) (oid : Z) (t : Tables) : Tables :=
  {| orders := map (set_status now st oid) (orders t);
     order_items := order_items t;
     seq_orders := seq_orders t;
     seq_order_items := seq_order_items t |}.

Definition matching_orders (oid : Z) (t : Tables) : list OrderRow :=
  filter (fun r => o_id r = oid) (orders t).

(** One statement on the connection at time [now]; [None] is an SQL error:
    BEGIN inside a transaction, COMMIT or ROLLBACK outside one, an item
    whose [order_id] refers to no order (foreign keys are enforced). *)
Definition exec_stmt (now : Z) (s : Stmt) (d : DB) : option (RunResult * DB) :=
  match s with
  | BEGIN =>
      match pending d with
      | Some _ => None
      | None => Some ({| lastID := 0; changes := 0 |},
                      {| committed := committed d; pending := Some (committed d) |})
      end
  | COMMIT =>
      match pending d with
      | Some t => Some ({| lastID := 0; changes := 0 |},
                        {| committed := t; pending := None |})
      | None => None
      end
  | ROLLBACK =>
      match pending d with
      | Some _ => Some ({| lastID := 0; changes := 0 |},
                        {| committed := committed d; pending := None |})
      | None => None
      end
  | INSERT_order cn tn nt tot =>
      Some ({| lastID := seq_orders (view d) + 1; changes := 1 |},
            write_tables (insert_order now cn tn nt tot) d)
  | INSERT_item oid n p q im =>
      if bool_decide (oid ∈ map o_id (orders (view d)))
      then Some ({| lastID := seq_order_items (view d) + 1; changes := 1 |},
                 write_tables (insert_item oid n p q im) d)
      else None
  | UPDATE_status st oid =>
      Some ({| lastID := 0;
               changes := Z.of_nat (length (matching_orders oid (view d))) |},
            write_tables (update_status now st oid) d)
  end.

Definition item_view (r : ItemRow) : ItemView :=
  {| iv_id := i_id r; iv_name := i_name r; iv_price := i_price r;
     iv_qty := i_qty r; iv_image := i_image r |}.

Definition order_view (r : OrderRow) (its : list ItemView) : Order :=
  {| id := o_id r; customerName := o_customer_name r; tableNo := o_table_no r;
     note := o_note r; status := o_status r; total := o_total r;
     createdAt := o_created_at r; updatedAt := o_updated_at r; items := its |}.

Definition id_le (a b : ItemRow) : Prop := (i_id a <= i_id b)%Z.

#[global] Instance id_le_dec (a b : ItemRow) : Decision (id_le a b) :=
  Z_le_dec (i_id a) (i_id b).

(** [SELECT ... FROM orders WHERE id = ?], first row. *)
Definition select_order (oid : Z) (d : DB) : option OrderRow :=
  head (matching_orders oid (view d)).

(** [SELECT ... FROM order_items WHERE order_id = ? ORDER BY id ASC]. *)
Definition select_items (oid : Z) (d : DB) : list ItemView :=
  map item_view
    (merge_sort id_le (filter (fun r => i_order_id r = oid) (order_items (view d)))).

(** ** The world of the process *)

Record World : Type := {
  db : DB;
  sessions : gmap string Session;
  sseClients : list Client;
  next_cid : nat;            (* identity of the next connection object *)
  on_close : list nat;       (* connections with a registered close listener *)
  clock : Z;                 (* what Date.now() returns *)
  db_faults : list bool;     (* per storage call: does the driver report an error *)
  net_faults : list bool;    (* per res.write: does it throw *)
  trace : list Action
}.

Definition set_db (d : DB) (w : World) : World :=
  {| db := d; sessions := sessions w; sseClients := sseClients w;
     next_cid := next_cid w; on_close := on_close w; clock := clock w;
     db_faults := db_faults w; net_faults := net_faults w; trace := trace w |}.

Definition set_sessions (s : gmap string Session) (w : World) : World :=
  {| db := db w; sessions := s; sseClients := sseClients w;
     next_cid := next_cid w; on_close := on_close w; clock := clock w;
     db_faults := db_faults w; net_faults := net_faults w; trace := trace w |}.

Definition set_sseClients (l : list Client) (w : World) : World :=
  {| db := db w; sessions := sessions w; sseClients := l;
     next_cid := next_cid w; on_close := on_close w; clock := clock w;
     db_faults := db_faults w; net_faults := net_faults w; trace := trace w |}.

Definition set_next_cid (n : nat) (w : World) : World :=
  {| db := db w; sessions := sessions w; sseClients := sseClients w;
     next_cid := n; on_close := on_close w; clock := clock w;
     db_faults := db_faults w; net_faults := net_faults w; trace := trace w |}.

Definition set_on_close (l : list nat) (w : World) : World :=
  {| db := db w; sessions := sessions w; sseClients := sseClients w;
     next_cid := next_cid w; on_close := l; clock := clock w;
     db_faults := db_faults w; net_faults := net_faults w; trace := trace w |}.

Definition set_clock (t : Z) (w : World) : World :=
  {| db := db w; sessions := sessions w; sseClients := sseClients w;
     next_cid := next_cid w; on_close := on_close w; clock := t;
     db_faults := db_faults w; net_faults := net_faults w; trace := trace w |}.

Definition set_db_faults (l : list bool) (w : World) : World :=
  {| db := db w; sessions := sessions w; sseClients := sseClients w;
     next_cid := next_cid w; on_close := on_close w; clock := clock w;
     db_faults := l; net_faults := net_faults w; trace := trace w |}.

Definition set_net_faults (l : list bool) (w : World) : World :=
  {| db := db w; sessions := sessions w; sseClients := sseClients w;
     next_cid := next_cid w; on_close := on_close w; clock := clock w;
     db_faults := db_faults w; net_faults := l; trace := trace w |}.

Definition emits (l : list Action) (w : World) : World :=
  {| db := db w; sessions := sessions w; sseClients := sseClients w;
     next_cid := next_cid w; on_close := on_close w; clock := clock w;
     db_faults := db_faults w; net_faults := net_faults w;
     trace := trace w ++ l |}.

Definition emit (a : Action) : World -> World := emits [a].

(** ** Computations that may throw *)

Inductive Outcome (A : Type) : Type :=
  | Ok (a : A)
  | Throw.
Arguments Ok {A} a.
Arguments Throw {A}.

Definition M (A : Type) : Type := World -> Outcome A * World.

#[global] Instance M_ret : MRet M := fun A a w => (Ok a, w).

#[global] Instance M_bind : MBind M := fun A B f m w =>
  match m w with
  | (Ok a, w') => f a w'
  | (Throw, w') => (Throw, w')
  end.

(** [try { m } catch (e) { h }] *)
Definition try_catch {A} (m h : M A) : M A := fun w =>
  match m w with
  | (Ok a, w') => (Ok a, w')
  | (Throw, w') => h w'
  end.

Definition throw {A} : M A := fun w => (Throw, w).

Definition modify (f : World -> World) : M unit := fun w => (Ok tt, f w).

(** [for (i = 0; i < l.length; i += 1) { await f(l[i]) }] and [forEach]. *)
Fixpoint for_each {A} (f : A -> M unit) (l : list A) : M unit :=
  match l with
  | [] => mret tt
  | x :: rest => f x ;; for_each f rest
  end.

Definition Date_now : M Z := fun w => (Ok (clock w), w).

(** ** Storage calls: [run], [get], [all]

    Each call first consults the fault script (an entry [true] makes the
    driver report an error; an exhausted script reports none), then executes
    on the connection.  A failed call changes nothing in the database. *)

Definition next_db_fault : M bool := fun w =>
  (Ok (default false (head (db_faults w))), set_db_faults (tail (db_faults w)) w).

Definition run (s : Stmt) : M RunResult :=
  f ← next_db_fault;
  if f : bool then throw
  else fun w =>
    match exec_stmt (clock w) s (db w) with
    | Some (r, d) => (Ok r, set_db d w)
    | None => (Throw, w)
    end.

(** [get("SELECT ... FROM orders WHERE id = ?", [orderId])] *)
Definition get_order (orderId : Z) : M (option OrderRow) :=
  f ← next_db_fault;
  if f : bool then throw
  else fun w => (Ok (select_order orderId (db w)), w).

(** [all("SELECT ... FROM order_items WHERE order_id = ? ORDER BY id ASC", [orderId])] *)
Definition all_items (orderId : Z) : M (list ItemView) :=
  f ← next_db_fault;
  if f : bool then throw
  else fun w => (Ok (select_items orderId (db w)), w).

Definition getOrderById (orderId : Z) : M (option Order) :=
  order ← get_order orderId;
  match order with
  | None => mret None
  | Some row =>
      its ← all_items orderId;
      mret (Some (order_view row its))
  end.

(** ** Asynchronous handlers

    An [async] handler runs until it awaits a storage call and goes on,
    in a later turn of the event loop, when that call has completed; in
    between, other requests run, and their calls go to the same
    connection.  A task is what is left of a handler: it has returned or
    thrown ([Return]), it is about to do something synchronous ([Sync]), or
    it awaits a call ([Await]) and continues with the outcome. *)
Inductive Task (A : Type) : Type :=
  | Return (o : Outcome A)
  | Sync {X : Type} (m : M X) (k : Outcome X -> Task A)
  | Await {X : Type} (call : M X) (k : Outcome X -> Task A).
Arguments Return {A} o.
Arguments Sync {A X} m k.
Arguments Await {A X} call k.

#[global] Instance Task_ret : MRet Task := fun A a => Return (Ok a).

Fixpoint task_bind {A B} (f : A -> Task B) (t : Task A) : Task B :=
  match t with
  | Return (Ok a) => f a
  | Return Throw => Return Throw
  | Sync m k => Sync m (fun o => task_bind f (k o))
  | Await call k => Await call (fun o => task_bind f (k o))
  end.

#[global] Instance Task_bind : MBind Task := @task_bind.

(** [await call] and a synchronous effect. *)
Definition await {X} (call : M X) : Task X := Await call Return.
Definition sync {X} (m : M X) : Task X := Sync m Return.

(** [try { t } catch (e) { h }] around code that awaits. *)
Fixpoint task_try_catch {A} (t h : Task A) : Task A :=
  match t with
  | Return (Ok a) => Return (Ok a)
  | Return Throw => h
  | Sync m k => Sync m (fun o => task_try_catch (k o) h)
  | Await call k => Await call (fun o => task_try_catch (k o) h)
  end.

Fixpoint task_for_each {A} (f : A -> Task unit) (l : list A) : Task unit :=
  match l with
  | [] => mret tt
  | x :: rest => f x ;; task_for_each f rest
  end.

(** A task run to its end with nothing else in between. *)
Fixpoint run_task {A} (t : Task A) : M A :=
  match t with
  | Return o => fun w => (o, w)
  | Sync m k => fun w => let '(o, w') := m w in run_task (k o) w'
  | Await call k => fun w => let '(o, w') := call w in run_task (k o) w'
  end.

(** A task run up to its next [await]: what one turn of the event loop
    does with it. *)
Fixpoint settle {A} (t : Task A) (w : World) : Task A * World :=
  match t with
  | Sync m k => let '(o, w') := m w in settle (k o) w'
  | _ => (t, w)
  end.

(** [getOrderById] with its two awaits. *)
Definition getOrderById_task (orderId : Z) : Task (option Order) :=
  order ← await (get_order orderId);
  match order with
  | None => mret None
  | Some row =>
      its ← await (all_items orderId);
      mret (Some (order_view row its))
  end.

(** ** Sessions *)

Definition SESSION_TTL_MS : Z := 12 * 60 * 60 * 1000.

(** [createSession(admin)]; [tok] is what [crypto.randomBytes(32)] gave. *)
Definition createSession (admin : Admin) (tok : string) : M string := fun w =>
  (Ok tok,
   set_sessions
     (<[tok := {| adminId := admin_id admin;
                  username := admin_username admin;
                  expiresAt := clock w + SESSION_TTL_MS |}]> (sessions w)) w).

Definition getSession (tok : string) : M (option Session) := fun w =>
  match sessions w !! tok with
  | None => (Ok None, w)
  | Some session =>
      if (expiresAt session <? clock w)%Z
      then (Ok None, set_sessions (delete tok (sessions w)) w)
      else (Ok (Some session), w)
  end.

(** The [sessions.forEach] of the interval callback. *)
Definition sweep (now : Z) : M unit :=
  modify (fun w =>
    set_sessions
      (map_fold (fun key value m =>
                   if (expiresAt value <? now)%Z then delete key m else m)
                (sessions w) (sessions w)) w).

(** ** The event hub *)

Definition res_write (c : nat) (chunk : Chunk) : M unit := fun w =>
  match net_faults w with
  | true :: rest => (Throw, set_net_faults rest w)
  | _ :: rest => (Ok tt, emit (Write c chunk) (set_net_faults rest w))
  | [] => (Ok tt, emit (Write c chunk) w)
  end.

(** [res.end()] inside [try { } catch { }]. *)
Definition res_end (c : nat) : M unit := modify (emit (End c)).

Definition sendSse (c : nat) (event : string) (payload : Payload) : M unit :=
  (if String.eqb event "" then mret tt else res_write c (EventLine event)) ;;
  res_write c (DataLine payload).

Definition set_delete (c : Client) (l : list Client) : list Client :=
  filter (fun x => cid x ≠ cid c) l.

Definition sseClients_delete (c : Client) : M unit :=
  modify (fun w => set_sseClients (set_delete c (sseClients w)) w).

Definition broadcast_client (event : string) (payload : Payload) (client : Client) : M unit :=
  s ← getSession (token client);
  match s with
  | None => sseClients_delete client ;; res_end (cid client)
  | Some _ =>
      try_catch (sendSse (cid client) event payload)
                (sseClients_delete client ;; res_end (cid client))
  end.

Definition broadcast (event : string) (payload : Payload) : M unit := fun w =>
  for_each (broadcast_client event payload) (sseClients w)
           (emit (Broadcast event payload) w).

(** The [setInterval] callback. *)
Definition interval : M unit :=
  now ← Date_now;
  sweep now ;;
  broadcast "ping" (PPing now).

(** ** Responses *)

Inductive Body : Type :=
  | JsonMessage (message : string)
  | JsonCreated (message : string) (orderId : Z) (total : num)
  | JsonUpdated (message : string) (order : option Order)
  | Text (s : string)
  | EventStream.

Record Response : Type := {
  statusCode : Z;
  body : Body
}.

Definition ORDER_STATUSES : list string :=
  ["pending"; "preparing"; "served"; "cancelled"].

(** ** Conversions that throw

    [String(v)] and [Number(v)] convert an object or an array through its
    [toString].  A parsed object has the method of [Object.prototype] unless
    it has a key ["toString"] of its own; the value under such a key is
    never a function, and then the conversion throws a [TypeError].  An
    array is joined, which converts each element that is not [null] or
    [undefined] in turn.  Nothing else throws. *)
Fixpoint String_throws (v : value) : bool :=
  match v with
  | VObj props => existsb (fun kv => String.eqb (fst kv) "toString") props
  | VArr elems => existsb String_throws elems
  | _ => false
  end.

(** Whether [sanitizeText(v, maxLen)] throws, in [String(value || "")]. *)
Definition sanitizeText_throws (v : value) : bool :=
  String_throws (or_else v (VStr "")).

(** Whether the callback of [normalizeItems] throws on [item]: the two
    texts go through [sanitizeText], the two numbers through [Number]. *)
Definition normalizeItem_throws (item : value) : bool :=
  sanitizeText_throws (and_prop item "name")
  || String_throws (and_prop item "price")
  || String_throws (and_prop item "qty")
  || sanitizeText_throws (and_prop item "image").

Definition normalizeItems_throws (its : value) : bool :=
  match its with
  | VArr l => existsb normalizeItem_throws l
  | _ => false
  end.

(** Whether one of the conversions at the head of [app.post("/api/orders")]
    throws. *)
Definition createOrder_throws (reqBody : value) : bool :=
  sanitizeText_throws (and_prop reqBody "customerName")
  || sanitizeText_throws (and_prop reqBody "tableNo")
  || sanitizeText_throws (and_prop reqBody "note")
  || normalizeItems_throws (and_prop reqBody "items").

(** Whether one of the two conversions at the head of
    [app.post("/api/admin/login")] throws. *)
Definition login_throws (reqBody : value) : bool :=
  sanitizeText_throws (and_prop reqBody "username")
  || String_throws (or_else (and_prop reqBody "password") (VStr "")).

Section Handlers.

(** The two conversions of the language that the handlers rely on without
    the model fixing them: [String(v)] for [undefined], [null], a boolean
    or a number, and the number a string converts to. *)
Variable String_of : value -> string.
Variable Number_of_string : string -> num.

(** [String(v)] where it does not throw ([String_throws] says where it
    does): an array is its elements joined by commas, [null] and
    [undefined] among them giving the empty string; an object is
    ["[object Object]"]. *)
Fixpoint String_ (v : value) : string :=
  match v with
  | VStr s => s
  | VArr elems =>
      String.concat ","
        (map (fun e => match e with
                       | VUndefined | VNull => ""
                       | _ => String_ e
                       end) elems)
  | VObj _ => "[object Object]"
  | _ => String_of v
  end.

(** [Number(v)] where it does not throw; an object or an array converts
    through its string, and throws exactly when that does. *)
Definition Number_ (v : value) : num :=
  match v with
  | VUndefined => NaN
  | VNull => num_of_Z 0
  | VBool b => num_of_Z (if b then 1 else 0)
  | VNum n => n
  | VStr s => Number_of_string s
  | VArr _ | VObj _ => Number_of_string (String_ v)
  end.

Definition sanitizeText (v : value) (maxLen : nat) : string :=
  let clean := trim (String_ (or_else v (VStr ""))) in
  match maxLen with
  | O => clean
  | _ => slice0 maxLen clean
  end.

Definition normalizeItem (item : value) : Item :=
  {| name := sanitizeText (and_prop item "name") 120;
     price := Math_max (num_of_Z 0)
                (Math_round (num_or (Number_ (and_prop item "price")) (num_of_Z 0)));
     qty := Math_max (num_of_Z 1)
              (Math_min (num_of_Z 99)
                 (Math_round (num_or (Number_ (and_prop item "qty")) (num_of_Z 1))));
     image := sanitizeText (and_prop item "image") 2048 |}.

Definition normalizeItems (its : value) : list Item :=
  if negb (Array_isArray its) then []
  else match its with
       | VArr l => filter (fun item => name item ≠ "") (map normalizeItem l)
       | _ => []
       end.

(** [items.reduce((sum, item) => sum + item.price * item.qty, 0)] *)
Definition order_total (its : list Item) : num :=
  fold_left (fun sum item => num_add sum (num_mul (price item) (qty item)))
            its (num_of_Z 0).

(** [app.post("/api/orders")] on [req.body], with its awaits.  The four
    conversions at its head come before any effect and outside the [try]:
    when one of them throws, the handler throws and the world is as it
    was.  The broadcast is synchronous: it runs in the turn in which the
    re-read completes. *)
Definition createOrder_task (reqBody : value) : Task Response :=
  if createOrder_throws reqBody then Return Throw else
  let customerName :=
    let s := sanitizeText (and_prop reqBody "customerName") 80 in
    if String.eqb s "" then "ลูกค้า" else s in
  let tableNo := sanitizeText (and_prop reqBody "tableNo") 60 in
  let note := sanitizeText (and_prop reqBody "note") 300 in
  let its := normalizeItems (and_prop reqBody "items") in
  match its with
  | [] => mret {| statusCode := 400;
                  body := JsonMessage "ไม่มีรายการสินค้าในออเดอร์" |}
  | _ =>
      let total := order_total its in
      task_try_catch
        (await (run BEGIN) ;;
         result ← await (run (INSERT_order customerName tableNo note total));
         let orderId := lastID result in
         task_for_each
           (fun it =>
              await (run (INSERT_item orderId (name it) (price it) (qty it)
                            (image it))) ;;
              mret tt) its ;;
         await (run COMMIT) ;;
         order ← getOrderById_task orderId;
         sync (broadcast "order" (POrder "order_created" order)) ;;
         mret {| statusCode := 201;
                 body := JsonCreated "สร้างออเดอร์สำเร็จ" orderId total |})
        (task_try_catch (await (run ROLLBACK) ;; mret tt) (mret tt) ;;
         mret {| statusCode := 500;
                 body := JsonMessage "เกิดข้อผิดพลาดในการบันทึกออเดอร์" |})
  end.

(** The handler of one request whose storage calls run with no call of
    another request in between. *)
Definition createOrder (reqBody : value) : M Response :=
  run_task (createOrder_task reqBody).

(** [authMiddleware] on [req.headers.authorization]: the session, or the
    401 response. *)
Definition authMiddleware (authorization : value) : M (Response + Session) :=
  let header := String_ (or_else authorization (VStr "")) in
  let tok := if startsWith "Bearer " header then trim (drop_chars 7 header) else "" in
  session ← getSession tok;
  match session with
  | None => mret (inl {| statusCode := 401; body := JsonMessage "Unauthorized" |})
  | Some s => mret (inr s)
  end.

(** [app.patch("/api/admin/orders/:id/status")].  The conversion of the
    status comes before the checks and outside the [try]: when it throws,
    the handler throws. *)
Definition updateStatus (authorization : value) (paramId : string) (reqBody : value)
  : M Response :=
  a ← authMiddleware authorization;
  match a with
  | inl r => mret r
  | inr _ =>
      if sanitizeText_throws (and_prop reqBody "status") then throw else
      let orderId := Number_ (VStr paramId) in
      let nextStatus := toLowerCase (sanitizeText (and_prop reqBody "status") 40) in
      match num_integer orderId with
      | None => mret {| statusCode := 400; body := JsonMessage "order id ไม่ถูกต้อง" |}
      | Some oid =>
          if (oid <=? 0)%Z
          then mret {| statusCode := 400; body := JsonMessage "order id ไม่ถูกต้อง" |}
          else if negb (bool_decide (nextStatus ∈ ORDER_STATUSES))
          then mret {| statusCode := 400; body := JsonMessage "สถานะไม่ถูกต้อง" |}
          else
            try_catch
              (result ← run (UPDATE_status nextStatus oid);
               if (changes result =? 0)%Z
               then mret {| statusCode := 404; body := JsonMessage "ไม่พบออเดอร์" |}
               else
                 order ← getOrderById oid;
                 broadcast "order" (POrder "order_updated" order) ;;
                 mret {| statusCode := 200;
                         body := JsonUpdated "อัปเดตสถานะสำเร็จ" order |})
              (mret {| statusCode := 500;
                       body := JsonMessage "อัปเดตสถานะไม่สำเร็จ" |})
      end
  end.

Definition sseClients_add (c : Client) : M unit :=
  modify (fun w =>
    set_next_cid (S (next_cid w)) (set_sseClients (sseClients w ++ [c]) w)).

Definition req_on_close (c : nat) : M unit :=
  modify (fun w => set_on_close (c :: on_close w) w).

(** [app.get("/api/admin/orders/stream")] on [req.query]. *)
Definition stream (query : value) : M Response :=
  let tok := sanitizeText (and_prop query "token") 200 in
  session ← getSession tok;
  match session with
  | None => mret {| statusCode := 401; body := Text "Unauthorized" |}
  | Some _ =>
      n ← (fun w => (Ok (next_cid w), w));
      let client := {| cid := n; token := tok |} in
      sseClients_add client ;;
      now ← Date_now;
      sendSse n "ready" (PReady now) ;;
      req_on_close n ;;
      mret {| statusCode := 200; body := EventStream |}
  end.

(** The listener registered by [req.on("close", ...)]. *)
Definition closed (c : Client) : M unit := fun w =>
  if bool_decide (cid c ∈ on_close w)
  then sseClients_delete c w
  else (Ok tt, w).

(** ** Observations on a world *)

(** What a read of order [oid] returns on database [d]: the order row with
    its items attached, ordered by item id. *)
Definition read_order (oid : Z) (d : DB) : option Order :=
  match select_order oid d with
  | None => None
  | Some row => Some (order_view row (select_items oid d))
  end.

(** Order [oid] has a row that reads on the connection see. *)
Definition has_order (oid : Z) (w : World) : Prop :=
  ∃ row, row ∈ orders (view (db w)) ∧ o_id row = oid.

(** The calls of [broadcast] in a trace, in order. *)
Fixpoint broadcasts (l : list Action) : list (string * Payload) :=
  match l with
  | [] => []
  | Broadcast e p :: rest => (e, p) :: broadcasts rest
  | _ :: rest => broadcasts rest
  end.

(** The chunks written on connection [n], in order. *)
Fixpoint received (n : nat) (l : list Action) : list Chunk :=
  match l with
  | [] => []
  | Write c chunk :: rest =>
      if Nat.eqb c n then chunk :: received n rest else received n rest
  | _ :: rest => received n rest
  end.

(** How many times [res.end()] was called on connection [n]. *)
Fixpoint ended (n : nat) (l : list Action) : nat :=
  match l with
  | [] => O
  | End c :: rest => if Nat.eqb c n then S (ended n rest) else ended n rest
  | _ :: rest => ended n rest
  end.

(** The session store has no session for [tok], or one it treats as
    expired. *)
Definition no_valid_session (tok : string) (w : World) : Prop :=
  match sessions w !! tok with
  | None => True
  | Some s => (expiresAt s < clock w)%Z
  end.

Definition live (n : nat) (w : World) : Prop := n ∈ map cid (sseClients w).

(** None of the next [n] calls of [res.write] throws. *)
Definition no_write_fault (n : nat) (w : World) : Prop :=
  ∀ i, (i < n)%nat → net_faults w !! i ≠ Some true.

(** ** Requests in flight

    The requests to create an order that the server is handling, each with
    what is left of its handler.  Two things happen: a request arrives, and
    its handler runs up to its first [await]; or the call that request [i]
    awaits is executed on the connection, and its handler goes on up to
    its next [await].  All requests share the one connection, and the
    calls of the requests in flight are executed in any order. *)
Inductive Event : Type :=
  | Arrive (reqBody : value)
  | Resume (i : nat).

Definition pool_step (e : Event) (st : list (Task Response) * World)
  : list (Task Response) * World :=
  match e with
  | Arrive reqBody =>
      let '(t, w') := settle (createOrder_task reqBody) st.2 in
      (st.1 ++ [t], w')
  | Resume i =>
      match st.1 !! i with
      | Some (Await call k) =>
          let '(o, w1) := call st.2 in
          let '(t, w2) := settle (k o) w1 in
          (<[i := t]> st.1, w2)
      | _ => st
      end
  end.

Definition run_events (es : list Event) (st : list (Task Response) * World)
  : list (Task Response) * World :=
  fold_left (fun st e => pool_step e st) es st.

(** The response that request [i] has been given, if any. *)
Definition answer (i : nat) (p : list (Task Response)) : option Response :=
  match p !! i with
  | Some (Return (Ok r)) => Some r
  | _ => None
  end.

(** Whether request [i] is still in flight. *)
Definition in_flight (i : nat) (p : list (Task Response)) : bool :=
  match p !! i with
  | Some (Await _ _) => true
  | _ => false
  end.

(** ** Executions *)

(** What the environment may do between two handlers: time passes and the
    fault scripts are whatever they are. *)
Definition env_step (w w' : World) : Prop :=
  db w' = db w ∧ sessions w' = sessions w ∧ sseClients w' = sseClients w ∧
  next_cid w' = next_cid w ∧ on_close w' = on_close w ∧ trace w' = trace w ∧
  (clock w <= clock w')%Z.

(** One handler run to completion, or one move of the environment.
    [step_login] is the effect of a login that succeeded, [step_auth] that
    of the middleware in front of a handler that does nothing else. *)
Inductive step : World -> World -> Prop :=
  | step_createOrder reqBody w :
      step w (createOrder reqBody w).2
  | step_updateStatus authorization paramId reqBody w :
      step w (updateStatus authorization paramId reqBody w).2
  | step_stream query w :
      step w (stream query w).2
  | step_closed c w :
      step w (closed c w).2
  | step_interval w :
      step w (interval w).2
  | step_login admin tok w :
      step w (createSession admin tok w).2
  | step_auth authorization w :
      step w (authMiddleware authorization w).2
  | step_env w w' :
      env_step w w' -> step w w'.

(** A step of the server other than a login that draws [tok]: as [step],
    except that a login draws another token. *)
Inductive step_other (tok : string) : World -> World -> Prop :=
  | other_createOrder reqBody w :
      step_other tok w (createOrder reqBody w).2
  | other_updateStatus authorization paramId reqBody w :
      step_other tok w (updateStatus authorization paramId reqBody w).2
  | other_stream query w :
      step_other tok w (stream query w).2
  | other_closed c w :
      step_other tok w (closed c w).2
  | other_interval w :
      step_other tok w (interval w).2
  | other_login admin tok' w :
      tok' ≠ tok -> step_other tok w (createSession admin tok' w).2
  | other_auth authorization w :
      step_other tok w (authMiddleware authorization w).2
  | other_env w w' :
      env_step w w' -> step_other tok w w'.

(** ** Invariants and effects *)

(** Connection identities in use are below the next one. *)
Definition cids_allocated (w : World) : Prop :=
  ∀ c, c ∈ sseClients w → (cid c < next_cid w)%nat.

(** The live set holds each connection once, and only connections already
    accepted. *)
Definition hub_wf (w : World) : Prop :=
  NoDup (map cid (sseClients w)) ∧ cids_allocated w.

(** Ids are at most the counter of their table, and item rows refer to order
    ids that were handed out: what AUTOINCREMENT and the foreign key
    maintain. *)
Definition tables_wf (t : Tables) : Prop :=
  (∀ o, o ∈ orders t → (o_id o <= seq_orders t)%Z) ∧
  (∀ r, r ∈ order_items t →
     (i_id r <= seq_order_items t)%Z ∧ (i_order_id r <= seq_orders t)%Z).

Definition db_wf (d : DB) : Prop :=
  tables_wf (committed d) ∧ ∀ t, pending d = Some t → tables_wf t.

(** Every run of [m] relates the world before to the world after by [R]. *)
Definition respects (R : World -> World -> Prop) {A} (m : M A) : Prop :=
  ∀ w r w', m w = (r, w') → R w w'.

(** Only the database and its fault script differ. *)
Definition storage_only (w w' : World) : Prop :=
  ∃ d fs, w' = set_db d (set_db_faults fs w).

(** Storage activity that loses no visible order row. *)
Definition keeps_orders (w w' : World) : Prop :=
  storage_only w w' ∧ ∀ oid, has_order oid w → has_order oid w'.

Definition db_ok (w w' : World) : Prop := db_wf (db w) → db_wf (db w').

(** What processing one subscriber may append to the trace: writes on its
    connection and the end of that connection. *)
Definition own_io (n : nat) (a : Action) : Prop :=
  (∃ chunk, a = Write n chunk) ∨ a = End n.

(** [w'] is [w] after a pass of the hub that appended [new] to the trace:
    only the session map, the live set, the network fault script and the
    trace differ; no session became valid and no subscriber was added. *)
Definition hub_pass (w w' : World) (new : list Action) : Prop :=
  (∃ m ls fs,
     w' = set_sessions m (set_sseClients ls (set_net_faults fs (emits new w)))) ∧
  (∀ tok, no_valid_session tok w → no_valid_session tok w') ∧
  sseClients w' `sublist_of` sseClients w.

(** [w'] is [w] after some activity that added to the live set only
    connections accepted since [w], and wrote only to subscribers live in
    [w] or to such connections. *)
Definition hub_extends (w w' : World) : Prop :=
  (next_cid w <= next_cid w')%nat ∧
  (∀ n, live n w' → live n w ∨ (next_cid w <= n)%nat) ∧
  ∃ new, trace w' = trace w ++ new ∧
    ∀ n chunk, Write n chunk ∈ new → live n w ∨ (next_cid w <= n)%nat.

Definition hub_ok (w w' : World) : Prop :=
  hub_wf w → hub_wf w' ∧ hub_extends w w'.

(** ** The transaction of [createOrder] and the order it creates *)

(** The transaction of [createOrder], BEGIN to COMMIT, followed by what the
    handler does with the new order id. *)
Definition order_transaction {A} (cn tn nt : string) (tot : num) (its : list Item)
    (k : Z -> M A) : M A :=
  run BEGIN ;;
  result ← run (INSERT_order cn tn nt tot);
  let orderId := lastID result in
  for_each (fun it =>
              run (INSERT_item orderId (name it) (price it) (qty it) (image it)) ;;
              mret tt) its ;;
  run COMMIT ;;
  k orderId.

(** The item rows of one order, inserted in the order of [its]. *)
Definition insert_rows (oid : Z) (its : list Item) (t : Tables) : Tables :=
  fold_left (fun t it => insert_item oid (name it) (price it) (qty it) (image it) t)
            its t.

(** The rows that inserting [its] for order [oid] appends when the item
    counter stands at [s]. *)
Fixpoint rows_from (oid s : Z) (its : list Item) : list ItemRow :=
  match its with
  | [] => []
  | it :: rest =>
      {| i_id := s + 1; i_order_id := oid; i_name := name it;
         i_price := price it; i_qty := qty it; i_image := image it |}
      :: rows_from oid (s + 1) rest
  end.

(** The order that [createOrder] builds on tables [t] at time [now]: the
    next order id, and one item per normalised item, in their order, with
    consecutive item ids. *)
Definition created_order (now : Z) (cn tn nt : string) (tot : num) (its : list Item)
    (t : Tables) : Order :=
  let oid := (seq_orders t + 1)%Z in
  {| id := oid; customerName := cn; tableNo := tn; note := nt;
     status := "pending"; total := tot; createdAt := now; updatedAt := now;
     items := map item_view (rows_from oid (seq_order_items t) its) |}.

(** ** Normalised numbers *)

(** A number that came through [Math.round] and was not NaN: an integer or
    an infinity. *)
Inductive rounded : num -> Prop :=
  | rounded_int z : rounded (num_of_Z z)
  | rounded_pinf : rounded PInf
  | rounded_ninf : rounded NInf.

(** The integer a finite integral number stands for. *)
Definition num_to_Z (n : num) : Z :=
  match n with
  | Fin q => Qfloor q
  | _ => 0%Z
  end.

(** The sum of [price * qty] over the items, in exact integer arithmetic. *)
Definition exact_total (its : list Item) : Z :=
  foldr (fun it acc => (num_to_Z (price it) * num_to_Z (qty it) + acc)%Z) 0%Z its.

(** The bounds that normalisation is meant to establish for an item. *)
Definition item_in_bounds (it : Item) : Prop :=
  (∃ p, (0 <= p)%Z ∧ price it = num_of_Z p) ∧
  (∃ q, (1 <= q <= 99)%Z ∧ qty it = num_of_Z q).

(** ** Sample data *)

Definition response_400_no_items : Response :=
  {| statusCode := 400; body := JsonMessage "ไม่มีรายการสินค้าในออเดอร์" |}.

Definition response_500 : Response :=
  {| statusCode := 500; body := JsonMessage "เกิดข้อผิดพลาดในการบันทึกออเดอร์" |}.

(** A world with empty tables, no session, no subscriber and no fault. *)
Definition empty_tables : Tables :=
  {| orders := []; order_items := []; seq_orders := 0; seq_order_items := 0 |}.

Definition empty_world : World :=
  {| db := {| committed := empty_tables; pending := None |};
     sessions := ∅; sseClients := []; next_cid := 0; on_close := [];
     clock := 1000; db_faults := []; net_faults := []; trace := [] |}.

(** The empty world with the storage faults scripted by [fs]. *)
Definition world_with_faults (fs : list bool) : World := set_db_faults fs empty_world.

Definition session_until (t : Z) : Session :=
  {| adminId := 1; username := "admin"; expiresAt := t |}.

(** A world at time 1000 whose only session, for token ["tok"], has
    [expiresAt = t]. *)
Definition world_with_session (t : Z) : World :=
  set_sessions {[ "tok" := session_until t ]} empty_world.

Definition subscriber0 : Client := {| cid := 0; token := "tok" |}.

(** The same with one subscriber holding that token. *)
Definition world_with_subscriber (t : Z) : World :=
  set_next_cid 1 (set_sseClients [subscriber0] (world_with_session t)).

(** A request body with two items. *)
Definition body_two_items : value :=
  VObj [("customerName", VStr "Nid"); ("tableNo", VStr "T3"); ("note", VStr "no chili");
        ("items",
         VArr [VObj [("name", VStr "Pad Thai"); ("price", VNum (num_of_Z 60));
                     ("qty", VNum (num_of_Z 2))];
               VObj [("name", VStr "Tea"); ("price", VNum (num_of_Z 15));
                     ("qty", VNum (num_of_Z 1))]])].

(** A body whose items all have a blank name, and one whose [items] is not
    an array. *)
Definition body_blank_names : value :=
  VObj [("items", VArr [VObj [("name", VStr ""); ("price", VNum (num_of_Z 10));
                              ("qty", VNum (num_of_Z 1))];
                        VObj [("name", VStr "   "); ("price", VNum (num_of_Z 5))]])].

Definition body_items_string : value :=
  VObj [("customerName", VStr "Nid"); ("items", VStr "Pad Thai")].

(** A request body [{ items: [{ name: "x", price: Infinity, qty: 1 }] }], as
    [JSON.parse] gives it for the text [{"items":[{"name":"x","price":1e999,"qty":1}]}]. *)
Definition body_infinite_price : value :=
  VObj [("items",
         VArr [VObj [("name", VStr "x"); ("price", VNum PInf);
                     ("qty", VNum (num_of_Z 1))]])].

Definition query_tok : value := VObj [("token", VStr "tok")].

(** An instance of the two conversions, for the closed examples.
    [String_of_simple] is [String(v)] on undefined, null, booleans, NaN, the
    infinities and integers; strings, arrays and objects are converted by
    [String_] itself.  [Number_of_decimal] is the number a string of
    decimal digits converts to, white space around it allowed and the
    empty string meaning 0.  Elsewhere they are not the conversions of the
    language (fractions print as the empty string, every other string
    converts to NaN); the examples stay within the range above. *)
Definition String_of_simple (v : value) : string :=
  match v with
  | VUndefined => "undefined"
  | VNull => "null"
  | VBool true => "true"
  | VBool false => "false"
  | VNum NaN => "NaN"
  | VNum PInf => "Infinity"
  | VNum NInf => "-Infinity"
  | VNum (Fin q) =>
      if Qeq_bool q (inject_Z (Qfloor q)) then pretty (Qfloor q) else ""
  | VStr s => s
  | VArr _ => ""
  | VObj _ => "[object Object]"
  end.

Fixpoint decimal_value (s : string) (acc : Z) : option Z :=
  match s with
  | "" => Some acc
  | String c rest =>
      let n := nat_of_ascii c in
      if ((48 <=? n)%nat && (n <=? 57)%nat)
      then decimal_value rest (10 * acc + Z.of_nat (n - 48))%Z
      else None
  end.

Definition Number_of_decimal (s : string) : num :=
  match decimal_value (trim s) 0 with
  | Some z => num_of_Z z
  | None => NaN
  end.

(** ** Further observations *)

(** The session store holds a session for [tok] that it treats as valid. *)
Definition session_valid (tok : string) (w : World) : Prop :=
  ∃ s, sessions w !! tok = Some s ∧ (clock w <= expiresAt s)%Z.

(** What [sendSse] writes for one event: the event line, when the event has
    a name, and the data line. *)
Definition event_chunks (event : string) (payload : Payload) : list Chunk :=
  (if String.eqb event "" then [] else [EventLine event]) ++ [DataLine payload].

Definition writes (n : nat) (chunks : list Chunk) : list Action :=
  map (Write n) chunks.

(** Time stands still and no valid session is lost. *)
Definition keeps_valid (w w' : World) : Prop :=
  clock w' = clock w ∧
  ∀ tok s, sessions w !! tok = Some s → (clock w <= expiresAt s)%Z →
           sessions w' !! tok = Some s.

(** The token that [authMiddleware] extracts from the Authorization
    header. *)
Definition bearer_token (authorization : value) : string :=
  let header := String_ (or_else authorization (VStr "")) in
  if startsWith "Bearer " header then trim (drop_chars 7 header) else "".

(** The statements that the handlers issue: an UPDATE carries one of the
    known statuses. *)
Definition handler_stmt (s : Stmt) : Prop :=
  match s with
  | UPDATE_status st _ => st ∈ ORDER_STATUSES
  | _ => True
  end.

(** Every order has a known status, and every item row belongs to an order
    of the table. *)
Definition tables_consistent (t : Tables) : Prop :=
  (∀ o, o ∈ orders t → o_status o ∈ ORDER_STATUSES) ∧
  (∀ r, r ∈ order_items t → i_order_id r ∈ map o_id (orders t)).

Definition db_consistent (d : DB) : Prop :=
  tables_consistent (committed d) ∧ ∀ t, pending d = Some t → tables_consistent t.

(** The database is untouched. *)
Definition same_db (w w' : World) : Prop := db w' = db w.

(** The committed tables once the order of [reqBody] is stored on top of
    the committed tables of [w]. *)
Definition tables_with_order (reqBody : value) (w : World) : Tables :=
  let customerName :=
    let s := sanitizeText (and_prop reqBody "customerName") 80 in
    if String.eqb s "" then "ลูกค้า" else s in
  let its := normalizeItems (and_prop reqBody "items") in
  insert_rows (seq_orders (committed (db w)) + 1) its
    (insert_order (clock w) customerName
       (sanitizeText (and_prop reqBody "tableNo") 60)
       (sanitizeText (and_prop reqBody "note") 300)
       (order_total its) (committed (db w))).

(** A transaction that is open stays open, over unchanged committed
    tables. *)
Definition inside_transaction (w w' : World) : Prop :=
  is_Some (pending (db w)) →
  committed (db w') = committed (db w) ∧ is_Some (pending (db w')).

(** None of the next [n] storage calls fails. *)
Definition faultless (n : nat) (fs : list bool) : Prop :=
  ∀ i, (i < n)%nat → fs !! i ≠ Some true.

Definition no_db_fault (n : nat) (w : World) : Prop := faultless n (db_faults w).

(** [w'] is [w] after [k] storage calls that left the tables as [d]. *)
Definition after_calls (k : nat) (d : DB) (w w' : World) : Prop :=
  w' = set_db d (set_db_faults (drop k (db_faults w)) w).

(** The status that [updateStatus] reads from the request body. *)
Definition requested_status (reqBody : value) : string :=
  toLowerCase (sanitizeText (and_prop reqBody "status") 40).

(** An order as the store returns it after its status was set at [now]. *)
Definition with_status (st : string) (now : Z) (o : Order) : Order :=
  {| id := id o; customerName := customerName o; tableNo := tableNo o;
     note := note o; status := st; total := total o;
     createdAt := createdAt o; updatedAt := now; items := items o |}.

(** ** Listing the orders *)

(** [ORDER BY id DESC] on the orders table. *)
Definition id_ge (a b : OrderRow) : Prop := (o_id b <= o_id a)%Z.

#[global] Instance id_ge_dec (a b : OrderRow) : Decision (id_ge a b) :=
  Z_le_dec (o_id b) (o_id a).







(** [w'] is [w] after some storage calls that changed no table. *)
Definition read_only (w w' : World) : Prop :=
  ∃ k, w' = set_db_faults (drop k (db_faults w)) w.



(** The order that [createOrder] stores for [reqBody] in [w], as the store
    returns it. *)
Definition requested_order (reqBody : value) (w : World) : Order :=
  let its := normalizeItems (and_prop reqBody "items") in
  created_order (clock w)
    (let s := sanitizeText (and_prop reqBody "customerName") 80 in
     if String.eqb s "" then "ลูกค้า" else s)
    (sanitizeText (and_prop reqBody "tableNo") 60)
    (sanitizeText (and_prop reqBody "note") 300)
    (order_total its) its (committed (db w)).

(** Time does not go back and no session appears or changes. *)
Definition sessions_shrink (w w' : World) : Prop :=
  (clock w <= clock w')%Z ∧
  ∀ tok s, sessions w' !! tok = Some s → sessions w !! tok = Some s.

(** Time stands still, no valid session is lost, and no session appears or
    changes: what a handler other than the login does to the session
    store. *)
Definition session_steady (w w' : World) : Prop :=
  keeps_valid w w' ∧ sessions_shrink w w'.

(** ** Passwords and login *)

(** [buffer.toString("hex")]. *)
Definition hex_digit (n : N) : ascii :=
  if (n <? 10)%N then ascii_of_N (48 + n) else ascii_of_N (87 + n).

Definition hex_of_byte (b : ascii) : string :=
  let n := N_of_ascii b in
  String (hex_digit (n / 16)) (String (hex_digit (n mod 16)) "").

Fixpoint toString_hex (bytes : list ascii) : string :=
  match bytes with
  | [] => ""
  | b :: rest => String.append (hex_of_byte b) (toString_hex rest)
  end.

(** [Buffer.from(s, "hex")]: pairs of hexadecimal digits, of either case,
    up to the first pair that is none; a last single character is left
    out. *)
Definition unhex (c : ascii) : option N :=
  let n := N_of_ascii c in
  if ((48 <=? n) && (n <=? 57))%N then Some (n - 48)%N
  else if ((97 <=? n) && (n <=? 102))%N then Some (n - 87)%N
  else if ((65 <=? n) && (n <=? 70))%N then Some (n - 55)%N
  else None.

Fixpoint Buffer_from_hex (s : string) : list ascii :=
  match s with
  | String a (String b rest) =>
      match unhex a, unhex b with
      | Some x, Some y => ascii_of_N (16 * x + y) :: Buffer_from_hex rest
      | _, _ => []
      end
  | _ => []
  end.

(** [s.indexOf(c) !== -1] and [s.split(c)] for a separator of one
    character. *)
Fixpoint contains (c : ascii) (s : string) : bool :=
  match s with
  | "" => false
  | String x rest => Ascii.eqb x c || contains c rest
  end.

Fixpoint split (c : ascii) (s : string) : list string :=
  match s with
  | "" => [""]
  | String x rest =>
      if Ascii.eqb x c then "" :: split c rest
      else match split c rest with
           | [] => [String x ""]
           | p :: ps => String x p :: ps
           end
  end.

Section Passwords.

(** [crypto.pbkdf2Sync(password, salt, 100000, 64, "sha512")]: the bytes of
    the derived key.  The model does not fix the function. *)
Variable pbkdf2 : string -> string -> list ascii.

(** [hashPassword(password, salt)]; [randomBytes] are the bytes that
    [crypto.randomBytes(16)] returns when the salt is absent or empty. *)
Definition hashPassword (password : value) (salt : option string)
    (randomBytes : list ascii) : string :=
  let currentSalt :=
    match salt with
    | Some s => if String.eqb s "" then toString_hex randomBytes else s
    | None => toString_hex randomBytes
    end in
  let hash :=
    toString_hex (pbkdf2 (String_ (or_else password (VStr ""))) currentSalt) in
  String.append currentSalt (String.append "$" hash).

Definition verifyPassword (password : value) (hashed : string) : bool :=
  if String.eqb hashed "" || negb (contains "$" hashed) then false
  else
    let parts := split "$" hashed in
    match parts !! 0%nat, parts !! 1%nat with
    | Some salt, Some expectedHash =>
        if String.eqb salt "" || String.eqb expectedHash "" then false
        else
          let actualHash :=
            default "" (split "$" (hashPassword password (Some salt) []) !! 1%nat) in
          let expectedBuffer := Buffer_from_hex expectedHash in
          let actualBuffer := Buffer_from_hex actualHash in
          if negb (length expectedBuffer =? length actualBuffer)%nat then false
          else bool_decide (expectedBuffer = actualBuffer)
    | _, _ => false
    end.

(** A row of the [admins] table.  The table is written by [initDatabase]
    only, so the handlers take it as a parameter. *)
Record AdminRow : Type := {
  a_id : Z;
  a_username : string;
  a_password_hash : string
}.

Inductive LoginAnswer : Type :=
  | LoginRefused (r : Response)
  | LoginOk (message : string) (tok : string) (admin : Admin) (expiresInMs : Z).

(** [SELECT ... FROM admins WHERE username = ?], first row. *)
Definition get_admin (admins : list AdminRow) (name : string) : M (option AdminRow) :=
  f ← next_db_fault;
  if f : bool then throw
  else mret (head (filter (fun a => a_username a = name) admins)).

(** [POST /api/admin/login]; [tok] is the token that [createSession] draws
    from [crypto.randomBytes(32)].  The two conversions at its head are
    outside the [try]: when one of them throws, the handler throws. *)
Definition login (admins : list AdminRow) (tok : string) (reqBody : value)
  : M LoginAnswer :=
  if login_throws reqBody then throw else
  let username := sanitizeText (and_prop reqBody "username") 80 in
  let password := String_ (or_else (and_prop reqBody "password") (VStr "")) in
  if String.eqb username "" || String.eqb password ""
  then mret (LoginRefused {| statusCode := 400;
                             body := JsonMessage "กรอกชื่อผู้ใช้และรหัสผ่าน" |})
  else
    try_catch
      (admin ← get_admin admins username;
       match admin with
       | None =>
           mret (LoginRefused
                   {| statusCode := 401;
                      body := JsonMessage "ชื่อผู้ใช้หรือรหัสผ่านไม่ถูกต้อง" |})
       | Some a =>
           if negb (verifyPassword (VStr password) (a_password_hash a))
           then mret (LoginRefused
                        {| statusCode := 401;
                           body := JsonMessage "ชื่อผู้ใช้หรือรหัสผ่านไม่ถูกต้อง" |})
           else
             let adm := {| admin_id := a_id a; admin_username := a_username a |} in
             token ← createSession adm tok;
             mret (LoginOk "เข้าสู่ระบบสำเร็จ" token adm SESSION_TTL_MS)
       end)
      (mret (LoginRefused {| statusCode := 500;
                             body := JsonMessage "ไม่สามารถเข้าสู่ระบบได้" |})).

End Passwords.

(** A string of white space only. *)
Fixpoint all_ws (s : string) : bool :=
  match s with
  | "" => true
  | String c rest => is_ws c && all_ws rest
  end.

(** ** Further sample data *)

(** The subscriber world with the close listener of connection 0 set. *)
Definition world_with_listener : World :=
  set_on_close [0%nat] (world_with_subscriber 5000).

Definition admin0 : Admin := {| admin_id := 1; admin_username := "admin" |}.

(** The world after the login of [admin0] with token ["tok"] at time 1000. *)
Definition world_after_login : World := (createSession admin0 "tok" empty_world).2.

Definition body_served : value := VObj [("status", VStr " Served ")].

(** A request body with one item. *)
Definition body_one_item : value :=
  VObj [("customerName", VStr "Lek");
        ("items", VArr [VObj [("name", VStr "Rice"); ("price", VNum (num_of_Z 20));
                              ("qty", VNum (num_of_Z 1))]])].

(** Two requests in flight.  Request 0 begins its transaction; the BEGIN
    of request 1 fails, since a transaction is open on the connection, and
    the ROLLBACK of its handler ends the transaction of request 0; the
    three inserts of request 0 follow, then its COMMIT and its ROLLBACK. *)
Definition interleaved_events : list Event :=
  [Arrive body_two_items; Arrive body_one_item;
   Resume 0; Resume 1; Resume 1;
   Resume 0; Resume 0; Resume 0; Resume 0; Resume 0].

(** Three requests in flight, their calls executed in the order in which
    the handlers issue them.  Request 0 begins and inserts its order; the
    BEGIN of request 1 fails; request 0 inserts its item; the ROLLBACK of
    request 1 follows; request 2 begins a transaction, which the COMMIT of
    request 0 commits; request 0 re-reads and answers; then come the three
    inserts of request 2, its COMMIT and its ROLLBACK. *)
Definition queued_events : list Event :=
  [Arrive body_one_item; Resume 0; Resume 0;
   Arrive body_one_item; Resume 1; Resume 0; Resume 1;
   Arrive body_two_items; Resume 2; Resume 0; Resume 0;
   Resume 2; Resume 2; Resume 2; Resume 2; Resume 2].

(** An object whose own [toString] is not callable: [String] of it throws. *)
Definition unconvertible : value := VObj [("toString", VNull)].

(** [{"customerName":{"toString":null},"items":[]}] *)
Definition body_unconvertible_empty : value :=
  VObj [("customerName", unconvertible); ("items", VArr [])].

(** [{"note":{"toString":null},"items":"Pad Thai"}] *)
Definition body_unconvertible_no_array : value :=
  VObj [("note", unconvertible); ("items", VStr "Pad Thai")].

(** [{"customerName":{"toString":null},"items":[{"name":"x"}]}] *)
Definition body_unconvertible_order : value :=
  VObj [("customerName", unconvertible);
        ("items", VArr [VObj [("name", VStr "x")]])].

(** [{"status":{"toString":null}}] *)
Definition body_unconvertible_status : value :=
  VObj [("status", unconvertible)].

(** [{"username":{"toString":null},"password":"admin123"}] *)
Definition body_unconvertible_login : value :=
  VObj [("username", unconvertible); ("password", VStr "admin123")].

Definition body_login : value :=
  VObj [("username", VStr " admin "); ("password", VStr "admin123")].

(** A stand-in for the key derivation in the closed examples: the bytes of
    the salt followed by those of the password.  It is no hash; the
    examples only need some function. *)
Definition pbkdf2_sample (password salt : string) : list ascii :=
  list_ascii_of_string (String.append salt password).

(** Whether a string has an opening bracket: the text of every value whose
    conversion throws has one. *)
Fixpoint has_bracket (s : string) : bool :=
  match s with
  | "" => false
  | String c rest => Ascii.eqb c "["%char || has_bracket rest
  end.

(** ** Properties *)

Ltac run_M := unfold mbind, M_bind, mret, M_ret, throw, modify, try_catch in *.

Lemma world_ext (w1 w2 : World) :
  db w1 = db w2 -> sessions w1 = sessions w2 -> sseClients w1 = sseClients w2 ->
  next_cid w1 = next_cid w2 -> on_close w1 = on_close w2 -> clock w1 = clock w2 ->
  db_faults w1 = db_faults w2 -> net_faults w1 = net_faults w2 ->
  trace w1 = trace w2 -> w1 = w2.
Proof. destruct w1, w2; simpl; congruence. Qed.

(** Field projections through the setters, without unfolding the setters
    everywhere at once. *)
Ltac world_fields :=
  cbn [db sessions sseClients next_cid on_close clock db_faults net_faults trace
       set_db set_sessions set_sseClients set_next_cid set_on_close set_clock
       set_db_faults set_net_faults emits emit].

Ltac world_fields_in H :=
  cbn [db sessions sseClients next_cid on_close clock db_faults net_faults trace
       set_db set_sessions set_sseClients set_next_cid set_on_close set_clock
       set_db_faults set_net_faults emits emit fst snd] in H.

Ltac world_eq :=
  apply world_ext; world_fields; rewrite ?app_nil_r, <- ?app_assoc; try reflexivity.

(** *** Sessions *)

Lemma getSession_cases (tok : string) (w : World) :
  getSession tok w =
    match sessions w !! tok with
    | None => (Ok None, w)
    | Some s =>
        if (expiresAt s <? clock w)%Z
        then (Ok None, set_sessions (delete tok (sessions w)) w)
        else (Ok (Some s), w)
    end.
Proof. reflexivity. Qed.

Lemma getSession_valid (tok : string) (s : Session) (w : World) :
  sessions w !! tok = Some s -> (clock w <= expiresAt s)%Z ->
  getSession tok w = (Ok (Some s), w).
Proof.
  intros Hs Hge. rewrite getSession_cases, Hs.
  destruct (Z.ltb_spec (expiresAt s) (clock w)); [lia | done].
Qed.

(** C3, as the code has it: for a stored session, [getSession] returns
    absent exactly when [now > expiresAt], deleting the entry; for
    [now <= expiresAt], the boundary included, it returns the stored session
    and changes nothing. *)
Theorem getSession_expiry (tok : string) (s : Session) (w : World) :
  sessions w !! tok = Some s ->
  ((getSession tok w).1 = Ok None <-> (expiresAt s < clock w)%Z) ∧
  ((expiresAt s < clock w)%Z ->
     getSession tok w = (Ok None, set_sessions (delete tok (sessions w)) w)) ∧
  ((clock w <= expiresAt s)%Z -> getSession tok w = (Ok (Some s), w)).
Proof.
  intros Hs. rewrite getSession_cases, Hs.
  destruct (Z.ltb_spec (expiresAt s) (clock w)) as [Hlt | Hge]; simpl.
  - repeat split; auto. intros; lia.
  - repeat split; try (intros; lia); try reflexivity.
    intros H; discriminate H.
Qed.

Lemma sweep_fold_lookup (now : Z) (m0 m : gmap string Session) (k : string) :
  map_fold (fun key value acc =>
              if (expiresAt value <? now)%Z then delete key acc else acc) m0 m !! k
  = match m !! k with
    | Some s => if (expiresAt s <? now)%Z then None else m0 !! k
    | None => m0 !! k
    end.
Proof.
  revert k.
  apply (map_fold_weak_ind (fun r m' => ∀ k, r !! k =
           match m' !! k with
           | Some s => if (expiresAt s <? now)%Z then None else m0 !! k
           | None => m0 !! k
           end)).
  - intros k. by rewrite lookup_empty.
  - intros i x m' r Hi IH k.
    destruct (decide (i = k)) as [-> | Hne].
    + rewrite lookup_insert_eq.
      destruct (expiresAt x <? now)%Z.
      * by rewrite lookup_delete_eq.
      * by rewrite IH, Hi.
    + rewrite lookup_insert_ne by done.
      destruct (expiresAt x <? now)%Z.
      * rewrite lookup_delete_ne by done. apply IH.
      * apply IH.
Qed.

Lemma sweep_effect (now : Z) (w : World) :
  ∃ m, sweep now w = (Ok tt, set_sessions m w) ∧
    ∀ k, m !! k =
      match sessions w !! k with
      | Some s => if (expiresAt s <? now)%Z then None else Some s
      | None => None
      end.
Proof.
  eexists. split; [reflexivity |].
  intros k. rewrite sweep_fold_lookup.
  destruct (sessions w !! k) as [s |] eqn:E; [| done].
  by destruct (expiresAt s <? now)%Z.
Qed.

(** C8, as the code has it: the sweep deletes exactly the entries with
    [expiresAt < now]; an entry with [expiresAt >= now], the boundary
    [expiresAt = now] included, is kept; nothing else of the world changes. *)
Theorem sweep_deletes_strictly_expired (now : Z) (w : World) :
  ∃ m, sweep now w = (Ok tt, set_sessions m w) ∧
    (∀ k s, sessions w !! k = Some s -> (expiresAt s < now)%Z -> m !! k = None) ∧
    (∀ k s, sessions w !! k = Some s -> (now <= expiresAt s)%Z -> m !! k = Some s) ∧
    (∀ k, sessions w !! k = None -> m !! k = None).
Proof.
  destruct (sweep_effect now w) as (m & E & Hm). exists m. split; [done |].
  repeat split; intros k; [intros s Hs Hlt | intros s Hs Hge | intros Hs];
    rewrite Hm, Hs; [| | done].
  - destruct (Z.ltb_spec (expiresAt s) now); [done | lia].
  - destruct (Z.ltb_spec (expiresAt s) now); [lia | done].
Qed.

(** *** Normalisation *)

Lemma slice0_length (n : nat) (s : string) : (String.length (slice0 n s) <= n)%nat.
Proof.
  revert s. induction n as [| n IH]; intros s; simpl; [lia |].
  destruct s as [| c rest]; simpl; [lia |]. specialize (IH rest). lia.
Qed.

Lemma Qle_bool_inject_Z (a b : Z) :
  Qle_bool (inject_Z a) (inject_Z b) = (a <=? b)%Z.
Proof. unfold Qle_bool; simpl. by rewrite !Z.mul_1_r. Qed.

Lemma num_ltb_of_Z (a b : Z) : num_ltb (num_of_Z a) (num_of_Z b) = (a <? b)%Z.
Proof.
  unfold num_of_Z; simpl. rewrite Qle_bool_inject_Z.
  destruct (Z.leb_spec b a), (Z.ltb_spec a b); simpl; auto; lia.
Qed.

Lemma num_or_not_NaN (n : num) (d : Z) : num_or n (num_of_Z d) ≠ NaN.
Proof. unfold num_or. destruct n; simpl; try discriminate. by destruct (negb _). Qed.

Lemma Math_round_rounded (n : num) : n ≠ NaN -> rounded (Math_round n).
Proof. destruct n; simpl; try constructor; congruence. Qed.

Lemma Math_max_rounded (lo : Z) (n : num) :
  rounded n ->
  Math_max (num_of_Z lo) n = PInf ∨
  ∃ z, (lo <= z)%Z ∧ Math_max (num_of_Z lo) n = num_of_Z z.
Proof.
  intros [z | |].
  - right. change (Math_max (num_of_Z lo) (num_of_Z z))
      with (if num_ltb (num_of_Z lo) (num_of_Z z) then num_of_Z z else num_of_Z lo).
    rewrite num_ltb_of_Z. destruct (Z.ltb_spec lo z).
    + exists z. split; [lia | done].
    + exists lo. split; [lia | done].
  - by left.
  - right. exists lo. split; [lia | done].
Qed.

Lemma Math_min_rounded (hi : Z) (n : num) :
  rounded n ->
  Math_min (num_of_Z hi) n = NInf ∨
  ∃ z, (z <= hi)%Z ∧ Math_min (num_of_Z hi) n = num_of_Z z.
Proof.
  intros [z | |].
  - right. change (Math_min (num_of_Z hi) (num_of_Z z))
      with (if num_ltb (num_of_Z z) (num_of_Z hi) then num_of_Z z else num_of_Z hi).
    rewrite num_ltb_of_Z. destruct (Z.ltb_spec z hi).
    + exists z. split; [lia | done].
    + exists hi. split; [lia | done].
  - right. exists hi. split; [lia | done].
  - by left.
Qed.

Lemma normalizeItem_price (item : value) :
  price (normalizeItem item) = PInf ∨
  ∃ p, (0 <= p)%Z ∧ price (normalizeItem item) = num_of_Z p.
Proof.
  unfold normalizeItem; cbn [price].
  apply Math_max_rounded, Math_round_rounded, num_or_not_NaN.
Qed.

Lemma normalizeItem_qty (item : value) :
  ∃ q, (1 <= q <= 99)%Z ∧ qty (normalizeItem item) = num_of_Z q.
Proof.
  unfold normalizeItem; cbn [qty].
  destruct (Math_min_rounded 99
              (Math_round (num_or (Number_ (and_prop item "qty")) (num_of_Z 1))))
    as [-> | (z & Hz & ->)].
  - apply Math_round_rounded, num_or_not_NaN.
  - exists 1%Z. split; [lia | done].
  - change (Math_max (num_of_Z 1) (num_of_Z z))
      with (if num_ltb (num_of_Z 1) (num_of_Z z) then num_of_Z z else num_of_Z 1).
    rewrite num_ltb_of_Z. destruct (Z.ltb_spec 1 z).
    + exists z. split; [lia | done].
    + exists 1%Z. split; [lia | done].
Qed.

Lemma sanitizeText_length (v : value) (maxLen : nat) :
  maxLen ≠ O -> (String.length (sanitizeText v maxLen) <= maxLen)%nat.
Proof.
  intros H. unfold sanitizeText. destruct maxLen; [done |]. apply slice0_length.
Qed.

Lemma normalizeItem_name_length (item : value) :
  (String.length (name (normalizeItem item)) <= 120)%nat.
Proof. apply (sanitizeText_length _ 120). lia. Qed.

Lemma normalizeItems_not_array (its : value) :
  Array_isArray its = false -> normalizeItems its = [].
Proof. intros H. unfold normalizeItems. by rewrite H. Qed.

Lemma normalizeItems_elem (its : value) (it : Item) :
  it ∈ normalizeItems its ->
  name it ≠ "" ∧ ∃ l raw, its = VArr l ∧ raw ∈ l ∧ it = normalizeItem raw.
Proof.
  unfold normalizeItems. destruct its; simpl; try (intros H; by inversion H).
  intros [Hn Hin]%list_elem_of_filter. split; [done |].
  apply list_elem_of_fmap in Hin as (raw & -> & Hraw). eauto.
Qed.

(** What normalisation guarantees for every surviving item: a non-empty name
    of at most 120 code units, an integer quantity within 1..99, and a price
    that is a non-negative integer or +Infinity. *)
Lemma normalizeItems_bounds (its : value) (it : Item) :
  it ∈ normalizeItems its ->
  name it ≠ "" ∧ (String.length (name it) <= 120)%nat ∧
  (price it = PInf ∨ ∃ p, (0 <= p)%Z ∧ price it = num_of_Z p) ∧
  (∃ q, (1 <= q <= 99)%Z ∧ qty it = num_of_Z q).
Proof.
  intros (Hn & l & raw & -> & Hraw & ->)%normalizeItems_elem.
  auto using normalizeItem_name_length, normalizeItem_price, normalizeItem_qty.
Qed.

(** An item whose name normalises to the empty string is dropped, the others
    are kept, in order. *)
Lemma normalizeItems_drops_blank (l : list value) :
  normalizeItems (VArr l) =
  filter (fun it => name it ≠ "") (map normalizeItem l).
Proof. reflexivity. Qed.

Lemma Qred_scaled (z c : Z) : (0 < c)%Z -> Qred (z * c # Z.to_pos c) = z # 1.
Proof.
  intros Hc. transitivity (Qred (z # 1)).
  - apply Qred_complete. unfold Qeq. cbn [Qnum Qden].
    rewrite Z2Pos.id by exact Hc. ring.
  - apply Qcanon.Qred_identity. cbn [Qnum Qden]. apply Z.gcd_1_r.
Qed.

Lemma nearest_even_exact (p : Z) : nearest_even p 1 = p.
Proof.
  unfold nearest_even. rewrite Z.mod_1_r, Z.div_1_r. reflexivity.
Qed.

Lemma exponent64_int (a : Z) :
  (0 < a <= 2 ^ 53)%Z -> exponent64 a 1 = (Z.log2 a - 52)%Z.
Proof.
  intros Ha. unfold exponent64. change (Z.log2 1) with 0%Z. cbv zeta.
  pose proof (Z.log2_spec a ltac:(lia)) as [Hlo Hhi].
  pose proof (Z.log2_nonneg a) as Hnn.
  assert (Z.log2 a <= 53)%Z as HL.
  { destruct (Z_le_gt_dec (Z.log2 a) 53%Z) as [| Hgt]; [done |].
    assert (2 ^ 54 <= 2 ^ Z.log2 a)%Z by (apply Z.pow_le_mono_r; lia).
    assert (2 ^ 53 < 2 ^ 54)%Z by (apply Z.pow_lt_mono_r; lia). lia. }
  assert ((fst (scaled a 1 (Z.log2 a - 0 - 53)) / snd (scaled a 1 (Z.log2 a - 0 - 53))
           <? 2 ^ 53)%Z = false) as ->.
  { apply Z.ltb_ge. unfold scaled.
    destruct (Z.leb_spec 0%Z (Z.log2 a - 0 - 53)%Z) as [Hge | Hlt]; cbn [fst snd].
    - assert (Z.log2 a = 53)%Z as E by lia. rewrite E in *.
      change (1 * 2 ^ (53 - 0 - 53))%Z with 1%Z. rewrite Z.div_1_r. exact Hlo.
    - rewrite Z.div_1_r.
      replace (2 ^ 53)%Z with (2 ^ Z.log2 a * 2 ^ (- (Z.log2 a - 0 - 53)))%Z.
      + apply Z.mul_le_mono_nonneg_r; [apply Z.pow_nonneg; lia | exact Hlo].
      + rewrite <- Z.pow_add_r by lia. f_equal. lia. }
  lia.
Qed.

Lemma round64_integral (q : Q) (z : Z) :
  Qden q = 1%positive -> Qnum q = z -> (Z.abs z <= 2 ^ 53)%Z ->
  round64 q = num_of_Z z.
Proof.
  intros Hden Hnum Hz. unfold round64, q_sign. rewrite Hden, Hnum. cbv zeta.
  destruct (Z.eqb_spec (Z.abs z) 0%Z) as [H0 | H0].
  { replace z with 0%Z by lia. reflexivity. }
  set (a := Z.abs z) in *.
  assert (0 < a <= 2 ^ 53)%Z as Ha by (unfold a; lia).
  rewrite (exponent64_int a Ha).
  pose proof (Z.log2_spec a ltac:(lia)) as [Hlo Hhi].
  pose proof (Z.log2_nonneg a) as Hnn.
  assert (Z.sgn z * a = z)%Z as Hsgn by (unfold a; lia).
  unfold scaled.
  destruct (Z.leb_spec 0%Z (Z.log2 a - 52)%Z) as [Hge | Hlt]; cbn [fst snd].
  - (* the value is a multiple of [2 ^ (log2 a - 52)] *)
    assert (a = nearest_even a (1 * 2 ^ (Z.log2 a - 52)) * 2 ^ (Z.log2 a - 52))%Z
      as Hval.
    { destruct (Z.eq_dec (Z.log2 a) 52%Z) as [E | E].
      - rewrite E. change (1 * 2 ^ (52 - 52))%Z with 1%Z.
        rewrite nearest_even_exact. change (2 ^ (52 - 52))%Z with 1%Z. lia.
      - assert (Z.log2 a = 53)%Z as E53.
        { destruct (Z_le_gt_dec (Z.log2 a) 53%Z) as [| Hgt]; [lia |].
          assert (2 ^ 54 <= 2 ^ Z.log2 a)%Z by (apply Z.pow_le_mono_r; lia).
          assert (2 ^ 53 < 2 ^ 54)%Z by (apply Z.pow_lt_mono_r; lia). lia. }
        rewrite E53 in *. assert (a = 2 ^ 53)%Z as -> by lia. reflexivity. }
    rewrite <- Hval.
    destruct (Z.leb_spec (2 ^ 1024)%Z a) as [Hbig | _].
    { assert (2 ^ 53 < 2 ^ 1024)%Z by (apply Z.pow_lt_mono_r; lia). lia. }
    rewrite Z.max_l by lia. rewrite Z.max_r by lia.
    change (Z.to_pos (2 ^ 0)) with 1%positive.
    rewrite <- Z.mul_assoc, <- Hval, Hsgn.
    unfold num_of_Z, inject_Z. f_equal. apply Qcanon.Qred_identity. apply Z.gcd_1_r.
  - rewrite nearest_even_exact.
    rewrite (Z.pow_neg_r 2%Z (Z.log2 a - 52)%Z) by lia. rewrite Z.mul_0_r.
    destruct (Z.leb_spec (2 ^ 1024)%Z 0%Z) as [Hbig | _].
    { assert (0 < 2 ^ 1024)%Z by (apply Z.pow_pos_nonneg; lia). lia. }
    rewrite Z.max_r by lia. rewrite Z.max_l by lia.
    change (2 ^ 0)%Z with 1%Z. rewrite Z.mul_1_r, Z.mul_assoc, Hsgn.
    unfold num_of_Z, inject_Z. f_equal. apply Qred_scaled.
    apply Z.pow_pos_nonneg; lia.
Qed.

Lemma num_mul_of_Z (p q : Z) :
  (Z.abs (p * q) <= 2 ^ 53)%Z ->
  num_mul (num_of_Z p) (num_of_Z q) = num_of_Z (p * q).
Proof. intros H. by apply round64_integral. Qed.

Lemma num_add_of_Z (a b : Z) :
  (Z.abs (a + b) <= 2 ^ 53)%Z ->
  num_add (num_of_Z a) (num_of_Z b) = num_of_Z (a + b).
Proof.
  intros H. apply round64_integral; [reflexivity | | exact H].
  cbn [Qnum Qplus inject_Z Qden]. lia.
Qed.

Lemma num_to_Z_of_Z (z : Z) : num_to_Z (num_of_Z z) = z.
Proof. apply Qfloor_Z. Qed.

Lemma exact_total_nonneg (its : list Item) :
  Forall item_in_bounds its -> (0 <= exact_total its)%Z.
Proof.
  induction 1 as [| it its [(p & Hp & Ep) (q & Hq & Eq)] _ IH];
    cbn [exact_total foldr]; [lia |].
  rewrite Ep, Eq, !num_to_Z_of_Z. unfold exact_total in IH.
  assert (0 <= p * q)%Z by (apply Z.mul_nonneg_nonneg; lia). lia.
Qed.

Lemma order_total_from (its : list Item) (a : Z) :
  Forall item_in_bounds its ->
  (0 <= a)%Z -> (a + exact_total its <= 2 ^ 53)%Z ->
  fold_left (fun sum item => num_add sum (num_mul (price item) (qty item)))
            its (num_of_Z a)
  = num_of_Z (a + exact_total its).
Proof.
  intros H. revert a. induction H as [| it its [(p & Hp & Ep) (q & Hq & Eq)] Hits IH];
    intros a Ha Hb; cbn [fold_left exact_total foldr] in *.
  - f_equal. lia.
  - pose proof (exact_total_nonneg its Hits) as Hnn. unfold exact_total in *.
    rewrite Ep, Eq, !num_to_Z_of_Z in *.
    assert (0 <= p * q)%Z by (apply Z.mul_nonneg_nonneg; lia).
    rewrite num_mul_of_Z by lia. rewrite num_add_of_Z by lia.
    rewrite IH by lia. f_equal. lia.
Qed.

(** For items within the bounds whose exact total is at most 2^53, the total
    that the handler computes is that exact sum of [price * qty]: no
    addition or multiplication on the way is rounded. *)
Lemma order_total_exact (its : list Item) :
  Forall item_in_bounds its -> (exact_total its <= 2 ^ 53)%Z ->
  order_total its = num_of_Z (exact_total its) ∧ (0 <= exact_total its)%Z.
Proof.
  intros H Hb. split; [| by apply exact_total_nonneg].
  apply (order_total_from its 0 H); lia.
Qed.

(** When no surviving item has an infinite price and the exact total is at
    most 2^53, the total is the exact sum of [price * qty]. *)
Lemma normalizeItems_total (its : value) :
  (∀ it, it ∈ normalizeItems its -> price it ≠ PInf) ->
  (exact_total (normalizeItems its) <= 2 ^ 53)%Z ->
  order_total (normalizeItems its) = num_of_Z (exact_total (normalizeItems its)) ∧
  (0 <= exact_total (normalizeItems its))%Z.
Proof.
  intros Hfin Hb. apply order_total_exact; [| exact Hb].
  apply Forall_forall. intros it Hit.
  destruct (normalizeItems_bounds _ _ Hit) as (_ & _ & [Hp | Hp] & Hq).
  - by destruct (Hfin it Hit).
  - by split.
Qed.

(** C4 at the input where it fails: a price of +Infinity passes the clamp
    [Math.max(0, Math.round(...))] unchanged, so the surviving item has a
    price that is no integer, the total is +Infinity, and the order is
    created with that total. *)
Theorem normalizeItems_infinite_price :
  normalizeItems (prop body_infinite_price "items")
    = [{| name := "x"; price := PInf; qty := num_of_Z 1; image := "" |}] ∧
  order_total (normalizeItems (prop body_infinite_price "items")) = PInf ∧
  num_integer PInf = None ∧
  (createOrder body_infinite_price empty_world).1
    = Ok {| statusCode := 201; body := JsonCreated "สร้างออเดอร์สำเร็จ" 1 PInf |}.
Proof. repeat split; vm_compute; reflexivity. Qed.

(** *** A handler that runs alone *)

Lemma bind_ext {A B} (m m' : M A) (f f' : A -> M B) (w : World) :
  (∀ w, m w = m' w) -> (∀ a w, f a w = f' a w) -> (m ≫= f) w = (m' ≫= f') w.
Proof.
  intros Hm Hf. unfold mbind, M_bind. rewrite Hm.
  destruct (m' w) as [[a |] w']; [apply Hf | reflexivity].
Qed.

Lemma try_catch_ext {A} (m m' h h' : M A) (w : World) :
  (∀ w, m w = m' w) -> (∀ w, h w = h' w) -> try_catch m h w = try_catch m' h' w.
Proof.
  intros Hm Hh. unfold try_catch. rewrite Hm.
  destruct (m' w) as [[a |] w']; [reflexivity | apply Hh].
Qed.

Lemma for_each_ext {A} (f f' : A -> M unit) (l : list A) (w : World) :
  (∀ x w, f x w = f' x w) -> for_each f l w = for_each f' l w.
Proof.
  intros Hf. revert w. induction l as [| x l IH]; intros w; [reflexivity |].
  cbn [for_each]. apply bind_ext; [apply Hf | intros _; apply IH].
Qed.

Lemma run_task_await {X} (call : M X) (w : World) : run_task (await call) w = call w.
Proof. unfold await. cbn [run_task]. by destruct (call w). Qed.

Lemma run_task_sync {X} (m : M X) (w : World) : run_task (sync m) w = m w.
Proof. unfold sync. cbn [run_task]. by destruct (m w). Qed.

Lemma run_task_bind {A B} (t : Task A) (f : A -> Task B) (w : World) :
  run_task (t ≫= f) w = (run_task t ≫= fun a => run_task (f a)) w.
Proof.
  revert w. induction t as [[a |] | X m k IH | X call k IH]; intros w;
    try reflexivity.
  - change (run_task (Sync m k ≫= f) w)
      with (let '(o, w') := m w in run_task (k o ≫= f) w').
    unfold mbind at 2, M_bind. cbn [run_task].
    destruct (m w) as [o w']. apply IH.
  - change (run_task (Await call k ≫= f) w)
      with (let '(o, w') := call w in run_task (k o ≫= f) w').
    unfold mbind at 2, M_bind. cbn [run_task].
    destruct (call w) as [o w']. apply IH.
Qed.

Lemma run_task_try_catch {A} (t h : Task A) (w : World) :
  run_task (task_try_catch t h) w = try_catch (run_task t) (run_task h) w.
Proof.
  revert w. induction t as [[a |] | X m k IH | X call k IH]; intros w;
    try reflexivity; unfold try_catch; cbn [run_task task_try_catch].
  - destruct (m w) as [o w']. apply IH.
  - destruct (call w) as [o w']. apply IH.
Qed.

Lemma run_task_for_each {A} (f : A -> Task unit) (l : list A) (w : World) :
  run_task (task_for_each f l) w = for_each (fun x => run_task (f x)) l w.
Proof.
  revert w. induction l as [| x l IH]; intros w; [reflexivity |].
  cbn [task_for_each for_each]. rewrite run_task_bind.
  apply bind_ext; [done | intros _; apply IH].
Qed.

Lemma getOrderById_alone (orderId : Z) (w : World) :
  run_task (getOrderById_task orderId) w = getOrderById orderId w.
Proof.
  unfold getOrderById_task, getOrderById. rewrite run_task_bind.
  apply bind_ext; [apply run_task_await |].
  intros [row |] w'; [| reflexivity].
  rewrite run_task_bind. apply bind_ext; [apply run_task_await | done].
Qed.

(** What [createOrder] is when it runs alone: the sequence of its calls. *)
Lemma createOrder_alone (reqBody : value) (w : World) :
  createOrder reqBody w =
  (if createOrder_throws reqBody then throw else
   let customerName :=
     let s := sanitizeText (and_prop reqBody "customerName") 80 in
     if String.eqb s "" then "ลูกค้า" else s in
   let tableNo := sanitizeText (and_prop reqBody "tableNo") 60 in
   let note := sanitizeText (and_prop reqBody "note") 300 in
   let its := normalizeItems (and_prop reqBody "items") in
   match its with
   | [] => mret {| statusCode := 400;
                   body := JsonMessage "ไม่มีรายการสินค้าในออเดอร์" |}
   | _ =>
       let total := order_total its in
       try_catch
         (run BEGIN ;;
          result ← run (INSERT_order customerName tableNo note total);
          let orderId := lastID result in
          for_each (fun it =>
                      run (INSERT_item orderId (name it) (price it) (qty it) (image it)) ;;
                      mret tt) its ;;
          run COMMIT ;;
          order ← getOrderById orderId;
          broadcast "order" (POrder "order_created" order) ;;
          mret {| statusCode := 201;
                  body := JsonCreated "สร้างออเดอร์สำเร็จ" orderId total |})
         (try_catch (run ROLLBACK ;; mret tt) (mret tt) ;;
          mret {| statusCode := 500;
                  body := JsonMessage "เกิดข้อผิดพลาดในการบันทึกออเดอร์" |})
   end) w.
Proof.
  unfold createOrder, createOrder_task.
  destruct (createOrder_throws reqBody); [reflexivity |]. cbv zeta.
  destruct (normalizeItems (and_prop reqBody "items")) as [| it its] eqn:E;
    [reflexivity |].
  rewrite run_task_try_catch. apply try_catch_ext; clear w.
  - intros w. rewrite run_task_bind. apply bind_ext; [apply run_task_await |].
    intros _ w1. rewrite run_task_bind. apply bind_ext; [apply run_task_await |].
    intros result w2. rewrite run_task_bind. apply bind_ext.
    { intros w3. rewrite run_task_for_each. apply for_each_ext.
      intros x w4. rewrite run_task_bind.
      apply bind_ext; [apply run_task_await | done]. }
    intros _ w3. rewrite run_task_bind. apply bind_ext; [apply run_task_await |].
    intros _ w4. rewrite run_task_bind. apply bind_ext; [apply getOrderById_alone |].
    intros order w5. rewrite run_task_bind. apply bind_ext; [apply run_task_sync |].
    done.
  - intros w. rewrite run_task_bind. apply bind_ext; [| done].
    intros w1. rewrite run_task_try_catch. apply try_catch_ext; [| done].
    intros w2. rewrite run_task_bind. apply bind_ext; [apply run_task_await | done].
Qed.

Lemma respects_ext (R : World -> World -> Prop) {A} (m m' : M A) :
  (∀ w, m w = m' w) -> respects R m' -> respects R m.
Proof. intros Hm H w r w' E. rewrite Hm in E. by apply (H w r w'). Qed.

Lemma createOrder_throw (reqBody : value) (w : World) :
  createOrder_throws reqBody = true -> createOrder reqBody w = (Throw, w).
Proof. intros H. rewrite createOrder_alone, H. reflexivity. Qed.


Lemma createOrder_empty (reqBody : value) (w : World) :
  createOrder_throws reqBody = false ->
  normalizeItems (and_prop reqBody "items") = [] ->
  createOrder reqBody w = (Ok response_400_no_items, w).
Proof. intros Hc H. rewrite createOrder_alone, Hc. cbv zeta. rewrite H. reflexivity. Qed.

Lemma createOrder_empty_cases (reqBody : value) (w : World) :
  normalizeItems (and_prop reqBody "items") = [] ->
  createOrder reqBody w
  = (if createOrder_throws reqBody then Throw else Ok response_400_no_items, w).
Proof.
  intros H. destruct (createOrder_throws reqBody) eqn:E.
  - by apply createOrder_throw.
  - by apply createOrder_empty.
Qed.

(** C5: the body [{"customerName":{"toString":null},"items":[]}] has an
    item list that normalises to empty, yet the handler answers no 400: the
    conversion of [customerName] throws before the check is reached, in
    every world.  In general, when the item list normalises to empty the
    handler answers 400 exactly when none of the conversions at its head
    throws (those of the three text fields and of the fields of the
    items), and throws otherwise; in both cases the world is untouched (no
    storage call, no row, no broadcast). *)
Theorem createOrder_no_items :
  (∀ w : World,
     normalizeItems (and_prop body_unconvertible_empty "items") = [] ∧
     createOrder body_unconvertible_empty w = (Throw, w)) ∧
  (∀ (reqBody : value) (w : World),
     normalizeItems (and_prop reqBody "items") = [] ->
     createOrder reqBody w
     = (if createOrder_throws reqBody then Throw else Ok response_400_no_items, w) ∧
     db (createOrder reqBody w).2 = db w ∧
     db_faults (createOrder reqBody w).2 = db_faults w ∧
     trace (createOrder reqBody w).2 = trace w).
Proof.
  split.
  - intros w. split; [reflexivity |]. by apply createOrder_throw.
  - intros reqBody w H. by rewrite (createOrder_empty_cases _ _ H).
Qed.

(** C10: the body [{"note":{"toString":null},"items":"Pad Thai"}] has an
    [items] that is no array, yet the handler answers no 400: the
    conversion of [note] throws before the check is reached, in every
    world.  In general, when [items] is absent or not an array,
    normalisation yields the empty list without throwing, and the handler
    answers 400 exactly when none of the three text fields throws on
    conversion; it then gives the very response it gives for an empty
    array, leaving the world untouched. *)
Theorem createOrder_items_not_array :
  (∀ w : World,
     Array_isArray (and_prop body_unconvertible_no_array "items") = false ∧
     createOrder body_unconvertible_no_array w = (Throw, w)) ∧
  (∀ (reqBody : value) (w : World),
     Array_isArray (and_prop reqBody "items") = false ->
     normalizeItems (and_prop reqBody "items") = [] ∧
     normalizeItems_throws (and_prop reqBody "items") = false ∧
     createOrder reqBody w
     = (if createOrder_throws reqBody then Throw else Ok response_400_no_items, w) ∧
     (createOrder_throws reqBody = false ->
      createOrder reqBody w = createOrder (VObj [("items", VArr [])]) w)).
Proof.
  split.
  - intros w. split; [reflexivity |]. by apply createOrder_throw.
  - intros reqBody w H. pose proof (normalizeItems_not_array _ H) as Hn.
    split; [done |]. split.
    { destruct (and_prop reqBody "items"); try reflexivity. discriminate H. }
    split; [by apply createOrder_empty_cases |].
    intros Hc. rewrite (createOrder_empty _ _ Hc Hn). reflexivity.
Qed.

(** *** The event hub *)

Lemma broadcasts_app (l1 l2 : list Action) :
  broadcasts (l1 ++ l2) = broadcasts l1 ++ broadcasts l2.
Proof.
  induction l1 as [| a l1 IH]; [done |]. destruct a; simpl; by rewrite ?IH.
Qed.

Lemma received_app (n : nat) (l1 l2 : list Action) :
  received n (l1 ++ l2) = received n l1 ++ received n l2.
Proof.
  induction l1 as [| a l1 IH]; [done |].
  destruct a; simpl; rewrite ?IH; try done. by destruct (Nat.eqb c n).
Qed.

Lemma ended_app (n : nat) (l1 l2 : list Action) :
  ended n (l1 ++ l2) = (ended n l1 + ended n l2)%nat.
Proof.
  induction l1 as [| a l1 IH]; [done |].
  destruct a; simpl; rewrite ?IH; try done. by destruct (Nat.eqb c n).
Qed.

Lemma received_none (n : nat) (l : list Action) :
  (∀ chunk, Write n chunk ∉ l) -> received n l = [].
Proof.
  induction l as [| a l IH]; intros H; [done |].
  assert (∀ chunk, Write n chunk ∉ l) as Hl.
  { intros chunk Hin. apply (H chunk). by right. }
  destruct a; simpl; auto.
  destruct (Nat.eqb_spec c n) as [-> | Hne]; auto.
  exfalso. apply (H chunk). by left.
Qed.

Lemma own_io_received (m n : nat) (l : list Action) :
  Forall (own_io m) l -> m ≠ n -> received n l = [].
Proof.
  intros H Hne. apply received_none. intros chunk Hin.
  rewrite Forall_forall in H. destruct (H _ Hin) as [[ch E] | E]; congruence.
Qed.

Lemma own_io_broadcasts (m : nat) (l : list Action) :
  Forall (own_io m) l -> broadcasts l = [].
Proof.
  induction 1 as [| a l [[ch ->] | ->] _ IH]; simpl; auto.
Qed.

Lemma own_io_ended (m n : nat) (l : list Action) :
  Forall (own_io m) l -> m ≠ n -> ended n l = O.
Proof.
  induction 1 as [| a l [[ch ->] | ->] _ IH]; intros Hne; simpl; auto.
  destruct (Nat.eqb_spec m n); [done | auto].
Qed.

Lemma live_set_delete (n : nat) (c : Client) (l : list Client) :
  n ∈ map cid (set_delete c l) <-> n ∈ map cid l ∧ n ≠ cid c.
Proof.
  unfold set_delete. rewrite !list_elem_of_fmap. split.
  - intros (x & -> & [Hx Hin]%list_elem_of_filter). eauto.
  - intros [(x & -> & Hin) Hne]. exists x. split; [done |].
    by apply list_elem_of_filter.
Qed.

Lemma world_eta (w : World) :
  set_sessions (sessions w)
    (set_sseClients (sseClients w) (set_net_faults (net_faults w) (emits [] w))) = w.
Proof.
  destruct w; unfold set_sessions, set_sseClients, set_net_faults, emits; simpl.
  by rewrite app_nil_r.
Qed.

(** [res.write] and [sendSse] touch only the fault script and the trace. *)
Lemma res_write_effect (n : nat) (chunk : Chunk) (w : World) :
  ∃ r fs new, res_write n chunk w = (r, set_net_faults fs (emits new w)) ∧
    Forall (own_io n) new.
Proof.
  assert (own_io n (Write n chunk)) as Hio by (left; eauto).
  unfold res_write. destruct (net_faults w) as [| [] rest] eqn:E.
  - exists (Ok tt), (net_faults w), [Write n chunk]. split; [reflexivity | auto].
  - exists Throw, rest, []. split; [| constructor].
    destruct w; unfold set_net_faults, emits; simpl. by rewrite app_nil_r.
  - exists (Ok tt), rest, [Write n chunk]. split; [reflexivity | auto].
Qed.

Lemma sendSse_effect (n : nat) (event : string) (payload : Payload) (w : World) :
  ∃ r fs new, sendSse n event payload w = (r, set_net_faults fs (emits new w)) ∧
    Forall (own_io n) new.
Proof.
  unfold sendSse. run_M.
  destruct (String.eqb event "").
  - apply res_write_effect.
  - destruct (res_write_effect n (EventLine event) w) as (r1 & fs1 & new1 & -> & H1).
    destruct r1 as [[] |].
    + destruct (res_write_effect n (DataLine payload)
                  (set_net_faults fs1 (emits new1 w))) as (r2 & fs2 & new2 & -> & H2).
      exists r2, fs2, (new1 ++ new2). split.
      * f_equal. unfold set_net_faults, emits; simpl. by rewrite app_assoc.
      * by apply Forall_app.
    + eauto.
Qed.

Lemma hub_pass_refl (w : World) : hub_pass w w [].
Proof.
  split; [| auto]. exists (sessions w), (sseClients w), (net_faults w).
  symmetry. apply world_eta.
Qed.

Lemma hub_pass_trans (w w1 w2 : World) (n1 n2 : list Action) :
  hub_pass w w1 n1 -> hub_pass w1 w2 n2 -> hub_pass w w2 (n1 ++ n2).
Proof.
  intros [(m1 & l1 & f1 & ->) [Hs1 Hc1]] [(m2 & l2 & f2 & ->) [Hs2 Hc2]].
  split; [| split; [auto | by etrans]].
  exists m2, l2, f2. world_eq.
Qed.

Lemma hub_pass_trace (w w' : World) (new : list Action) :
  hub_pass w w' new -> trace w' = trace w ++ new.
Proof. by intros [(m & l & f & ->) _]. Qed.

Lemma no_valid_session_delete (tok k : string) (w : World) :
  no_valid_session tok w ->
  no_valid_session tok (set_sessions (delete k (sessions w)) w).
Proof.
  unfold no_valid_session; simpl.
  destruct (decide (k = tok)) as [-> | Hne].
  - by rewrite lookup_delete_eq.
  - by rewrite lookup_delete_ne.
Qed.

Lemma getSession_pass (tok : string) (w : World) :
  ∃ r w', getSession tok w = (Ok r, w') ∧ hub_pass w w' [] ∧
    (no_valid_session tok w -> r = None) ∧
    (∀ s, r = Some s -> w' = w).
Proof.
  rewrite getSession_cases. unfold no_valid_session.
  destruct (sessions w !! tok) as [s |] eqn:E.
  - destruct (Z.ltb_spec (expiresAt s) (clock w)) as [Hlt | Hge].
    + eexists _, _. split; [reflexivity |]. split; [| split; [done | discriminate]].
      split; [| split; [intros t Ht; by apply no_valid_session_delete | auto]].
      exists (delete tok (sessions w)), (sseClients w), (net_faults w).
      world_eq.
    + eexists _, _. split; [reflexivity |]. split; [apply hub_pass_refl |].
      split; [intros; lia | done].
  - eexists _, _. split; [reflexivity |]. split; [apply hub_pass_refl |].
    split; [done | discriminate].
Qed.

Lemma drop_client_pass (c : Client) (w : World) :
  hub_pass w (emit (End (cid c)) (set_sseClients (set_delete c (sseClients w)) w))
           [End (cid c)] ∧
  ¬ live (cid c) (emit (End (cid c)) (set_sseClients (set_delete c (sseClients w)) w)).
Proof.
  split; [split; [| split] |].
  - by exists (sessions w), (set_delete c (sseClients w)), (net_faults w).
  - auto.
  - simpl. apply sublist_filter.
  - unfold live; simpl. rewrite live_set_delete. tauto.
Qed.

Lemma broadcast_client_pass (event : string) (payload : Payload) (c : Client) (w : World) :
  ∃ w' new, broadcast_client event payload c w = (Ok tt, w') ∧
    hub_pass w w' new ∧ Forall (own_io (cid c)) new ∧
    (no_valid_session (token c) w -> new = [End (cid c)] ∧ ¬ live (cid c) w').
Proof.
  assert (own_io (cid c) (End (cid c))) as Hend by (by right).
  unfold broadcast_client.
  destruct (getSession_pass (token c) w) as (r & w1 & Hg & Hp & Hnone & Hsome).
  unfold mbind at 1, M_bind. rewrite Hg.
  destruct r as [s |].
  - rewrite (Hsome s eq_refl). clear Hg Hp Hsome w1.
    unfold try_catch.
    destruct (sendSse_effect (cid c) event payload w) as (r & fs & new & -> & Hio).
    destruct r as [[] |].
    + eexists _, new. split; [reflexivity |]. split; [| split; [done |]].
      * split; [| auto]. by exists (sessions w), (sseClients w), fs.
      * intros Hn. by specialize (Hnone Hn).
    + eexists _, (new ++ [End (cid c)]). split; [reflexivity |].
      split; [| split].
      * destruct (drop_client_pass c (set_net_faults fs (emits new w))) as [Hd _].
        eapply hub_pass_trans; [| exact Hd].
        split; [| auto]. by exists (sessions w), (sseClients w), fs.
      * apply Forall_app. auto.
      * intros Hn. by specialize (Hnone Hn).
  - destruct (drop_client_pass c w1) as [Hd Hl].
    eexists _, [End (cid c)]. split; [reflexivity |].
    split; [| split; [auto | auto]].
    change [End (cid c)] with ([] ++ [End (cid c)]).
    eapply hub_pass_trans; eauto.
Qed.

Lemma hub_pass_not_live (n : nat) (w w' : World) (new : list Action) :
  hub_pass w w' new -> ¬ live n w -> ¬ live n w'.
Proof.
  intros (_ & _ & Hsub) Hn Hl. apply Hn. unfold live in *.
  apply list_elem_of_fmap in Hl as (x & -> & Hx).
  apply list_elem_of_fmap. eauto using elem_of_sublist.
Qed.

(** One pass of [forEach] over the subscribers [l]: every subscriber without
    a valid session is dropped, is sent nothing and has its connection ended
    once; whatever is written goes to a subscriber of [l]. *)
Lemma for_each_broadcast_pass (event : string) (payload : Payload) (l : list Client) :
  NoDup (map cid l) ->
  ∀ w, ∃ w' new,
    for_each (broadcast_client event payload) l w = (Ok tt, w') ∧
    hub_pass w w' new ∧
    Forall (fun a => ∃ n, n ∈ map cid l ∧ own_io n a) new ∧
    ∀ c, c ∈ l -> no_valid_session (token c) w ->
      ¬ live (cid c) w' ∧ received (cid c) new = [] ∧ ended (cid c) new = 1%nat.
Proof.
  induction l as [| x l IH]; intros Hnd w.
  - exists w, []. split; [reflexivity |]. split; [apply hub_pass_refl |].
    split; [constructor |]. intros c Hc. inversion Hc.
  - simpl in Hnd. apply NoDup_cons in Hnd as [Hx Hnd].
    destruct (broadcast_client_pass event payload x w) as (w1 & n1 & E1 & P1 & IO1 & D1).
    destruct (IH Hnd w1) as (w2 & n2 & E2 & P2 & IO2 & D2).
    exists w2, (n1 ++ n2). split.
    { simpl. unfold mbind, M_bind. by rewrite E1. }
    split; [eapply hub_pass_trans; eauto |]. split.
    { apply Forall_app. split.
      - eapply Forall_impl; [exact IO1 |]. intros a Ha. exists (cid x).
        split; [simpl; by left | done].
      - eapply Forall_impl; [exact IO2 |]. intros a (n & Hn & Ha). exists n.
        split; [simpl; by right | done]. }
    assert (∀ n, n ∉ map cid l -> received n n2 = [] ∧ ended n n2 = O) as Hout.
    { intros n Hn. clear -IO2 Hn. induction IO2 as [| a n2 (m & Hm & Ha) _ IH'].
      - done.
      - assert (m ≠ n) as Hne by (intros ->; done).
        destruct IH' as [IHr IHe].
        destruct Ha as [[ch ->] | ->]; simpl;
          destruct (Nat.eqb_spec m n); try done. }
    intros c Hc Hinv. apply elem_of_cons in Hc as [-> | Hc].
    + destruct (D1 Hinv) as [-> Hdead]. destruct (Hout _ Hx) as [Hr He].
      split; [eapply hub_pass_not_live; eauto |].
      rewrite received_app, ended_app, Hr, He. simpl.
      by rewrite Nat.eqb_refl.
    + assert (cid x ≠ cid c) as Hne.
      { intros E. apply Hx. rewrite E. apply list_elem_of_fmap. eauto. }
      destruct P1 as (Hshape & Hmono & Hsub).
      destruct (D2 c Hc (Hmono _ Hinv)) as (Hdead & Hr & He).
      split; [done |].
      rewrite received_app, ended_app, Hr, He.
      by rewrite (own_io_received _ _ _ IO1 Hne), (own_io_ended _ _ _ IO1 Hne).
Qed.

Lemma broadcast_pass (event : string) (payload : Payload) (w : World) :
  NoDup (map cid (sseClients w)) ->
  ∃ w' new,
    broadcast event payload w = (Ok tt, w') ∧
    hub_pass w w' (Broadcast event payload :: new) ∧
    Forall (fun a => ∃ n, live n w ∧ own_io n a) new ∧
    ∀ c, c ∈ sseClients w -> no_valid_session (token c) w ->
      ¬ live (cid c) w' ∧ received (cid c) new = [] ∧ ended (cid c) new = 1%nat.
Proof.
  intros Hnd. unfold broadcast.
  destruct (for_each_broadcast_pass event payload (sseClients w) Hnd
              (emit (Broadcast event payload) w)) as (w' & new & E & P & IO & D).
  exists w', new. split; [done |]. split; [| split; [done |]].
  - change (Broadcast event payload :: new) with ([Broadcast event payload] ++ new).
    eapply hub_pass_trans; [| exact P].
    split; [| auto]. by exists (sessions w), (sseClients w), (net_faults w).
  - intros c Hc Hinv. by apply D.
Qed.

Lemma sweep_keeps_invalid (now : Z) (tok : string) (w : World) :
  no_valid_session tok w -> no_valid_session tok (sweep now w).2.
Proof.
  destruct (sweep_effect now w) as (m & -> & Hm).
  unfold no_valid_session; simpl. rewrite Hm.
  destruct (sessions w !! tok) as [s |]; [| done].
  by destruct (expiresAt s <? now)%Z.
Qed.

(** *** Composing effects *)

Section Respects.

Context (R : World -> World -> Prop) `{!PreOrder R}.

Lemma respects_ret {A} (a : A) : respects R (mret a).
Proof. intros w r w' E. injection E as _ <-. reflexivity. Qed.

Lemma respects_throw {A} : respects R (@throw A).
Proof. intros w r w' E. injection E as _ <-. reflexivity. Qed.

Lemma respects_bind {A B} (m : M A) (f : A -> M B) :
  respects R m -> (∀ a, respects R (f a)) -> respects R (m ≫= f).
Proof.
  intros Hm Hf w r w' E. unfold mbind, M_bind in E.
  destruct (m w) as [[a |] w1] eqn:E1.
  - etrans; [eapply Hm, E1 | eapply Hf, E].
  - injection E as _ <-. eapply Hm, E1.
Qed.

Lemma respects_try_catch {A} (m h : M A) :
  respects R m -> respects R h -> respects R (try_catch m h).
Proof.
  intros Hm Hh w r w' E. unfold try_catch in E.
  destruct (m w) as [[a |] w1] eqn:E1.
  - injection E as _ <-. eapply Hm, E1.
  - etrans; [eapply Hm, E1 | eapply Hh, E].
Qed.

Lemma respects_for_each {A} (f : A -> M unit) (l : list A) :
  (∀ x, respects R (f x)) -> respects R (for_each f l).
Proof.
  intros Hf. induction l as [| x l IH]; simpl.
  - apply respects_ret.
  - apply respects_bind; auto.
Qed.

End Respects.

#[global] Instance storage_only_preorder : PreOrder storage_only.
Proof.
  split.
  - intros w. exists (db w), (db_faults w). by destruct w.
  - intros w1 w2 w3 (d1 & f1 & ->) (d2 & f2 & ->). by exists d2, f2.
Qed.

Lemma next_db_fault_storage : respects storage_only next_db_fault.
Proof.
  intros w r w' E. injection E as _ <-.
  exists (db w), (tail (db_faults w)). reflexivity.
Qed.

Lemma run_storage (s : Stmt) : respects storage_only (run s).
Proof.
  unfold run. apply respects_bind; [apply _ | apply next_db_fault_storage |].
  intros [].
  - apply respects_throw, _.
  - intros w r w' E. destruct (exec_stmt (clock w) s (db w)) as [[r0 d] |];
      injection E as _ <-; [| reflexivity].
    exists d, (db_faults w). reflexivity.
Qed.

Lemma get_order_storage (oid : Z) : respects storage_only (get_order oid).
Proof.
  unfold get_order. apply respects_bind; [apply _ | apply next_db_fault_storage |].
  intros [].
  - apply respects_throw, _.
  - intros w r w' E. injection E as _ <-. reflexivity.
Qed.

Lemma all_items_storage (oid : Z) : respects storage_only (all_items oid).
Proof.
  unfold all_items. apply respects_bind; [apply _ | apply next_db_fault_storage |].
  intros [].
  - apply respects_throw, _.
  - intros w r w' E. injection E as _ <-. reflexivity.
Qed.

Lemma getOrderById_storage (oid : Z) : respects storage_only (getOrderById oid).
Proof.
  unfold getOrderById. apply respects_bind; [apply _ | apply get_order_storage |].
  intros [row |].
  - apply respects_bind; [apply _ | apply all_items_storage |].
    intros its. apply respects_ret, _.
  - apply respects_ret, _.
Qed.

Lemma respects_weaken (R1 R2 : World -> World -> Prop) {A} (m : M A) :
  (∀ w w', R1 w w' -> R2 w w') -> respects R1 m -> respects R2 m.
Proof. intros H Hm w r w' E. eapply H, Hm, E. Qed.

Lemma hub_extends_refl (w : World) : hub_extends w w.
Proof.
  split; [lia |]. split; [auto |]. exists []. split; [by rewrite app_nil_r |].
  intros n chunk H. inversion H.
Qed.

Lemma hub_extends_trans (w1 w2 w3 : World) :
  hub_extends w1 w2 -> hub_extends w2 w3 -> hub_extends w1 w3.
Proof.
  intros (Hn1 & Hl1 & new1 & Ht1 & Hw1) (Hn2 & Hl2 & new2 & Ht2 & Hw2).
  split; [lia |]. split.
  - intros n Hn. destruct (Hl2 n Hn) as [H | H]; [auto | right; lia].
  - exists (new1 ++ new2). split; [by rewrite Ht2, Ht1, app_assoc |].
    intros n chunk [H | H]%elem_of_app; [eauto |].
    destruct (Hw2 n chunk H) as [H' | H']; [auto | right; lia].
Qed.

#[global] Instance hub_ok_preorder : PreOrder hub_ok.
Proof.
  split.
  - intros w Hwf. split; [done | apply hub_extends_refl].
  - intros w1 w2 w3 H12 H23 Hwf. destruct (H12 Hwf) as [Hwf2 He12].
    destruct (H23 Hwf2) as [Hwf3 He23]. split; [done |].
    eapply hub_extends_trans; eauto.
Qed.

Lemma storage_only_hub_ok (w w' : World) : storage_only w w' -> hub_ok w w'.
Proof.
  intros (d & fs & ->) Hwf. split; [exact Hwf |].
  split; [simpl; lia |]. split; [auto |]. exists []. split.
  - simpl. by rewrite app_nil_r.
  - intros n chunk H. inversion H.
Qed.

Lemma hub_pass_hub_ok (w w' : World) (new : list Action) :
  hub_pass w w' new ->
  (∀ n chunk, Write n chunk ∈ new -> live n w) ->
  hub_ok w w'.
Proof.
  intros [(m & ls & fs & E) [_ Hsub]] Hlive [Hnd Hal].
  assert (next_cid w' = next_cid w) as Hnc by (by subst w').
  split; [split |].
  - eapply sublist_NoDup; [exact Hnd |]. by apply fmap_sublist.
  - intros c Hc. rewrite Hnc. eapply Hal, elem_of_sublist; eauto.
  - split; [lia |]. split.
    + intros n Hn. left. unfold live in *.
      apply list_elem_of_fmap in Hn as (x & -> & Hx).
      apply list_elem_of_fmap. eauto using elem_of_sublist.
    + exists new. split; [by subst w' | eauto].
Qed.

Lemma getSession_hub_ok (tok : string) : respects hub_ok (getSession tok).
Proof.
  intros w r w' E.
  destruct (getSession_pass tok w) as (r0 & w0 & E0 & P & _).
  rewrite E0 in E. injection E as _ <-.
  eapply hub_pass_hub_ok; [exact P |]. intros n chunk H. inversion H.
Qed.

Lemma broadcast_hub_ok (event : string) (payload : Payload) :
  respects hub_ok (broadcast event payload).
Proof.
  intros w r w' E Hwf. pose proof Hwf as [Hnd _].
  destruct (broadcast_pass event payload w Hnd) as (w0 & new & E0 & P & IO & _).
  rewrite E0 in E. injection E as _ <-.
  eapply hub_pass_hub_ok; [exact P | | exact Hwf].
  intros n chunk [H | H]%elem_of_cons; [discriminate |].
  rewrite Forall_forall in IO. destruct (IO _ H) as (m & Hm & [[ch Heq] | Heq]).
  - by injection Heq as -> _.
  - discriminate.
Qed.

Lemma run_hub_ok (s : Stmt) : respects hub_ok (run s).
Proof. eapply respects_weaken; [apply storage_only_hub_ok | apply run_storage]. Qed.

Lemma getOrderById_hub_ok (oid : Z) : respects hub_ok (getOrderById oid).
Proof.
  eapply respects_weaken; [apply storage_only_hub_ok | apply getOrderById_storage].
Qed.

(** The handlers are built from [run], [getOrderById], [getSession] and
    [broadcast]: a preorder that these respect is respected by the
    handlers. *)
Section HandlersRespect.

Context (R : World -> World -> Prop) `{!PreOrder R}.
Hypothesis run_R : ∀ s, respects R (run s).
Hypothesis getOrderById_R : ∀ oid, respects R (getOrderById oid).
Hypothesis getSession_R : ∀ tok, respects R (getSession tok).
Hypothesis broadcast_R : ∀ event payload, respects R (broadcast event payload).

Lemma createOrder_respects (reqBody : value) : respects R (createOrder reqBody).
Proof using All.
  apply (respects_ext _ _ _ (createOrder_alone reqBody)).
  destruct (createOrder_throws reqBody); [apply respects_throw, _ |].
  destruct (normalizeItems (and_prop reqBody "items")) as [| it its];
    [apply respects_ret, _ |].
  apply respects_try_catch; [apply _ | |].
  - apply respects_bind; [apply _ | apply run_R |]. intros _.
    apply respects_bind; [apply _ | apply run_R |]. intros result.
    apply respects_bind; [apply _ | |].
    { apply respects_for_each; [apply _ |]. intros x.
      apply respects_bind; [apply _ | apply run_R |]. intros _.
      apply respects_ret, _. }
    intros _. apply respects_bind; [apply _ | apply run_R |]. intros _.
    apply respects_bind; [apply _ | apply getOrderById_R |]. intros order.
    apply respects_bind; [apply _ | apply broadcast_R |]. intros _.
    apply respects_ret, _.
  - apply respects_bind; [apply _ | |]; [| intros _; apply respects_ret, _].
    apply respects_try_catch; [apply _ | | apply respects_ret, _].
    apply respects_bind; [apply _ | apply run_R |]. intros _.
    apply respects_ret, _.
Qed.

Lemma authMiddleware_respects (authorization : value) :
  respects R (authMiddleware authorization).
Proof using R PreOrder0 getSession_R.
  unfold authMiddleware.
  apply respects_bind; [apply _ | apply getSession_R |].
  intros [s |]; apply respects_ret, _.
Qed.

Lemma updateStatus_respects (authorization : value) (paramId : string)
    (reqBody : value) :
  respects R (updateStatus authorization paramId reqBody).
Proof using All.
  unfold updateStatus.
  apply respects_bind; [apply _ | apply authMiddleware_respects |].
  intros [r | s]; [apply respects_ret, _ |].
  destruct (sanitizeText_throws _); [apply respects_throw, _ |].
  destruct (num_integer _) as [oid |]; [| apply respects_ret, _].
  destruct (oid <=? 0)%Z; [apply respects_ret, _ |].
  destruct (negb _); [apply respects_ret, _ |].
  apply respects_try_catch; [apply _ | | apply respects_ret, _].
  apply respects_bind; [apply _ | apply run_R |]. intros result.
  destruct (changes result =? 0)%Z; [apply respects_ret, _ |].
  apply respects_bind; [apply _ | apply getOrderById_R |]. intros order.
  apply respects_bind; [apply _ | apply broadcast_R |]. intros _.
  apply respects_ret, _.
Qed.

End HandlersRespect.

Lemma createOrder_hub_ok (reqBody : value) : respects hub_ok (createOrder reqBody).
Proof.
  apply createOrder_respects;
    auto using run_hub_ok, getOrderById_hub_ok, broadcast_hub_ok, getSession_hub_ok.
  apply _.
Qed.

Lemma authMiddleware_hub_ok (authorization : value) :
  respects hub_ok (authMiddleware authorization).
Proof. apply authMiddleware_respects; auto using getSession_hub_ok. apply _. Qed.

Lemma updateStatus_hub_ok (authorization : value) (paramId : string) (reqBody : value) :
  respects hub_ok (updateStatus authorization paramId reqBody).
Proof.
  apply updateStatus_respects;
    auto using run_hub_ok, getOrderById_hub_ok, broadcast_hub_ok, getSession_hub_ok.
  apply _.
Qed.

Lemma sweep_hub_ok (now : Z) : respects hub_ok (sweep now).
Proof.
  intros w r w' E. destruct (sweep_effect now w) as (m & E' & _).
  rewrite E' in E. injection E as _ <-. intros Hwf. split; [exact Hwf |].
  split; [simpl; lia |]. split; [auto |]. exists []. split.
  - simpl. by rewrite app_nil_r.
  - intros n chunk H. inversion H.
Qed.

Lemma interval_hub_ok : respects hub_ok interval.
Proof.
  unfold interval. apply respects_bind; [apply _ | |].
  { intros w r w' E. injection E as _ <-. reflexivity. }
  intros now. apply respects_bind; [apply _ | apply sweep_hub_ok |]. intros _.
  apply broadcast_hub_ok.
Qed.

Lemma sseClients_delete_hub_ok (c : Client) : respects hub_ok (sseClients_delete c).
Proof.
  intros w r w' E. injection E as _ <-.
  apply (hub_pass_hub_ok _ _ []).
  - split; [| split; [auto | apply sublist_filter]].
    exists (sessions w), (set_delete c (sseClients w)), (net_faults w).
    destruct w; unfold set_sessions, set_sseClients, set_net_faults, emits; simpl.
    by rewrite app_nil_r.
  - intros n chunk H. inversion H.
Qed.

Lemma closed_hub_ok (c : Client) : respects hub_ok (closed c).
Proof.
  intros w r w' E. unfold closed in E.
  destruct (bool_decide (cid c ∈ on_close w)).
  - eapply sseClients_delete_hub_ok, E.
  - injection E as _ <-. reflexivity.
Qed.

Lemma createSession_hub_ok (admin : Admin) (tok : string) :
  respects hub_ok (createSession admin tok).
Proof.
  intros w r w' E. injection E as _ <-. intros Hwf. split; [exact Hwf |].
  split; [simpl; lia |]. split; [auto |]. exists []. split.
  - simpl. by rewrite app_nil_r.
  - intros n chunk H. inversion H.
Qed.

Lemma env_step_hub_ok (w w' : World) : env_step w w' -> hub_ok w w'.
Proof.
  intros (_ & _ & Hc & Hn & _ & Ht & _) [Hnd Hal].
  split; [split |].
  - by rewrite Hc.
  - intros c. rewrite Hc, Hn. apply Hal.
  - split; [lia |]. split.
    + intros n. unfold live. rewrite Hc. auto.
    + exists []. split; [by rewrite Ht, app_nil_r |].
      intros n chunk H. inversion H.
Qed.

(** Registration followed by the handshake, from the world [w] in which the
    token was found valid. *)
Lemma stream_accept (tok : string) (w : World) :
  let n := next_cid w in
  let client := {| cid := n; token := tok |} in
  let w1 := set_next_cid (S n) (set_sseClients (sseClients w ++ [client]) w) in
  ∃ r fs new,
    sendSse n "ready" (PReady (clock w)) w1 = (r, set_net_faults fs (emits new w1)) ∧
    Forall (own_io n) new ∧
    (n0 ← (fun w => (Ok (next_cid w), w));
     let client := {| cid := n0; token := tok |} in
     sseClients_add client ;;
     now ← Date_now;
     sendSse n0 "ready" (PReady now) ;;
     req_on_close n0 ;;
     mret {| statusCode := 200; body := EventStream |}) w
    = match r with
      | Ok _ => (Ok {| statusCode := 200; body := EventStream |},
                 set_on_close (n :: on_close w) (set_net_faults fs (emits new w1)))
      | Throw => (Throw, set_net_faults fs (emits new w1))
      end.
Proof.
  intros n client w1.
  destruct (sendSse_effect n "ready" (PReady (clock w)) w1) as (r & fs & new & E & Hio).
  exists r, fs, new. split; [exact E |]. split; [exact Hio |].
  transitivity
    ((sendSse n "ready" (PReady (clock w)) ;;
      req_on_close n ;;
      mret {| statusCode := 200; body := EventStream |}) w1); [reflexivity |].
  unfold mbind at 1, M_bind. rewrite E.
  destruct r as [[] |]; reflexivity.
Qed.

Lemma stream_hub_ok (query : value) : respects hub_ok (stream query).
Proof.
  unfold stream.
  apply respects_bind; [apply _ | apply getSession_hub_ok |].
  intros [s |]; [| apply respects_ret, _].
  intros w r w' E [Hnd Hal].
  destruct (stream_accept (sanitizeText (and_prop query "token") 200) w)
    as (r1 & fs & new & _ & Hio & E').
  pose proof (eq_trans (eq_sym E') E) as E2. clear E E'. rename E2 into E.
  set (n := next_cid w) in *.
  set (c := {| cid := n; token := sanitizeText (and_prop query "token") 200 |}) in *.
  assert (hub_wf w' ∧ next_cid w' = S n ∧ sseClients w' = sseClients w ++ [c] ∧
          trace w' = trace w ++ new) as (Hwf' & Hn' & Hc' & Ht').
  { assert (NoDup (map cid (sseClients w ++ [c]))) as Hnd'.
    { rewrite map_app. apply NoDup_app. split; [done |]. split.
      - intros x Hx [Hx' | Hx']%elem_of_cons; [| inversion Hx'].
        apply list_elem_of_fmap in Hx as (y & -> & Hy).
        apply Hal in Hy. simpl in Hx'. lia.
      - apply NoDup_singleton. }
    assert (∀ x, x ∈ sseClients w ++ [c] -> (cid x < S n)%nat) as Hal'.
    { intros x [Hx | Hx]%elem_of_app.
      - apply Hal in Hx. lia.
      - apply list_elem_of_singleton in Hx as ->. simpl. lia. }
    destruct r1 as [[] |]; injection E as _ <-; repeat split; done. }
  split; [done |]. split; [lia |]. split.
  - intros m Hm. unfold live in *. rewrite Hc', map_app in Hm.
    apply elem_of_app in Hm as [Hm | Hm]; [by left |].
    apply list_elem_of_singleton in Hm as ->. right. simpl. lia.
  - exists new. split; [done |]. intros m chunk Hm.
    rewrite Forall_forall in Hio. destruct (Hio _ Hm) as [[ch Heq] | Heq];
      [| discriminate].
    injection Heq as -> _. right. lia.
Qed.

Lemma step_hub_ok (w w' : World) : step w w' -> hub_ok w w'.
Proof.
  intros [reqBody w0 | authorization paramId reqBody w0 | query w0 | c w0 | w0
          | admin tok w0 | authorization w0 | w0 w1 Henv].
  - eapply createOrder_hub_ok, surjective_pairing.
  - eapply updateStatus_hub_ok, surjective_pairing.
  - eapply stream_hub_ok, surjective_pairing.
  - eapply closed_hub_ok, surjective_pairing.
  - eapply interval_hub_ok, surjective_pairing.
  - eapply createSession_hub_ok, surjective_pairing.
  - eapply authMiddleware_hub_ok, surjective_pairing.
  - by apply env_step_hub_ok.
Qed.

Lemma steps_hub_ok (w w' : World) : rtc step w w' -> hub_ok w w'.
Proof.
  induction 1 as [w | w1 w2 w3 H12 _ IH]; [reflexivity |].
  etrans; [apply step_hub_ok, H12 | exact IH].
Qed.

(** A connection that was accepted and is not in the live set stays out of
    it, and nothing is written on it any more. *)
Lemma dropped_stays_dropped (n : nat) (w w' : World) :
  hub_wf w -> hub_extends w w' ->
  (n < next_cid w)%nat -> ¬ live n w ->
  ¬ live n w' ∧ received n (trace w') = received n (trace w).
Proof.
  intros Hwf (Hnc & Hl & new & Ht & Hw) Hn Hdead. split.
  - intros H. destruct (Hl n H); [done | lia].
  - rewrite Ht, received_app, (received_none n new), app_nil_r; [done |].
    intros chunk H. destruct (Hw n chunk H); [done | lia].
Qed.

Lemma pruned_by_broadcast (c : Client) (w : World) (event : string) (payload : Payload) :
  hub_wf w -> c ∈ sseClients w -> no_valid_session (token c) w ->
  let w1 := (broadcast event payload w).2 in
  ¬ live (cid c) w1 ∧
  (∃ new, trace w1 = trace w ++ new ∧
          received (cid c) new = [] ∧ ended (cid c) new = 1%nat) ∧
  ∀ w2, rtc step w1 w2 ->
    ¬ live (cid c) w2 ∧ received (cid c) (trace w2) = received (cid c) (trace w).
Proof.
  intros Hwf Hc Hinv w1. pose proof Hwf as [Hnd Hal].
  destruct (broadcast_pass event payload w Hnd) as (w' & new & E & P & IO & D).
  assert (w1 = w') as -> by (unfold w1; by rewrite E).
  destruct (D c Hc Hinv) as (Hdead & Hr & He).
  destruct (broadcast_hub_ok event payload w _ _ E Hwf) as [Hwf' _].
  pose proof (hub_pass_trace _ _ _ P) as Ht.
  assert (next_cid w' = next_cid w) as Hnc.
  { destruct P as [(m & ls & fs & ->) _]. reflexivity. }
  split; [done |]. split.
  - exists (Broadcast event payload :: new). by split.
  - intros w2 Hsteps.
    destruct (steps_hub_ok _ _ Hsteps Hwf') as [_ Hext].
    destruct (dropped_stays_dropped (cid c) w' w2 Hwf' Hext) as [Hd2 Hr2]; [| done |].
    + rewrite Hnc. by apply Hal.
    + split; [done |]. rewrite Hr2, Ht, received_app. simpl.
      by rewrite Hr, app_nil_r.
Qed.

(** C6: a subscriber of the live set for whose token the session store has
    no valid session is, by the next [broadcast] (a business event or the
    ping of the interval callback), removed from the live set, sent nothing
    and has its connection ended; whatever the server does afterwards, it
    never re-enters the live set and nothing more is written to it. *)
Theorem broadcast_prunes_invalid_subscriber (c : Client) (w w1 : World) :
  hub_wf w -> c ∈ sseClients w -> no_valid_session (token c) w ->
  (∃ event payload, w1 = (broadcast event payload w).2) ∨ w1 = (interval w).2 ->
  ¬ live (cid c) w1 ∧
  (∃ new, trace w1 = trace w ++ new ∧
          received (cid c) new = [] ∧ ended (cid c) new = 1%nat) ∧
  ∀ w2, rtc step w1 w2 ->
    ¬ live (cid c) w2 ∧ received (cid c) (trace w2) = received (cid c) (trace w).
Proof.
  intros Hwf Hc Hinv [(event & payload & ->) | ->].
  - by apply pruned_by_broadcast.
  - destruct (sweep_effect (clock w) w) as (m & Es & _).
    assert (interval w = broadcast "ping" (PPing (clock w)) (set_sessions m w)) as ->.
    { unfold interval, Date_now. unfold mbind at 1, M_bind.
      unfold mbind at 1, M_bind. by rewrite Es. }
    assert (set_sessions m w = (sweep (clock w) w).2) as Hs by (by rewrite Es).
    apply (pruned_by_broadcast c (set_sessions m w)); [exact Hwf | exact Hc |].
    rewrite Hs. by apply sweep_keeps_invalid.
Qed.

Lemma sendSse_no_fault (n : nat) (event : string) (payload : Payload) (w : World) :
  event ≠ "" -> no_write_fault 2 w ->
  ∃ fs, sendSse n event payload w
        = (Ok tt, set_net_faults fs
                    (emits [Write n (EventLine event); Write n (DataLine payload)] w)).
Proof.
  intros Hev Hnf. unfold sendSse.
  destruct (String.eqb_spec event "") as [-> | _]; [done |].
  pose proof (Hnf 0%nat ltac:(lia)) as H0. pose proof (Hnf 1%nat ltac:(lia)) as H1.
  unfold mbind, M_bind, res_write.
  destruct (net_faults w) as [| [] [| [] rest]] eqn:E; simpl in H0, H1;
    try congruence.
  - cbn [net_faults emit emits]. rewrite E. exists []. f_equal. world_eq.
    by rewrite E.
  - cbn [net_faults set_net_faults emit emits]. exists []. f_equal. world_eq.
  - cbn [net_faults set_net_faults emit emits]. exists rest. f_equal. world_eq.
Qed.

(** C7, as the code has it: with a valid token the handler first adds the
    subscriber to the live set and only then sends the handshake: the
    ["ready"] event with the current server time is written in the world
    [w1] in which the subscriber is already registered, the subscriber is in
    the live set afterwards whether or not that write succeeded, and when no
    write fails the handshake is exactly what was written. *)
Theorem stream_registers_then_greets (query : value) (s : Session) (w : World) :
  let tok := sanitizeText (and_prop query "token") 200 in
  let n := next_cid w in
  let client := {| cid := n; token := tok |} in
  let w1 := set_next_cid (S n) (set_sseClients (sseClients w ++ [client]) w) in
  sessions w !! tok = Some s -> (clock w <= expiresAt s)%Z ->
  ∃ r fs new,
    sendSse n "ready" (PReady (clock w)) w1 = (r, set_net_faults fs (emits new w1)) ∧
    stream query w
    = match r with
      | Ok _ => (Ok {| statusCode := 200; body := EventStream |},
                 set_on_close (n :: on_close w) (set_net_faults fs (emits new w1)))
      | Throw => (Throw, set_net_faults fs (emits new w1))
      end ∧
    client ∈ sseClients (stream query w).2 ∧
    (no_write_fault 2 w ->
       r = Ok tt ∧
       new = [Write n (EventLine "ready"); Write n (DataLine (PReady (clock w)))]).
Proof.
  intros tok n client w1 Hs Hvalid.
  pose proof (getSession_valid tok s w Hs Hvalid) as Hg.
  destruct (stream_accept tok w) as (r & fs & new & Esend & Hio & Erest).
  fold n client w1 in Esend, Erest.
  assert (stream query w
          = match r with
            | Ok _ => (Ok {| statusCode := 200; body := EventStream |},
                       set_on_close (n :: on_close w) (set_net_faults fs (emits new w1)))
            | Throw => (Throw, set_net_faults fs (emits new w1))
            end) as Estream.
  { unfold stream. fold tok. unfold mbind at 1, M_bind. rewrite Hg. exact Erest. }
  exists r, fs, new. split; [exact Esend |]. split; [exact Estream |]. split.
  - rewrite Estream. destruct r as [[] |]; simpl; set_solver.
  - intros Hnf.
    destruct (sendSse_no_fault n "ready" (PReady (clock w)) w1) as (fs' & E');
      [done | exact Hnf |].
    rewrite E' in Esend.
    pose proof (f_equal fst Esend) as Hr. pose proof (f_equal snd Esend) as Hw.
    apply (f_equal trace) in Hw. world_fields_in Hr. world_fields_in Hw.
    split; [done |]. by apply app_inv_head in Hw.
Qed.

(** *** Storage calls *)

Lemma run_no_fault (s : Stmt) (w : World) :
  head (db_faults w) ≠ Some true ->
  run s w =
    match exec_stmt (clock w) s (db w) with
    | Some (r, d) => (Ok r, set_db d (set_db_faults (tail (db_faults w)) w))
    | None => (Throw, set_db_faults (tail (db_faults w)) w)
    end.
Proof.
  intros H. unfold run, next_db_fault. unfold mbind, M_bind.
  destruct (db_faults w) as [| [] rest]; simpl in *; [| congruence |];
    by destruct (exec_stmt (clock w) s (db w)) as [[r d] |].
Qed.

Lemma run_fault (s : Stmt) (w : World) :
  head (db_faults w) = Some true ->
  run s w = (Throw, set_db_faults (tail (db_faults w)) w).
Proof.
  intros H. unfold run, next_db_fault. unfold mbind, M_bind.
  by destruct (db_faults w) as [| [] rest]; simpl in *; try congruence.
Qed.

Lemma get_order_fault (oid : Z) (w : World) :
  head (db_faults w) = Some true ->
  get_order oid w = (Throw, set_db_faults (tail (db_faults w)) w).
Proof.
  intros H. unfold get_order, next_db_fault. unfold mbind, M_bind.
  by destruct (db_faults w) as [| [] rest]; simpl in *; try congruence.
Qed.

Lemma view_pending (d : DB) (t : Tables) : pending d = Some t -> view d = t.
Proof. unfold view. by intros ->. Qed.

Lemma insert_order_has_id (now : Z) (cn tn nt : string) (tot : num) (t : Tables) :
  (seq_orders t + 1)%Z ∈ map o_id (orders (insert_order now cn tn nt tot t)).
Proof.
  cbn [orders insert_order]. rewrite map_app. apply elem_of_app. right. by left.
Qed.

(** The item loop, when no call fails. *)
Lemma insert_items_ok (oid : Z) (its : list Item) :
  ∀ (w : World) (t : Tables) (fs : list bool),
    pending (db w) = Some t ->
    oid ∈ map o_id (orders t) ->
    db_faults w = replicate (length its) false ++ fs ->
    for_each (fun it =>
                run (INSERT_item oid (name it) (price it) (qty it) (image it)) ;;
                mret tt) its w
    = (Ok tt,
       set_db {| committed := committed (db w);
                 pending := Some (insert_rows oid its t) |} (set_db_faults fs w)).
Proof.
  induction its as [| it its IH]; intros w t fs Hp Ho Hf.
  - destruct w as [[c p] ? ? ? ? ? ? ? ?]; simpl in *; subst. reflexivity.
  - cbn [for_each]. unfold mbind at 1, M_bind. unfold mbind at 1, M_bind.
    rewrite run_no_fault by (rewrite Hf; simpl; congruence).
    cbn [exec_stmt]. rewrite (view_pending _ _ Hp).
    rewrite bool_decide_eq_true_2 by exact Ho.
    unfold mret at 1, M_ret.
    erewrite IH; [| simpl; unfold write_tables; rewrite Hp; reflexivity
                  | exact Ho
                  | simpl; by rewrite Hf].
    f_equal. unfold write_tables. rewrite Hp. reflexivity.
Qed.

(** The item loop, when the call for item [j] fails. *)
Lemma insert_items_fault (oid : Z) (its : list Item) :
  ∀ (j : nat) (w : World) (t : Tables) (fs : list bool),
    (j < length its)%nat ->
    pending (db w) = Some t ->
    oid ∈ map o_id (orders t) ->
    db_faults w = replicate j false ++ true :: fs ->
    for_each (fun it =>
                run (INSERT_item oid (name it) (price it) (qty it) (image it)) ;;
                mret tt) its w
    = (Throw,
       set_db {| committed := committed (db w);
                 pending := Some (insert_rows oid (take j its) t) |}
              (set_db_faults fs w)).
Proof.
  induction its as [| it its IH]; intros j w t fs Hj Hp Ho Hf; [simpl in Hj; lia |].
  cbn [for_each]. unfold mbind at 1, M_bind. unfold mbind at 1, M_bind.
  destruct j as [| j].
  - rewrite run_fault by (by rewrite Hf). rewrite Hf. simpl.
    destruct w as [[c p] ? ? ? ? ? ? ? ?]; simpl in *; subst. reflexivity.
  - rewrite run_no_fault by (rewrite Hf; simpl; congruence).
    cbn [exec_stmt]. rewrite (view_pending _ _ Hp).
    rewrite bool_decide_eq_true_2 by exact Ho.
    unfold mret at 1, M_ret.
    erewrite (IH j); [| simpl in Hj; lia
                      | simpl; unfold write_tables; rewrite Hp; reflexivity
                      | exact Ho
                      | simpl; by rewrite Hf].
    f_equal. unfold write_tables. rewrite Hp. reflexivity.
Qed.

(** *** The transaction of [createOrder] *)

Lemma createOrder_unfold (reqBody : value) (w : World) :
  createOrder_throws reqBody = false ->
  normalizeItems (and_prop reqBody "items") ≠ [] ->
  createOrder reqBody w =
  let customerName :=
    let s := sanitizeText (and_prop reqBody "customerName") 80 in
    if String.eqb s "" then "ลูกค้า" else s in
  let its := normalizeItems (and_prop reqBody "items") in
  let total := order_total its in
  try_catch
    (order_transaction customerName
       (sanitizeText (and_prop reqBody "tableNo") 60)
       (sanitizeText (and_prop reqBody "note") 300) total its
       (fun orderId =>
          order ← getOrderById orderId;
          broadcast "order" (POrder "order_created" order) ;;
          mret {| statusCode := 201;
                  body := JsonCreated "สร้างออเดอร์สำเร็จ" orderId total |}))
    (try_catch (run ROLLBACK ;; mret tt) (mret tt) ;;
     mret {| statusCode := 500;
             body := JsonMessage "เกิดข้อผิดพลาดในการบันทึกออเดอร์" |}) w.
Proof.
  intros Hc Hne. rewrite createOrder_alone, Hc.
  destruct (normalizeItems (and_prop reqBody "items")) as [| it its]; [done |].
  reflexivity.
Qed.

(** A failure of the order insert, of an item insert or of the commit
    ([k] is the index of the failing call, BEGIN being call 0) leaves the
    transaction open on an unchanged committed state. *)
Lemma order_transaction_fault {A} (cn tn nt : string) (tot : num) (its : list Item)
    (K : Z -> M A) (w : World) (k : nat) (rest : list bool) :
  pending (db w) = None ->
  db_faults w = replicate k false ++ true :: rest ->
  (1 <= k <= length its + 2)%nat ->
  ∃ t, order_transaction cn tn nt tot its K w
       = (Throw, set_db {| committed := committed (db w); pending := Some t |}
                        (set_db_faults rest w)).
Proof.
  intros Hp Hf Hk. unfold order_transaction.
  destruct k as [| k]; [lia |].
  unfold mbind at 1, M_bind.
  rewrite run_no_fault by (rewrite Hf; simpl; congruence).
  cbn [exec_stmt]. rewrite Hp, Hf. cbn [replicate app tail].
  set (w1 := set_db _ _).
  assert (db_faults w1 = replicate k false ++ true :: rest) as Hf1 by reflexivity.
  destruct k as [| k].
  - unfold mbind at 1, M_bind. rewrite run_fault by (by rewrite Hf1).
    rewrite Hf1. eexists. reflexivity.
  - unfold mbind at 1, M_bind.
    rewrite run_no_fault by (rewrite Hf1; simpl; congruence).
    cbn [exec_stmt]. rewrite Hf1. cbn [replicate app tail].
    set (w2 := set_db _ _).
    set (t2 := insert_order (clock w) cn tn nt tot (committed (db w))).
    assert (db w2 = {| committed := committed (db w); pending := Some t2 |}) as Hd2
      by reflexivity.
    assert (db_faults w2 = replicate k false ++ true :: rest) as Hf2 by reflexivity.
    cbv zeta.
    destruct (decide (k < length its)%nat) as [Hlt | Hge].
    + unfold mbind at 1, M_bind.
      erewrite (insert_items_fault _ its k w2 t2 rest Hlt);
        [| by rewrite Hd2 | apply insert_order_has_id | done].
      eexists. reflexivity.
    + assert (k = length its) as -> by lia.
      unfold mbind at 1, M_bind.
      erewrite (insert_items_ok _ its w2 t2 (true :: rest));
        [| by rewrite Hd2 | apply insert_order_has_id | done].
      unfold mbind at 1, M_bind. rewrite run_fault by reflexivity.
      eexists. reflexivity.
Qed.

Lemma rollback_handler (w : World) (t : Tables) (resp : Response) :
  pending (db w) = Some t ->
  (try_catch (run ROLLBACK ;; mret tt) (mret tt) ;; mret resp) w
  = (Ok resp,
     set_db (if bool_decide (head (db_faults w) = Some true) then db w
             else {| committed := committed (db w); pending := None |})
            (set_db_faults (tail (db_faults w)) w)).
Proof.
  intros Hp. unfold mbind at 1, M_bind. unfold try_catch.
  unfold mbind at 1, M_bind.
  case_bool_decide as Hf.
  - rewrite run_fault by done. unfold mret, M_ret. reflexivity.
  - rewrite run_no_fault by done. cbn [exec_stmt]. rewrite Hp.
    unfold mret, M_ret. reflexivity.
Qed.

(** A request that runs alone on the connection: when the order insert,
    an item insert or the commit fails, the handler answers 500,
    broadcasts nothing and leaves the committed tables as they were; and
    when the ROLLBACK statement itself succeeds, the database is exactly
    what it was before the request. *)
Lemma createOrder_alone_rolls_back (reqBody : value) (w : World)
    (k : nat) (rest : list bool) :
  createOrder_throws reqBody = false ->
  normalizeItems (and_prop reqBody "items") ≠ [] ->
  pending (db w) = None ->
  db_faults w = replicate k false ++ true :: rest ->
  (1 <= k <= length (normalizeItems (and_prop reqBody "items")) + 2)%nat ->
  (createOrder reqBody w).1 = Ok response_500 ∧
  trace (createOrder reqBody w).2 = trace w ∧
  committed (db (createOrder reqBody w).2) = committed (db w) ∧
  (head rest ≠ Some true ->
   createOrder reqBody w = (Ok response_500, set_db_faults (tail rest) w)).
Proof.
  intros Hc Hne Hp Hf Hk.
  assert (∃ t, createOrder reqBody w
               = (Ok response_500,
                  set_db (if bool_decide (head rest = Some true)
                          then {| committed := committed (db w); pending := Some t |}
                          else {| committed := committed (db w); pending := None |})
                         (set_db_faults (tail rest) w))) as [t E].
  { rewrite (createOrder_unfold _ _ Hc Hne). cbv zeta. unfold try_catch at 1.
    edestruct (order_transaction_fault (A := Response)) as [t ->];
      [exact Hp | exact Hf | exact Hk |].
    exists t. erewrite rollback_handler by reflexivity. reflexivity. }
  rewrite E. cbn [fst snd]. split; [done |]. split; [done |]. split.
  - cbn [db set_db]. by case_bool_decide.
  - intros Hr. rewrite bool_decide_eq_false_2 by done.
    f_equal. world_eq.
    destruct (db w) as [c p]. simpl in Hp. by subst p.
Qed.

(** The transaction, when no call from BEGIN to COMMIT fails. *)
Lemma order_transaction_ok {A} (cn tn nt : string) (tot : num) (its : list Item)
    (K : Z -> M A) (w : World) (rest : list bool) :
  pending (db w) = None ->
  db_faults w = replicate (length its + 3) false ++ rest ->
  order_transaction cn tn nt tot its K w
  = K (seq_orders (committed (db w)) + 1)%Z
      (set_db {| committed :=
                   insert_rows (seq_orders (committed (db w)) + 1) its
                     (insert_order (clock w) cn tn nt tot (committed (db w)));
                 pending := None |}
              (set_db_faults rest w)).
Proof.
  intros Hp Hf. unfold order_transaction.
  replace (length its + 3)%nat with (S (S (length its + 1))) in Hf by lia.
  unfold mbind at 1, M_bind.
  rewrite run_no_fault by (rewrite Hf; simpl; congruence).
  cbn [exec_stmt]. rewrite Hp, Hf. cbn [replicate app tail].
  set (w1 := set_db _ _).
  assert (db_faults w1 = false :: replicate (length its + 1) false ++ rest) as Hf1
    by reflexivity.
  unfold mbind at 1, M_bind.
  rewrite run_no_fault by (rewrite Hf1; simpl; congruence).
  cbn [exec_stmt]. rewrite Hf1. cbn [replicate app tail].
  set (w2 := set_db _ _).
  set (t2 := insert_order (clock w) cn tn nt tot (committed (db w))).
  assert (db w2 = {| committed := committed (db w); pending := Some t2 |}) as Hd2
    by reflexivity.
  assert (db_faults w2 = replicate (length its) false ++ false :: rest) as Hf2.
  { change (db_faults w2) with (replicate (length its + 1) false ++ rest).
    by rewrite replicate_add, <- app_assoc. }
  cbv zeta. unfold mbind at 1, M_bind.
  erewrite (insert_items_ok _ its w2 t2 (false :: rest));
    [| by rewrite Hd2 | apply insert_order_has_id | done].
  unfold mbind at 1, M_bind.
  rewrite run_no_fault by (simpl; congruence).
  reflexivity.
Qed.

(** When every call up to the commit succeeds and the re-read fails, the
    handler answers 500 with the order and its items committed. *)
Lemma createOrder_reread_fault (reqBody : value) (w : World) (rest : list bool) :
  let its := normalizeItems (and_prop reqBody "items") in
  let cn := let s := sanitizeText (and_prop reqBody "customerName") 80 in
            if String.eqb s "" then "ลูกค้า" else s in
  let oid := (seq_orders (committed (db w)) + 1)%Z in
  createOrder_throws reqBody = false ->
  its ≠ [] ->
  pending (db w) = None ->
  db_faults w = replicate (length its + 3) false ++ true :: rest ->
  createOrder reqBody w
  = (Ok response_500,
     set_db {| committed :=
                 insert_rows oid its
                   (insert_order (clock w) cn
                      (sanitizeText (and_prop reqBody "tableNo") 60)
                      (sanitizeText (and_prop reqBody "note") 300)
                      (order_total its) (committed (db w)));
               pending := None |}
            (set_db_faults (tail rest) w)).
Proof.
  intros its cn oid Hc Hne Hp Hf.
  rewrite (createOrder_unfold _ _ Hc Hne). cbv zeta. unfold try_catch at 1.
  rewrite (order_transaction_ok _ _ _ _ _ _ w (true :: rest) Hp Hf).
  unfold getOrderById. unfold mbind at 1, M_bind. unfold mbind at 1, M_bind.
  rewrite get_order_fault by reflexivity.
  unfold mbind at 1, M_bind. unfold try_catch. unfold mbind at 1, M_bind.
  cbn [db_faults set_db set_db_faults tail].
  destruct (decide (head rest = Some true)) as [Hr | Hr].
  - rewrite run_fault by exact Hr. reflexivity.
  - rewrite run_no_fault by exact Hr. reflexivity.
Qed.

(** *** Requests in flight *)

Lemma settle_run_task {A} (t : Task A) (w : World) :
  run_task (settle t w).1 (settle t w).2 = run_task t w.
Proof.
  revert w. induction t as [o | X m k IH | X call k IH]; intros w; try reflexivity.
  cbn [settle run_task]. destruct (m w) as [o w']. apply IH.
Qed.

(** A request that is resumed again and again, with no call of another
    request in between, ends as its handler does when run alone, and the
    other requests are where they were. *)
Lemma resume_alone (t : Task Response) (i : nat) (p : list (Task Response))
    (w : World) :
  (i < length p)%nat ->
  ∃ n, run_events (replicate n (Resume i))
         (<[i := (settle t w).1]> p, (settle t w).2)
       = (<[i := Return (run_task t w).1]> p, (run_task t w).2).
Proof.
  intros Hi. revert p w Hi.
  induction t as [o | X m k IH | X call k IH]; intros p w Hi.
  - exists 0%nat. reflexivity.
  - cbn [settle run_task]. destruct (m w) as [o w']. by apply IH.
  - cbn [settle run_task fst snd].
    destruct (call w) as [o w1] eqn:Ec.
    destruct (IH o (<[i := Await call k]> p) w1) as [n Hn];
      [by rewrite length_insert |].
    exists (S n). cbn [replicate run_events fold_left pool_step fst snd].
    rewrite list_lookup_insert_eq by exact Hi. rewrite Ec.
    destruct (settle (k o) w1) as [t' w2] eqn:Es.
    fold (run_events (replicate n (Resume i)) (<[i:=t']> (<[i:=Await call k]> p), w2)).
    cbn [fst snd] in Hn. rewrite Hn.
    by rewrite list_insert_insert_eq.
Qed.

(** A request that arrives and is served before any other call is
    executed: the pool gains its answer, and the world is what
    [createOrder] makes of it. *)
Lemma served_alone (reqBody : value) (p : list (Task Response)) (w : World) :
  ∃ n, run_events (Arrive reqBody :: replicate n (Resume (length p))) (p, w)
       = (p ++ [Return (createOrder reqBody w).1], (createOrder reqBody w).2).
Proof.
  destruct (resume_alone (createOrder_task reqBody) (length p)
              (p ++ [Return Throw]) w) as [n Hn].
  { rewrite length_app. simpl. lia. }
  exists n. cbn [run_events fold_left pool_step fst snd].
  destruct (settle (createOrder_task reqBody) w) as [t0 w0] eqn:Es.
  fold (run_events (replicate n (Resume (length p))) (p ++ [t0], w0)).
  cbn [fst snd] in Hn.
  rewrite !insert_app_r_alt, Nat.sub_diag in Hn by lia.
  exact Hn.
Qed.

(** C1: two requests in flight, on a store that is empty and that reports
    no fault of its own.  Request 0, with two items, begins its
    transaction.  The BEGIN of request 1 fails, a transaction being open
    on the connection, and the ROLLBACK in the handler of request 1 ends
    the transaction of request 0; request 1 is answered 500.  The order
    insert and the two item inserts of request 0 are then committed one
    by one.  Its COMMIT fails, no transaction being open, and so does the
    ROLLBACK of its handler: request 0 is answered 500, nothing was
    broadcast, and its order is in the committed tables with both items,
    where every later read finds it. *)
Theorem createOrder_interleaved_failure_persists :
  let st3 := run_events (take 3 interleaved_events) ([], empty_world) in
  let st5 := run_events (take 5 interleaved_events) ([], empty_world) in
  let st8 := run_events (take 8 interleaved_events) ([], empty_world) in
  let st := run_events interleaved_events ([], empty_world) in
  (pending (db st3.2) = Some (committed (db empty_world)) ∧
   in_flight 0 st3.1 = true ∧ in_flight 1 st3.1 = true) ∧
  (answer 1 st5.1 = Some response_500 ∧ in_flight 0 st5.1 = true ∧
   db st5.2 = db empty_world) ∧
  (in_flight 0 st8.1 = true ∧
   db st8.2 = {| committed := tables_with_order body_two_items empty_world;
                 pending := None |}) ∧
  (answer 0 st.1 = Some response_500 ∧ db st.2 = db st8.2 ∧ trace st.2 = [] ∧
   db_faults empty_world = [] ∧
   ∃ order, read_order 1 (db st.2) = Some order ∧ customerName order = "Nid" ∧
            map iv_name (items order) = ["Pad Thai"; "Tea"]).
Proof.
  vm_compute. repeat split; try reflexivity. eexists. repeat split; reflexivity.
Qed.

(** The same with the calls executed in the order in which the handlers
    issue them, and three requests: request 0 is answered 201 for an order
    that no read returns, and its event carries no order; request 2 is
    answered 500 with its order committed. *)
Lemma createOrder_queued_failure_persists :
  let st := run_events queued_events ([], empty_world) in
  answer 0 st.1 = Some {| statusCode := 201;
                          body := JsonCreated "สร้างออเดอร์สำเร็จ" 1 (num_of_Z 20) |} ∧
  answer 1 st.1 = Some response_500 ∧
  answer 2 st.1 = Some response_500 ∧
  broadcasts (trace st.2) = [("order", POrder "order_created" None)] ∧
  db st.2 = {| committed := tables_with_order body_two_items empty_world;
               pending := None |}.
Proof. vm_compute. repeat split; reflexivity. Qed.

(** *** Successful mutations *)

Lemma bind_inv {A B} (m : M A) (f : A -> M B) (w w' : World) (b : B) :
  (m ≫= f) w = (Ok b, w') -> ∃ a w1, m w = (Ok a, w1) ∧ f a w1 = (Ok b, w').
Proof.
  unfold mbind, M_bind. destruct (m w) as [[a |] w1]; [eauto | discriminate].
Qed.

Lemma run_inv (s : Stmt) (w w' : World) (r : RunResult) :
  run s w = (Ok r, w') ->
  exec_stmt (clock w) s (db w) = Some (r, db w') ∧ storage_only w w'.
Proof.
  intros E. split; [| eapply run_storage, E].
  unfold run, next_db_fault in E. unfold mbind, M_bind in E.
  destruct (default false (head (db_faults w))); [discriminate |].
  cbn [clock db set_db_faults] in E.
  destruct (exec_stmt (clock w) s (db w)) as [[r0 d] |]; [| discriminate].
  by injection E as -> <-.
Qed.




Lemma view_write_tables (f : Tables -> Tables) (d : DB) :
  view (write_tables f d) = f (view d).
Proof. unfold view, write_tables. by destruct (pending d). Qed.

#[global] Instance keeps_orders_preorder : PreOrder keeps_orders.
Proof.
  split.
  - intros w. split; [reflexivity | auto].
  - intros w1 w2 w3 [S1 H1] [S2 H2]. split; [by etrans | auto].
Qed.

(** A storage call that fails changes nothing in the database. *)
Lemma run_throw_db (s : Stmt) (w w' : World) :
  run s w = (Throw, w') -> db w' = db w.
Proof.
  unfold run, next_db_fault. unfold mbind, M_bind.
  destruct (default false (head (db_faults w))).
  - intros E. by injection E as <-.
  - cbn [clock db set_db_faults].
    destruct (exec_stmt (clock w) s (db w)) as [[r d] |]; [discriminate |].
    intros E. by injection E as <-.
Qed.

Lemma insert_item_keeps_orders (oid : Z) (n : string) (p q : num) (im : string) :
  respects keeps_orders (run (INSERT_item oid n p q im) ;; mret tt).
Proof.
  intros w r w' E. split.
  { eapply (respects_bind storage_only); [apply run_storage | | exact E].
    intros ?. apply respects_ret, _. }
  unfold mbind, M_bind in E.
  destruct (run (INSERT_item oid n p q im) w) as [[a |] w1] eqn:E1.
  - injection E as _ <-. apply run_inv in E1 as [Ex _].
    cbn [exec_stmt] in Ex. case_bool_decide; [| discriminate].
    injection Ex as _ Hd.
    intros o (row & Hin & Hid). exists row. split; [| done].
    rewrite <- Hd, view_write_tables. exact Hin.
  - injection E as _ <-. apply run_throw_db in E1.
    intros o. unfold has_order. by rewrite E1.
Qed.



#[global] Instance id_le_total : Total id_le.
Proof. intros a b. unfold id_le. lia. Qed.

#[global] Instance id_le_trans : Transitive id_le.
Proof. intros a b c. unfold id_le. lia. Qed.


Lemma for_each_broadcast_quiet (event : string) (payload : Payload) (l : list Client) :
  ∀ w, ∃ w' new,
    for_each (broadcast_client event payload) l w = (Ok tt, w') ∧
    hub_pass w w' new ∧ broadcasts new = [].
Proof.
  induction l as [| x l IH]; intros w.
  - exists w, []. split; [reflexivity |]. split; [apply hub_pass_refl | done].
  - destruct (broadcast_client_pass event payload x w) as (w1 & n1 & E1 & P1 & IO1 & _).
    destruct (IH w1) as (w2 & n2 & E2 & P2 & Q2).
    exists w2, (n1 ++ n2). split.
    { simpl. unfold mbind, M_bind. by rewrite E1. }
    split; [eapply hub_pass_trans; eauto |].
    by rewrite broadcasts_app, (own_io_broadcasts _ _ IO1), Q2.
Qed.

(** One call of [broadcast]: it does not throw, leaves the database alone and
    is recorded once. *)
Lemma broadcast_once (event : string) (payload : Payload) (w w' : World)
    (r : Outcome unit) :
  broadcast event payload w = (r, w') ->
  r = Ok tt ∧ db w' = db w ∧
  broadcasts (trace w') = broadcasts (trace w) ++ [(event, payload)].
Proof.
  unfold broadcast. intros E.
  destruct (for_each_broadcast_quiet event payload (sseClients w)
              (emit (Broadcast event payload) w)) as (w1 & new & E1 & P & Q).
  rewrite E1 in E. injection E as <- <-.
  split; [done |]. destruct P as [(m & ls & fs & ->) _]. split; [reflexivity |].
  cbn [trace set_sessions set_sseClients set_net_faults emits emit].
  rewrite !broadcasts_app, Q. simpl. by rewrite app_nil_r.
Qed.

Lemma try_catch_inv {A} (m h : M A) (w w' : World) (r : Outcome A) :
  try_catch m h w = (r, w') ->
  (∃ a, m w = (Ok a, w') ∧ r = Ok a) ∨ (∃ w1, m w = (Throw, w1) ∧ h w1 = (r, w')).
Proof.
  unfold try_catch. destruct (m w) as [[a |] w1].
  - intros E. injection E as <- <-. left. eauto.
  - intros E. right. eauto.
Qed.

Lemma storage_only_trace (w w' : World) : storage_only w w' -> trace w' = trace w.
Proof. by intros (d & fs & ->). Qed.

Lemma insert_items_keeps_orders (oid : Z) (its : list Item) :
  respects keeps_orders
    (for_each (fun it =>
                 run (INSERT_item oid (name it) (price it) (qty it) (image it)) ;;
                 mret tt) its).
Proof.
  apply respects_for_each; [apply _ |]. intros it. apply insert_item_keeps_orders.
Qed.







(** *** Well-formed tables along every execution *)

#[global] Instance db_ok_preorder : PreOrder db_ok.
Proof.
  split.
  - intros w H. exact H.
  - intros w1 w2 w3 H12 H23 H. exact (H23 (H12 H)).
Qed.

Lemma insert_order_wf (now : Z) (cn tn nt : string) (tot : num) (t : Tables) :
  tables_wf t -> tables_wf (insert_order now cn tn nt tot t).
Proof.
  intros [Ho Hi]. split; cbn [orders order_items seq_orders seq_order_items insert_order].
  - intros o [Hin | Hin]%elem_of_app.
    + specialize (Ho o Hin). lia.
    + apply list_elem_of_singleton in Hin as ->. simpl. lia.
  - intros r Hin. destruct (Hi r Hin). lia.
Qed.

Lemma insert_item_wf (oid : Z) (n : string) (p q : num) (im : string) (t : Tables) :
  tables_wf t -> oid ∈ map o_id (orders t) -> tables_wf (insert_item oid n p q im t).
Proof.
  intros [Ho Hi] Hoid. split;
    cbn [orders order_items seq_orders seq_order_items insert_item]; [exact Ho |].
  intros r [Hin | Hin]%elem_of_app.
  - destruct (Hi r Hin). lia.
  - apply list_elem_of_singleton in Hin as ->. simpl.
    apply list_elem_of_fmap in Hoid as (o & -> & Hin). specialize (Ho o Hin). lia.
Qed.

Lemma set_status_id (now : Z) (st : string) (oid : Z) (r : OrderRow) :
  o_id (set_status now st oid r) = o_id r.
Proof. unfold set_status. by destruct (o_id r =? oid)%Z. Qed.

Lemma update_status_wf (now : Z) (st : string) (oid : Z) (t : Tables) :
  tables_wf t -> tables_wf (update_status now st oid t).
Proof.
  intros [Ho Hi]. split;
    cbn [orders order_items seq_orders seq_order_items update_status]; [| exact Hi].
  intros o Hin. apply list_elem_of_fmap in Hin as (r & -> & Hr).
  rewrite set_status_id. by apply Ho.
Qed.

Lemma view_wf (d : DB) : db_wf d -> tables_wf (view d).
Proof. intros [Hc Hp]. unfold view. destruct (pending d); simpl; auto. Qed.

Lemma write_tables_wf (f : Tables -> Tables) (d : DB) :
  db_wf d -> tables_wf (f (view d)) -> db_wf (write_tables f d).
Proof.
  intros [Hc Hp] Hf. unfold write_tables, view in *.
  destruct (pending d) as [t |]; split; simpl in *; try done.
  - intros t' E. by injection E as <-.
Qed.

Lemma exec_stmt_wf (now : Z) (s : Stmt) (d d' : DB) (r : RunResult) :
  db_wf d -> exec_stmt now s d = Some (r, d') -> db_wf d'.
Proof.
  intros Hwf E. pose proof Hwf as [Hc Hp].
  destruct s; cbn [exec_stmt] in E.
  - destruct (pending d); [discriminate |]. injection E as _ <-.
    split; [done |]. intros t Et. by injection Et as <-.
  - destruct (pending d) as [t |]; [| discriminate]. injection E as _ <-.
    split; [by apply Hp | done].
  - destruct (pending d) as [t |]; [| discriminate]. injection E as _ <-.
    split; [done | done].
  - injection E as _ <-. apply write_tables_wf; [done |].
    by apply insert_order_wf, view_wf.
  - case_bool_decide as Hfk; [| discriminate]. injection E as _ <-.
    apply write_tables_wf; [done |]. apply insert_item_wf; [by apply view_wf | done].
  - injection E as _ <-. apply write_tables_wf; [done |].
    by apply update_status_wf, view_wf.
Qed.

Lemma run_db_ok (s : Stmt) : respects db_ok (run s).
Proof.
  intros w [r |] w' E Hwf.
  - apply run_inv in E as [Ex _]. eapply exec_stmt_wf; eauto.
  - apply run_throw_db in E. by rewrite E.
Qed.

Lemma same_db_ok (w w' : World) : db w' = db w -> db_ok w w'.
Proof. intros E H. by rewrite E. Qed.

Lemma getOrderById_db_ok (oid : Z) : respects db_ok (getOrderById oid).
Proof.
  assert (respects db_ok next_db_fault) as Hf.
  { intros w r w' E. injection E as _ <-. by apply same_db_ok. }
  unfold getOrderById, get_order, all_items.
  apply respects_bind; [apply _ | |].
  - apply respects_bind; [apply _ | exact Hf |]. intros [].
    + apply respects_throw, _.
    + intros w r w' E. injection E as _ <-. reflexivity.
  - intros [row |]; [| apply respects_ret, _].
    apply respects_bind; [apply _ | | intros; apply respects_ret, _].
    apply respects_bind; [apply _ | exact Hf |]. intros [].
    + apply respects_throw, _.
    + intros w r w' E. injection E as _ <-. reflexivity.
Qed.

Lemma hub_pass_db (w w' : World) (new : list Action) :
  hub_pass w w' new -> db w' = db w.
Proof. by intros [(m & ls & fs & ->) _]. Qed.

Lemma getSession_db_ok (tok : string) : respects db_ok (getSession tok).
Proof.
  intros w r w' E.
  destruct (getSession_pass tok w) as (r0 & w0 & E0 & P & _).
  rewrite E0 in E. injection E as _ <-. eapply same_db_ok, hub_pass_db, P.
Qed.

Lemma broadcast_db_ok (event : string) (payload : Payload) :
  respects db_ok (broadcast event payload).
Proof.
  intros w r w' E. apply broadcast_once in E as (_ & Hd & _). by apply same_db_ok.
Qed.

Lemma stream_db_ok (query : value) : respects db_ok (stream query).
Proof.
  unfold stream.
  apply respects_bind; [apply _ | apply getSession_db_ok |].
  intros [s |]; [| apply respects_ret, _].
  intros w r w' E.
  destruct (stream_accept (sanitizeText (and_prop query "token") 200) w)
    as (r1 & fs & new & _ & _ & E').
  pose proof (eq_trans (eq_sym E') E) as E2.
  apply same_db_ok. by destruct r1 as [[] |]; injection E2 as _ <-.
Qed.

Lemma step_db_ok (w w' : World) : step w w' -> db_ok w w'.
Proof.
  intros [reqBody w0 | authorization paramId reqBody w0 | query w0 | c w0 | w0
          | admin tok w0 | authorization w0 | w0 w1 Henv].
  - eapply createOrder_respects;
      eauto using run_db_ok, getOrderById_db_ok, getSession_db_ok, broadcast_db_ok,
        surjective_pairing.
    apply _.
  - eapply updateStatus_respects;
      eauto using run_db_ok, getOrderById_db_ok, getSession_db_ok, broadcast_db_ok,
        surjective_pairing.
    apply _.
  - eapply stream_db_ok, surjective_pairing.
  - apply same_db_ok. unfold closed. by destruct (bool_decide _).
  - unfold interval.
    eapply (respects_bind db_ok); [| | apply surjective_pairing].
    + intros wa ra wb E. injection E as _ <-. reflexivity.
    + intros now. apply respects_bind; [apply _ | | intros; apply broadcast_db_ok].
      intros wa ra wb E. injection E as _ <-. by apply same_db_ok.
  - by apply same_db_ok.
  - eapply authMiddleware_respects; eauto using getSession_db_ok, surjective_pairing.
    apply _.
  - destruct Henv as (Hd & _). by apply same_db_ok.
Qed.

(** Every world the server reaches from the empty one has well-formed
    tables and a well-formed live set. *)
Lemma reachable_wf (w : World) :
  rtc step empty_world w -> hub_wf w ∧ db_wf (db w).
Proof.
  intros Hsteps.
  assert (hub_wf empty_world) as Hh.
  { split; [constructor |]. intros c Hc. inversion Hc. }
  assert (db_wf (db empty_world)) as Hd.
  { split; [| discriminate]. split; intros x Hx; inversion Hx. }
  split.
  - by destruct (steps_hub_ok _ _ Hsteps Hh).
  - clear Hh. induction Hsteps as [w | w1 w2 w3 H12 _ IH]; [done |].
    apply IH. by apply (step_db_ok _ _ H12).
Qed.

(** *** The order that a successful [createOrder] broadcasts *)

Lemma insert_rows_spec (oid : Z) (its : list Item) :
  ∀ t, insert_rows oid its t
       = {| orders := orders t;
            order_items := order_items t ++ rows_from oid (seq_order_items t) its;
            seq_orders := seq_orders t;
            seq_order_items := seq_order_items t + Z.of_nat (length its) |}.
Proof.
  unfold insert_rows. induction its as [| it its IH]; intros t.
  - destruct t; simpl. f_equal; [by rewrite app_nil_r | lia].
  - cbn [fold_left]. rewrite IH.
    cbn [orders order_items seq_orders seq_order_items insert_item rows_from length].
    f_equal; [by rewrite <- app_assoc | lia].
Qed.

Lemma rows_from_elem (oid s : Z) (its : list Item) (r : ItemRow) :
  r ∈ rows_from oid s its -> i_order_id r = oid ∧ (s < i_id r)%Z.
Proof.
  revert s. induction its as [| it its IH]; intros s Hr; [inversion Hr |].
  cbn [rows_from] in Hr. apply elem_of_cons in Hr as [-> | Hr].
  - simpl. split; [done | lia].
  - destruct (IH _ Hr). split; [done | lia].
Qed.

Lemma rows_from_sorted (oid s : Z) (its : list Item) :
  StronglySorted id_le (rows_from oid s its) ∧
  ∀ a b, a ∈ rows_from oid s its -> b ∈ rows_from oid s its ->
         i_id a = i_id b -> a = b.
Proof.
  revert s. induction its as [| it its IH]; intros s.
  - split; [constructor |]. intros a b Ha. inversion Ha.
  - destruct (IH (s + 1)%Z) as [Hs Hd]. cbn [rows_from]. split.
    + constructor; [exact Hs |]. apply Forall_forall. intros r Hr.
      apply rows_from_elem in Hr as [_ Hr]. unfold id_le. simpl. lia.
    + intros a b [-> | Ha]%elem_of_cons [-> | Hb]%elem_of_cons E; auto.
      * apply rows_from_elem in Hb as [_ Hb]. simpl in E. lia.
      * apply rows_from_elem in Ha as [_ Ha]. simpl in E. lia.
Qed.

Lemma merge_sort_rows_from (oid s : Z) (its : list Item) :
  merge_sort id_le (rows_from oid s its) = rows_from oid s its.
Proof.
  destruct (rows_from_sorted oid s its) as [Hs Hd].
  apply (StronglySorted_unique_strong id_le).
  - intros x1 x2 H1 H2 H12 H21. apply Hd; [| done |].
    + by rewrite <- (merge_sort_Permutation id_le).
    + unfold id_le in *. lia.
  - apply StronglySorted_merge_sort; apply _.
  - exact Hs.
  - apply merge_sort_Permutation.
Qed.

Lemma filter_none {A} (P : A -> Prop) {Hdec : ∀ x, Decision (P x)} (l : list A) :
  (∀ x, x ∈ l -> ¬ P x) -> filter P l = [].
Proof.
  induction l as [| x l IH]; intros H; [done |].
  rewrite filter_cons_False by (apply H; by left).
  apply IH. intros y Hy. apply H. by right.
Qed.

Lemma filter_all {A} (P : A -> Prop) {Hdec : ∀ x, Decision (P x)} (l : list A) :
  (∀ x, x ∈ l -> P x) -> filter P l = l.
Proof.
  induction l as [| x l IH]; intros H; [done |].
  rewrite filter_cons_True by (apply H; by left).
  f_equal. apply IH. intros y Hy. apply H. by right.
Qed.

(** Reading back a freshly committed order on well-formed tables. *)
Lemma read_created_order (now : Z) (cn tn nt : string) (tot : num) (its : list Item)
    (t : Tables) :
  tables_wf t ->
  read_order (seq_orders t + 1)
    {| committed := insert_rows (seq_orders t + 1) its (insert_order now cn tn nt tot t);
       pending := None |}
  = Some (created_order now cn tn nt tot its t).
Proof.
  intros [Ho Hi]. rewrite insert_rows_spec.
  unfold read_order, select_order, select_items, matching_orders, view.
  cbn [pending committed default orders order_items seq_orders seq_order_items
       insert_order].
  rewrite !filter_app.
  rewrite (filter_none (fun r => o_id r = (seq_orders t + 1)%Z) (orders t)).
  2:{ intros o Hin. specialize (Ho o Hin). lia. }
  rewrite (filter_none (fun r => i_order_id r = (seq_orders t + 1)%Z) (order_items t)).
  2:{ intros r Hin. destruct (Hi r Hin). lia. }
  rewrite (filter_all (fun r => o_id r = (seq_orders t + 1)%Z) [_]).
  2:{ intros o Hin. by apply list_elem_of_singleton in Hin as ->. }
  rewrite (filter_all (fun r => i_order_id r = (seq_orders t + 1)%Z)).
  2:{ intros r Hin. by apply rows_from_elem in Hin as [? _]. }
  cbn [app head]. rewrite merge_sort_rows_from. reflexivity.
Qed.

Lemma storage_only_clock (w w' : World) : storage_only w w' -> clock w' = clock w.
Proof. by intros (d & fs & ->). Qed.

Lemma insert_items_inv (oid : Z) (its : list Item) :
  ∀ (w w' : World) (t : Tables),
    for_each (fun it =>
                run (INSERT_item oid (name it) (price it) (qty it) (image it)) ;;
                mret tt) its w = (Ok tt, w') ->
    pending (db w) = Some t ->
    db w' = {| committed := committed (db w);
               pending := Some (insert_rows oid its t) |}.
Proof.
  induction its as [| it its IH]; intros w w' t E Hp.
  - injection E as <-. destruct (db w) as [c p]. simpl in *. by subst p.
  - cbn [for_each] in E. apply bind_inv in E as ([] & w1 & E1 & E).
    apply bind_inv in E1 as (r & w2 & E1 & E2). injection E2 as <-.
    apply run_inv in E1 as [Ex _]. cbn [exec_stmt] in Ex.
    case_bool_decide; [| discriminate]. injection Ex as _ Hd.
    assert (db w2 = {| committed := committed (db w);
                       pending := Some (insert_item oid (name it) (price it)
                                          (qty it) (image it) t) |}) as Hd2.
    { rewrite <- Hd. unfold write_tables. by rewrite Hp. }
    rewrite (IH w2 w' (insert_item oid (name it) (price it) (qty it) (image it) t) E);
      [| by rewrite Hd2].
    by rewrite Hd2.
Qed.





(** ** Further properties *)

(** *** Fan-out *)

Lemma received_writes (n m : nat) (chunks : list Chunk) :
  received n (writes m chunks) = if Nat.eqb m n then chunks else [].
Proof.
  unfold writes. induction chunks as [| ch chunks IH]; simpl.
  - by destruct (Nat.eqb m n).
  - rewrite IH. by destruct (Nat.eqb m n).
Qed.

Lemma ended_writes (n m : nat) (chunks : list Chunk) :
  ended n (writes m chunks) = O.
Proof. unfold writes. induction chunks as [| ch chunks IH]; simpl; auto. Qed.

Lemma own_io_writes (n : nat) (chunks : list Chunk) :
  Forall (own_io n) (writes n chunks).
Proof.
  unfold writes. apply Forall_forall. intros a Ha.
  apply list_elem_of_fmap in Ha as (ch & -> & _). left. eauto.
Qed.

(** [res.write] either writes its chunk or throws having written nothing. *)
Lemma res_write_outcome (n : nat) (chunk : Chunk) (w : World) :
  ∃ fs, (res_write n chunk w = (Ok tt, set_net_faults fs (emits [Write n chunk] w)) ∧
         head (net_faults w) ≠ Some true) ∨
        (res_write n chunk w = (Throw, set_net_faults fs (emits [] w)) ∧
         head (net_faults w) = Some true).
Proof.
  unfold res_write. destruct (net_faults w) as [| [] rest] eqn:E.
  - exists (net_faults w). left. split; [| simpl; congruence]. f_equal.
  - exists rest. right. split; [| done]. f_equal. world_eq.
  - exists rest. left. split; [| simpl; congruence]. f_equal.
Qed.

(** [sendSse] writes the chunks of the event in order; when it throws, it
    has written a proper prefix of them. *)
Lemma sendSse_outcome (n : nat) (event : string) (payload : Payload) (w : World) :
  ∃ r fs k,
    sendSse n event payload w
    = (r, set_net_faults fs (emits (writes n (take k (event_chunks event payload))) w)) ∧
    match r with
    | Ok _ => k = length (event_chunks event payload)
    | Throw => (k < length (event_chunks event payload))%nat
    end.
Proof.
  unfold sendSse, event_chunks. unfold mbind, M_bind, mret, M_ret.
  destruct (String.eqb event "").
  - destruct (res_write_outcome n (DataLine payload) w) as (fs & [[-> _] | [-> _]]).
    + exists (Ok tt), fs, 1%nat. by split.
    + exists Throw, fs, 0%nat. split; [reflexivity | simpl; lia].
  - destruct (res_write_outcome n (EventLine event) w) as (fs & [[-> _] | [-> _]]).
    + destruct (res_write_outcome n (DataLine payload)
                  (set_net_faults fs (emits [Write n (EventLine event)] w)))
        as (fs2 & [[-> _] | [-> _]]).
      * exists (Ok tt), fs2, 2%nat. split; [| done]. f_equal. world_eq.
      * exists Throw, fs2, 1%nat. split; [| simpl; lia]. f_equal. world_eq.
    + exists Throw, fs, 0%nat. split; [reflexivity | simpl; lia].
Qed.

#[global] Instance keeps_valid_preorder : PreOrder keeps_valid.
Proof.
  split.
  - intros w. by split.
  - intros w1 w2 w3 [C1 H1] [C2 H2]. split; [congruence |].
    intros tok s Hs Hv. apply H2; [by apply H1 |]. by rewrite C1.
Qed.

Lemma session_valid_kept (tok : string) (w w' : World) :
  keeps_valid w w' -> session_valid tok w -> session_valid tok w'.
Proof.
  intros [Hc Hk] (s & Hs & Hv). exists s. split; [by apply Hk |]. by rewrite Hc.
Qed.

Lemma valid_or_not (tok : string) (w : World) :
  session_valid tok w ∨ no_valid_session tok w.
Proof.
  unfold session_valid, no_valid_session.
  destruct (sessions w !! tok) as [s |]; [| by right].
  destruct (Z.ltb_spec (expiresAt s) (clock w)); [by right | left; eauto].
Qed.

Lemma valid_not_invalid (tok : string) (w : World) :
  session_valid tok w -> no_valid_session tok w -> False.
Proof.
  unfold no_valid_session. intros (s & -> & Hv) Hn. lia.
Qed.

(** What [broadcast] does with one subscriber: either its session is valid,
    the whole event is written to it and it stays; or it is removed from the
    live set and its connection is ended, after at most a proper prefix of
    the event was written. *)
Lemma broadcast_client_outcome (event : string) (payload : Payload) (c : Client)
    (w : World) :
  ∃ w' new,
    broadcast_client event payload c w = (Ok tt, w') ∧
    hub_pass w w' new ∧ keeps_valid w w' ∧ Forall (own_io (cid c)) new ∧
    ((sseClients w' = sseClients w ∧ session_valid (token c) w ∧
      received (cid c) new = event_chunks event payload ∧ ended (cid c) new = O) ∨
     (sseClients w' = set_delete c (sseClients w) ∧ ended (cid c) new = 1%nat ∧
      ∃ k, (k < length (event_chunks event payload))%nat ∧
           received (cid c) new = take k (event_chunks event payload))).
Proof.
  destruct (valid_or_not (token c) w) as [Hv | Hn].
  - pose proof Hv as (s & Hs & Hle).
    unfold broadcast_client. unfold mbind at 1, M_bind.
    rewrite (getSession_valid _ _ _ Hs Hle). unfold try_catch.
    destruct (sendSse_outcome (cid c) event payload w) as (r & fs & k & -> & Hk).
    set (chunks := event_chunks event payload) in *.
    assert (keeps_valid w (set_net_faults fs (emits (writes (cid c) (take k chunks)) w)))
      as Hkv by (by split).
    destruct r as [[] |].
    + eexists _, _. split; [reflexivity |]. split; [| split; [exact Hkv | split]].
      * split; [| auto]. by exists (sessions w), (sseClients w), fs.
      * apply own_io_writes.
      * left. subst k. rewrite firstn_all, received_writes, ended_writes, Nat.eqb_refl.
        done.
    + eexists _, (writes (cid c) (take k chunks) ++ [End (cid c)]).
      split; [reflexivity |]. split; [| split; [| split]].
      * destruct (drop_client_pass c
                    (set_net_faults fs (emits (writes (cid c) (take k chunks)) w)))
          as [Hd _].
        eapply hub_pass_trans; [| exact Hd].
        split; [| auto]. by exists (sessions w), (sseClients w), fs.
      * by split.
      * apply Forall_app. split; [apply own_io_writes |].
        constructor; [by right | constructor].
      * right. split; [reflexivity |].
        rewrite ended_app, received_app, ended_writes, received_writes, Nat.eqb_refl.
        simpl. rewrite Nat.eqb_refl, app_nil_r. split; [done | eauto].
  - destruct (broadcast_client_pass event payload c w) as (w' & new & E & P & IO & D).
    destruct (D Hn) as [-> Hdead].
    exists w', [End (cid c)]. split; [exact E |]. split; [exact P |].
    assert (keeps_valid w w' ∧ sseClients w' = set_delete c (sseClients w)) as [Hkv Hcl].
    { unfold broadcast_client in E. unfold mbind at 1, M_bind in E.
      rewrite getSession_cases in E. unfold no_valid_session in Hn.
      destruct (sessions w !! token c) as [s |] eqn:Es.
      - destruct (Z.ltb_spec (expiresAt s) (clock w)); [| lia].
        injection E as <-. split; [| reflexivity]. split; [reflexivity |].
        intros tok s' Hs' Hv'. cbn [sessions set_sessions emit emits set_sseClients].
        destruct (decide (token c = tok)) as [<- | Hne].
        + rewrite Es in Hs'. injection Hs' as <-. lia.
        + by rewrite lookup_delete_ne.
      - injection E as <-. split; [| reflexivity]. by split. }
    split; [exact Hkv |]. split; [exact IO |]. right. split; [exact Hcl |].
    simpl. rewrite Nat.eqb_refl. split; [done |]. exists 0%nat.
    split; [| done]. unfold event_chunks. rewrite length_app. simpl. lia.
Qed.

Lemma set_delete_elem (x c : Client) (l : list Client) :
  x ∈ set_delete c l <-> x ∈ l ∧ cid x ≠ cid c.
Proof. unfold set_delete. rewrite list_elem_of_filter. tauto. Qed.

Lemma for_each_broadcast_outcome (event : string) (payload : Payload)
    (l : list Client) :
  NoDup (map cid l) ->
  ∀ w, ∃ w' new,
    for_each (broadcast_client event payload) l w = (Ok tt, w') ∧
    hub_pass w w' new ∧ keeps_valid w w' ∧
    (∀ x, cid x ∉ map cid l ->
       (x ∈ sseClients w -> x ∈ sseClients w') ∧
       received (cid x) new = [] ∧ ended (cid x) new = O) ∧
    (∀ c, c ∈ l ->
       ((c ∈ sseClients w -> c ∈ sseClients w') ∧ session_valid (token c) w' ∧
        received (cid c) new = event_chunks event payload ∧ ended (cid c) new = O) ∨
       (¬ live (cid c) w' ∧ ended (cid c) new = 1%nat ∧
        ∃ k, (k < length (event_chunks event payload))%nat ∧
             received (cid c) new = take k (event_chunks event payload))).
Proof.
  induction l as [| x l IH]; intros Hnd w.
  - exists w, []. split; [reflexivity |]. split; [apply hub_pass_refl |].
    split; [reflexivity |]. split; [by intros |]. intros c Hc. inversion Hc.
  - simpl in Hnd. apply NoDup_cons in Hnd as [Hx Hnd].
    destruct (broadcast_client_outcome event payload x w)
      as (w1 & n1 & E1 & P1 & K1 & IO1 & O1).
    destruct (IH Hnd w1) as (w2 & n2 & E2 & P2 & K2 & Oth2 & D2).
    assert (∀ y, cid y ≠ cid x -> y ∈ sseClients w -> y ∈ sseClients w1) as Hkeep.
    { intros y Hne Hy. destruct O1 as [(-> & _) | (-> & _)]; [done |].
      by apply set_delete_elem. }
    exists w2, (n1 ++ n2). split.
    { simpl. unfold mbind, M_bind. by rewrite E1. }
    split; [eapply hub_pass_trans; eauto |]. split; [by etrans |]. split.
    { intros y Hy. simpl in Hy. apply not_elem_of_cons in Hy as [Hyx Hyl].
      destruct (Oth2 y Hyl) as (Hm & Hr & He).
      rewrite received_app, ended_app, Hr, He.
      rewrite (own_io_received _ _ _ IO1), (own_io_ended _ _ _ IO1) by congruence.
      split; [| done]. intros Hy. apply Hm, Hkeep; [congruence | done]. }
    intros c [-> | Hc]%elem_of_cons.
    + destruct (Oth2 x Hx) as (Hm & Hr & He).
      rewrite received_app, ended_app, Hr, He, app_nil_r, Nat.add_0_r.
      destruct O1 as [(Hs & Hv & Hrx & Hex) | (Hs & Hex & Hrx)].
      * left. split; [| split; [| done]].
        -- intros Hin. apply Hm. by rewrite Hs.
        -- eapply session_valid_kept; [| exact Hv]. by etrans.
      * right. split; [| done]. eapply hub_pass_not_live; [exact P2 |].
        unfold live. rewrite Hs, live_set_delete. tauto.
    + assert (cid x ≠ cid c) as Hne.
      { intros E. apply Hx. rewrite E. apply list_elem_of_fmap. eauto. }
      rewrite received_app, ended_app.
      rewrite (own_io_received _ _ _ IO1 Hne), (own_io_ended _ _ _ IO1 Hne).
      destruct (D2 c Hc) as [(Hm & Hv & Hr & He) | Hdrop]; [| by right].
      left. split; [| done]. intros Hin. apply Hm, Hkeep; [congruence | done].
Qed.

(** X1: [broadcast] handles every subscriber of the live set exactly once,
    whatever happens to the others: either it is still live afterwards, its
    session is valid and exactly the chunks of the event were written to it;
    or it is out of the live set, its connection was ended once, and at most
    a proper prefix of the event was written to it. *)
Theorem broadcast_delivers_or_drops (event : string) (payload : Payload)
    (c : Client) (w : World) :
  hub_wf w -> c ∈ sseClients w ->
  ∃ new,
    trace (broadcast event payload w).2 = trace w ++ Broadcast event payload :: new ∧
    ((c ∈ sseClients (broadcast event payload w).2 ∧
      session_valid (token c) (broadcast event payload w).2 ∧
      received (cid c) new = event_chunks event payload ∧ ended (cid c) new = O) ∨
     (¬ live (cid c) (broadcast event payload w).2 ∧ ended (cid c) new = 1%nat ∧
      ∃ k, (k < length (event_chunks event payload))%nat ∧
           received (cid c) new = take k (event_chunks event payload))).
Proof.
  intros [Hnd _] Hc. unfold broadcast.
  destruct (for_each_broadcast_outcome event payload (sseClients w) Hnd
              (emit (Broadcast event payload) w)) as (w' & new & E & P & K & _ & D).
  rewrite E. cbn [snd]. exists new. split.
  - rewrite (hub_pass_trace _ _ _ P). cbn [trace emit emits].
    by rewrite <- app_assoc.
  - destruct (D c Hc) as [(Hm & Hv & Hr & He) | Hdrop]; [left | by right].
    split; [by apply Hm | done].
Qed.

(** X2: after [broadcast], and after the interval callback, every subscriber
    left in the live set was in it before and has a valid session. *)
Theorem broadcast_leaves_valid_subscribers (c : Client) (w w1 : World) :
  hub_wf w ->
  (∃ event payload, w1 = (broadcast event payload w).2) ∨ w1 = (interval w).2 ->
  c ∈ sseClients w1 ->
  c ∈ sseClients w ∧ session_valid (token c) w1.
Proof.
  assert (∀ event payload w0, hub_wf w0 ->
            c ∈ sseClients (broadcast event payload w0).2 ->
            c ∈ sseClients w0 ∧ session_valid (token c) (broadcast event payload w0).2)
    as Hb.
  { intros event payload w0 Hwf Hin.
    assert (c ∈ sseClients w0) as Hc.
    { pose proof Hwf as [Hnd _].
      destruct (broadcast_pass event payload w0 Hnd) as (w' & new & E & P & _).
      rewrite E in Hin. destruct P as (_ & _ & Hsub). eapply elem_of_sublist; eauto. }
    split; [exact Hc |].
    destruct (for_each_broadcast_outcome event payload (sseClients w0) (proj1 Hwf)
                (emit (Broadcast event payload) w0)) as (w' & new & E & _ & _ & _ & D).
    unfold broadcast in *. rewrite E in *. cbn [snd] in *.
    destruct (D c Hc) as [(_ & Hv & _) | (Hdead & _)]; [done |].
    exfalso. apply Hdead. unfold live. apply list_elem_of_fmap. eauto. }
  intros Hwf [(event & payload & ->) | ->] Hin.
  - by apply Hb.
  - destruct (sweep_effect (clock w) w) as (m & Es & _).
    assert (interval w = broadcast "ping" (PPing (clock w)) (set_sessions m w)) as Ei.
    { unfold interval, Date_now. unfold mbind at 1, M_bind.
      unfold mbind at 1, M_bind. by rewrite Es. }
    rewrite Ei in *. by apply (Hb "ping" (PPing (clock w)) (set_sessions m w)).
Qed.

Lemma res_write_clean (n : nat) (chunk : Chunk) (w : World) :
  true ∉ net_faults w ->
  ∃ fs, (true ∉ fs) ∧
        res_write n chunk w = (Ok tt, set_net_faults fs (emits [Write n chunk] w)).
Proof.
  intros Hnf. unfold res_write. destruct (net_faults w) as [| [] rest] eqn:E.
  - exists []. split; [by apply not_elem_of_nil |]. f_equal. world_eq. exact E.
  - exfalso. apply Hnf. by left.
  - exists rest. split; [| reflexivity]. intros H. apply Hnf. by right.
Qed.

Lemma sendSse_clean (n : nat) (event : string) (payload : Payload) (w : World) :
  true ∉ net_faults w ->
  ∃ fs, (true ∉ fs) ∧
        sendSse n event payload w
        = (Ok tt, set_net_faults fs (emits (writes n (event_chunks event payload)) w)).
Proof.
  intros Hnf. unfold sendSse, event_chunks. unfold mbind, M_bind, mret, M_ret.
  destruct (String.eqb event "").
  - apply res_write_clean, Hnf.
  - destruct (res_write_clean n (EventLine event) w Hnf) as (fs & Hfs & ->).
    destruct (res_write_clean n (DataLine payload)
                (set_net_faults fs (emits [Write n (EventLine event)] w)) Hfs)
      as (fs2 & Hfs2 & ->).
    exists fs2. split; [done |]. f_equal. world_eq.
Qed.

Lemma for_each_broadcast_clean (event : string) (payload : Payload) (l : list Client) :
  ∀ w, true ∉ net_faults w ->
       (∀ c, c ∈ l -> session_valid (token c) w) ->
       ∃ fs, (true ∉ fs) ∧
         for_each (broadcast_client event payload) l w
         = (Ok tt,
            set_net_faults fs
              (emits (concat (map (fun c => writes (cid c) (event_chunks event payload))
                                  l)) w)).
Proof.
  induction l as [| x l IH]; intros w Hnf Hv.
  - exists (net_faults w). split; [done |]. cbn [for_each map concat].
    unfold mret, M_ret. f_equal. world_eq.
  - destruct (Hv x) as (s & Hs & Hle); [by left |].
    destruct (sendSse_clean (cid x) event payload w Hnf) as (fs & Hfs & Es).
    destruct (IH (set_net_faults fs
                    (emits (writes (cid x) (event_chunks event payload)) w)) Hfs)
      as (fs2 & Hfs2 & E2).
    { intros c Hc. apply Hv. by right. }
    exists fs2. split; [done |]. cbn [for_each]. unfold mbind at 1, M_bind.
    unfold broadcast_client at 1. unfold mbind at 1, M_bind.
    rewrite (getSession_valid _ _ _ Hs Hle). unfold try_catch. rewrite Es.
    cbv beta iota. rewrite E2. f_equal. world_eq.
Qed.

(** X3: when every subscriber has a valid session and no write fails,
    [broadcast] changes nothing but the trace (and the consumed part of the
    fault script): it records the call and then writes the chunks of the
    event to each subscriber, in the order of the live set. *)
Theorem broadcast_delivers_to_all (event : string) (payload : Payload) (w : World) :
  true ∉ net_faults w ->
  (∀ c, c ∈ sseClients w -> session_valid (token c) w) ->
  ∃ fs, (true ∉ fs) ∧
    broadcast event payload w
    = (Ok tt,
       set_net_faults fs
         (emits (Broadcast event payload
                 :: concat (map (fun c => writes (cid c) (event_chunks event payload))
                                (sseClients w))) w)).
Proof.
  intros Hnf Hv. unfold broadcast.
  destruct (for_each_broadcast_clean event payload (sseClients w)
              (emit (Broadcast event payload) w) Hnf Hv) as (fs & Hfs & ->).
  exists fs. split; [done |]. f_equal. world_eq.
Qed.

(** X4: a streaming request whose token has no valid session is answered
    401 and never registered: the live set, the connection counter, the
    close listeners, the database and the trace are as before, and nothing
    was written. *)
Theorem stream_rejects_invalid_token (query : value) (w : World) :
  no_valid_session (sanitizeText (and_prop query "token") 200) w ->
  (stream query w).1 = Ok {| statusCode := 401; body := Text "Unauthorized" |} ∧
  sseClients (stream query w).2 = sseClients w ∧
  next_cid (stream query w).2 = next_cid w ∧
  on_close (stream query w).2 = on_close w ∧
  db (stream query w).2 = db w ∧
  trace (stream query w).2 = trace w.
Proof.
  intros Hn.
  assert (∃ m, stream query w
               = (Ok {| statusCode := 401; body := Text "Unauthorized" |},
                  set_sessions m w)) as [m ->].
  { unfold stream. unfold mbind at 1, M_bind.
    rewrite getSession_cases. unfold no_valid_session in Hn.
    destruct (sessions w !! sanitizeText (and_prop query "token") 200) as [s |].
    - destruct (Z.ltb_spec (expiresAt s) (clock w)); [| lia]. by eexists.
    - exists (sessions w). unfold mret, M_ret. f_equal. by destruct w. }
  by repeat split.
Qed.

(** X5: once the close listener of a registered subscriber has run, the
    subscriber is out of the live set, and whatever the server does
    afterwards it never re-enters it and nothing more is written to it. *)
Theorem closed_unregisters_for_good (c : Client) (w : World) :
  hub_wf w -> c ∈ sseClients w -> cid c ∈ on_close w ->
  ¬ live (cid c) (closed c w).2 ∧
  trace (closed c w).2 = trace w ∧
  ∀ w2, rtc step (closed c w).2 w2 ->
    ¬ live (cid c) w2 ∧ received (cid c) (trace w2) = received (cid c) (trace w).
Proof.
  intros Hwf Hc Hl.
  destruct (closed_hub_ok c w _ _ (surjective_pairing _) Hwf) as [Hwf1 _].
  assert ((closed c w).2 = set_sseClients (set_delete c (sseClients w)) w) as E.
  { unfold closed. by rewrite bool_decide_eq_true_2. }
  assert (¬ live (cid c) (closed c w).2) as Hdead.
  { rewrite E. unfold live. cbn [sseClients set_sseClients].
    rewrite live_set_delete. tauto. }
  split; [exact Hdead |]. split; [by rewrite E |].
  intros w2 Hsteps.
  destruct (steps_hub_ok _ _ Hsteps Hwf1) as [_ Hext].
  destruct (dropped_stays_dropped (cid c) _ w2 Hwf1 Hext) as [Hd2 Hr2]; [| done |].
  - rewrite E. cbn [next_cid set_sseClients]. by apply (proj2 Hwf).
  - split; [done |]. rewrite Hr2. by rewrite E.
Qed.

(** *** Statuses and references along every execution *)

Section HandlersRespectStmts.

Context (R : World -> World -> Prop) `{!PreOrder R}.
Hypothesis run_R : ∀ s, handler_stmt s -> respects R (run s).
Hypothesis getOrderById_R : ∀ oid, respects R (getOrderById oid).
Hypothesis getSession_R : ∀ tok, respects R (getSession tok).
Hypothesis broadcast_R : ∀ event payload, respects R (broadcast event payload).

Lemma createOrder_respects_stmts (reqBody : value) :
  respects R (createOrder reqBody).
Proof using All.
  apply (respects_ext _ _ _ (createOrder_alone reqBody)).
  destruct (createOrder_throws reqBody); [apply respects_throw, _ |].
  destruct (normalizeItems (and_prop reqBody "items")) as [| it its];
    [apply respects_ret, _ |].
  apply respects_try_catch; [apply _ | |].
  - apply respects_bind; [apply _ | by apply run_R |]. intros _.
    apply respects_bind; [apply _ | by apply run_R |]. intros result.
    apply respects_bind; [apply _ | |].
    { apply respects_for_each; [apply _ |]. intros x.
      apply respects_bind; [apply _ | by apply run_R |]. intros _.
      apply respects_ret, _. }
    intros _. apply respects_bind; [apply _ | by apply run_R |]. intros _.
    apply respects_bind; [apply _ | apply getOrderById_R |]. intros order.
    apply respects_bind; [apply _ | apply broadcast_R |]. intros _.
    apply respects_ret, _.
  - apply respects_bind; [apply _ | |]; [| intros _; apply respects_ret, _].
    apply respects_try_catch; [apply _ | | apply respects_ret, _].
    apply respects_bind; [apply _ | by apply run_R |]. intros _.
    apply respects_ret, _.
Qed.

Lemma updateStatus_respects_stmts (authorization : value) (paramId : string)
    (reqBody : value) :
  respects R (updateStatus authorization paramId reqBody).
Proof using All.
  unfold updateStatus.
  apply respects_bind; [apply _ | by apply authMiddleware_respects |].
  intros [r | s]; [apply respects_ret, _ |].
  destruct (sanitizeText_throws _); [apply respects_throw, _ |].
  destruct (num_integer _) as [oid |]; [| apply respects_ret, _].
  destruct (oid <=? 0)%Z; [apply respects_ret, _ |].
  case_bool_decide as Hst; cbn [negb]; [| apply respects_ret, _].
  apply respects_try_catch; [apply _ | | apply respects_ret, _].
  apply respects_bind; [apply _ | by apply run_R |]. intros result.
  destruct (changes result =? 0)%Z; [apply respects_ret, _ |].
  apply respects_bind; [apply _ | apply getOrderById_R |]. intros order.
  apply respects_bind; [apply _ | apply broadcast_R |]. intros _.
  apply respects_ret, _.
Qed.

End HandlersRespectStmts.

#[global] Instance same_db_preorder : PreOrder same_db.
Proof.
  split; [done |]. intros a b c H1 H2. unfold same_db in *. congruence.
Qed.

Lemma getOrderById_same_db (oid : Z) : respects same_db (getOrderById oid).
Proof.
  assert (respects same_db next_db_fault) as Hf.
  { intros a r b Ef. by injection Ef as _ <-. }
  unfold getOrderById, get_order, all_items.
  apply respects_bind; [apply _ | |].
  - apply respects_bind; [apply _ | exact Hf |]. intros [].
    + apply respects_throw, _.
    + intros a r b Ef. by injection Ef as _ <-.
  - intros [row |]; [| apply respects_ret, _].
    apply respects_bind; [apply _ | | intros; apply respects_ret, _].
    apply respects_bind; [apply _ | exact Hf |]. intros [].
    + apply respects_throw, _.
    + intros a r b Ef. by injection Ef as _ <-.
Qed.

Lemma getSession_same_db (tok : string) : respects same_db (getSession tok).
Proof.
  intros x r y E.
  destruct (getSession_pass tok x) as (r0 & w0 & E0 & P & _).
  rewrite E0 in E. injection E as _ <-. eapply hub_pass_db, P.
Qed.

Lemma broadcast_same_db (event : string) (payload : Payload) :
  respects same_db (broadcast event payload).
Proof. intros x r y E. by apply broadcast_once in E as (_ & Hd & _). Qed.

Lemma stream_same_db (query : value) : respects same_db (stream query).
Proof.
  unfold stream.
  apply respects_bind; [apply _ | apply getSession_same_db |].
  intros [s |]; [| apply respects_ret, _].
  intros w r w' E.
  destruct (stream_accept (sanitizeText (and_prop query "token") 200) w)
    as (r1 & fs & new & _ & _ & E').
  pose proof (eq_trans (eq_sym E') E) as E2.
  by destruct r1 as [[] |]; injection E2 as _ <-.
Qed.

Lemma interval_same_db : respects same_db interval.
Proof.
  unfold interval. apply respects_bind; [apply _ | |].
  { intros w r w' E. by injection E as _ <-. }
  intros now. apply respects_bind; [apply _ | | intros; apply broadcast_same_db].
  intros w r w' E. by injection E as _ <-.
Qed.

(** A property of the database that every statement of the handlers keeps
    is kept by every step of the server. *)
Lemma step_keeps_db_invariant (I : DB -> Prop) (w w' : World) :
  (∀ now s d r d', handler_stmt s -> I d -> exec_stmt now s d = Some (r, d') -> I d') ->
  step w w' -> I (db w) -> I (db w').
Proof.
  intros Hexec Hstep.
  set (R := fun w w' : World => I (db w) -> I (db w')).
  assert (PreOrder R) as HR.
  { split; [intros x Hx; exact Hx | intros x y z Hxy Hyz Hx; exact (Hyz (Hxy Hx))]. }
  assert (∀ w w', same_db w w' -> R w w') as Hsame.
  { intros x y E Hx. unfold same_db in E. by rewrite E. }
  assert (∀ s, handler_stmt s -> respects R (run s)) as Hrun.
  { intros s Hs x [r |] y E Hx.
    - apply run_inv in E as [Ex _]. eapply Hexec; eauto.
    - apply run_throw_db in E. by rewrite E. }
  assert (∀ oid, respects R (getOrderById oid)) as Hget.
  { intros oid. eapply respects_weaken; [exact Hsame | apply getOrderById_same_db]. }
  assert (∀ tok, respects R (getSession tok)) as Hsess.
  { intros tok. eapply respects_weaken; [exact Hsame | apply getSession_same_db]. }
  assert (∀ event payload, respects R (broadcast event payload)) as Hbc.
  { intros event payload.
    eapply respects_weaken; [exact Hsame | apply broadcast_same_db]. }
  destruct Hstep as [reqBody w0 | authorization paramId reqBody w0 | query w0 | c w0
                     | w0 | admin tok w0 | authorization w0 | w0 w1 Henv].
  - eapply (createOrder_respects_stmts R); eauto using surjective_pairing.
  - eapply (updateStatus_respects_stmts R); eauto using surjective_pairing.
  - eapply Hsame, stream_same_db, surjective_pairing.
  - apply Hsame. unfold same_db, closed. by destruct (bool_decide _).
  - eapply Hsame, interval_same_db, surjective_pairing.
  - by apply Hsame.
  - eapply (authMiddleware_respects R); eauto using surjective_pairing.
  - destruct Henv as (Hd & _). by apply Hsame.
Qed.

Lemma exec_stmt_consistent (now : Z) (s : Stmt) (d d' : DB) (r : RunResult) :
  handler_stmt s -> db_consistent d -> exec_stmt now s d = Some (r, d') ->
  db_consistent d'.
Proof.
  assert (∀ f d0, db_consistent d0 -> tables_consistent (f (view d0)) ->
                  db_consistent (write_tables f d0)) as Hwrite.
  { intros f d0 [Hc Hp] Hf. unfold write_tables, view in *.
    destruct (pending d0) as [t |]; split; simpl in *; try done.
    intros t' E. by injection E as <-. }
  assert (∀ d0, db_consistent d0 -> tables_consistent (view d0)) as Hview.
  { intros d0 [Hc Hp]. unfold view. destruct (pending d0); simpl; auto. }
  intros Hs Hcon E. pose proof Hcon as [Hc Hp].
  destruct s as [| | | cn tn nt tot | oid n p q im | st oid]; cbn [exec_stmt] in E.
  - destruct (pending d); [discriminate |]. injection E as _ <-.
    split; [done |]. intros t Et. by injection Et as <-.
  - destruct (pending d) as [t |]; [| discriminate]. injection E as _ <-.
    split; [by apply Hp | done].
  - destruct (pending d) as [t |]; [| discriminate]. injection E as _ <-.
    split; [done | done].
  - injection E as _ <-. apply Hwrite; [done |].
    destruct (Hview d Hcon) as [Hst Hfk]. split;
      cbn [orders order_items insert_order].
    + intros o [Hin | Hin]%elem_of_app; [by apply Hst |].
      apply list_elem_of_singleton in Hin as ->. cbn [o_status].
      unfold ORDER_STATUSES. by left.
    + intros row Hin. rewrite map_app. apply elem_of_app. left. by apply Hfk.
  - case_bool_decide as Hfk0; [| discriminate]. injection E as _ <-.
    apply Hwrite; [done |].
    destruct (Hview d Hcon) as [Hst Hfk]. split;
      cbn [orders order_items insert_item]; [done |].
    intros row [Hin | Hin]%elem_of_app; [by apply Hfk |].
    by apply list_elem_of_singleton in Hin as ->.
  - injection E as _ <-. apply Hwrite; [done |].
    destruct (Hview d Hcon) as [Hst Hfk]. split;
      cbn [orders order_items update_status].
    + intros o Hin. apply list_elem_of_fmap in Hin as (o0 & -> & Hin0).
      unfold set_status. destruct (o_id o0 =? oid)%Z; [exact Hs | by apply Hst].
    + intros row Hin. specialize (Hfk row Hin).
      replace (map o_id (map (set_status now st oid) (orders (view d))))
        with (map o_id (orders (view d))); [done |].
      rewrite map_map. apply map_ext. intros o0. by rewrite set_status_id.
Qed.

(** X6: in every world that the server reaches from the empty one, every
    order row, committed or in the open transaction, has one of the four
    known statuses, and every item row refers to an order row of the same
    table. *)
Theorem reachable_orders_consistent (w : World) :
  rtc step empty_world w -> db_consistent (db w).
Proof.
  intros Hsteps.
  assert (db_consistent (db empty_world)) as H0.
  { split; [| discriminate]. split; intros x Hx; inversion Hx. }
  induction Hsteps as [w | w1 w2 w3 H12 _ IH]; [done |].
  apply IH. eapply (step_keeps_db_invariant db_consistent); eauto.
  intros now s d r d' Hs Hd E. eapply exec_stmt_consistent; eauto.
Qed.

(** *** [createOrder] on any store and on a healthy one *)

Lemma run_cases (s : Stmt) (w w' : World) (r : Outcome RunResult) :
  run s w = (r, w') ->
  (∃ res, r = Ok res ∧ exec_stmt (clock w) s (db w) = Some (res, db w')) ∨
  (r = Throw ∧ db w' = db w).
Proof.
  destruct r as [res |]; intros E.
  - left. exists res. split; [done |]. by apply run_inv in E as [? _].
  - right. split; [done |]. by apply run_throw_db in E.
Qed.

#[global] Instance inside_transaction_preorder : PreOrder inside_transaction.
Proof.
  split.
  - intros w H. by split.
  - intros w1 w2 w3 H12 H23 H. destruct (H12 H) as [C1 P1].
    destruct (H23 P1) as [C2 P2]. split; [congruence | done].
Qed.

Lemma insert_item_inside_transaction (oid : Z) (n : string) (p q : num) (im : string) :
  respects inside_transaction (run (INSERT_item oid n p q im) ;; mret tt).
Proof.
  intros w r w' E [t Hp]. unfold mbind, M_bind in E.
  destruct (run (INSERT_item oid n p q im) w) as [[a |] w1] eqn:E1;
    injection E as _ <-.
  - apply run_inv in E1 as [Ex _]. cbn [exec_stmt] in Ex.
    case_bool_decide; [| discriminate]. injection Ex as _ <-.
    unfold write_tables. rewrite Hp. by split.
  - apply run_throw_db in E1. rewrite E1, Hp. by split.
Qed.

Lemma rollback_handler_inv (resp : Response) (w w' : World) (r : Outcome Response) :
  (try_catch (run ROLLBACK ;; mret tt) (mret tt) ;; mret resp) w = (r, w') ->
  r = Ok resp ∧ committed (db w') = committed (db w).
Proof.
  unfold mbind at 1, M_bind. unfold try_catch. unfold mbind at 1, M_bind.
  destruct (run ROLLBACK w) as [[res |] w1] eqn:E; cbn [mret M_ret];
    intros E'; injection E' as <- <-; (split; [done |]).
  - apply run_inv in E as [Ex _]. cbn [exec_stmt] in Ex.
    destruct (pending (db w)); [| discriminate]. by injection Ex as _ <-.
  - apply run_throw_db in E. by rewrite E.
Qed.

(** The transaction either fails over unchanged committed tables, or
    commits the whole order and hands over to the rest of the handler. *)
Lemma order_transaction_cases {A} (cn tn nt : string) (tot : num) (its : list Item)
    (K : Z -> M A) (w w' : World) (r : Outcome A) :
  order_transaction cn tn nt tot its K w = (r, w') ->
  (r = Throw ∧ committed (db w') = committed (db w) ∧ trace w' = trace w) ∨
  (∃ w1, K (seq_orders (committed (db w)) + 1)%Z w1 = (r, w') ∧
         trace w1 = trace w ∧ pending (db w) = None ∧
         db w1 = {| committed :=
                      insert_rows (seq_orders (committed (db w)) + 1) its
                        (insert_order (clock w) cn tn nt tot (committed (db w)));
                    pending := None |}).
Proof.
  unfold order_transaction. intros E. unfold mbind at 1, M_bind in E.
  destruct (run BEGIN w) as [[r0 |] wa] eqn:Ea.
  2:{ injection E as <- <-. left. split; [done |].
      pose proof (run_storage _ _ _ _ Ea) as Sa.
      apply run_throw_db in Ea. rewrite Ea. split; [done |].
      by apply storage_only_trace. }
  pose proof Ea as Sa. apply run_storage in Sa.
  apply run_inv in Ea as [Xa _]. cbn [exec_stmt] in Xa.
  destruct (pending (db w)) as [t |] eqn:Hp; [discriminate |].
  injection Xa as _ Hda.
  unfold mbind at 1, M_bind in E.
  destruct (run (INSERT_order cn tn nt tot) wa) as [[result |] wb] eqn:Eb.
  2:{ injection E as <- <-. left. split; [done |].
      pose proof (run_storage _ _ _ _ Eb) as Sb.
      apply run_throw_db in Eb. rewrite Eb, <- Hda. split; [done |].
      rewrite (storage_only_trace _ _ Sb). by apply storage_only_trace. }
  pose proof Eb as Sb. apply run_storage in Sb.
  apply run_inv in Eb as [Xb _].
  rewrite (storage_only_clock _ _ Sa) in Xb. cbn [exec_stmt] in Xb.
  rewrite <- Hda in Xb. cbn [view pending default committed write_tables] in Xb.
  injection Xb as Hres Hdb.
  assert (lastID result = (seq_orders (committed (db w)) + 1)%Z) as Hid
    by (by rewrite <- Hres).
  cbv zeta in E. rewrite Hid in E.
  unfold mbind at 1, M_bind in E.
  destruct (for_each _ its wb) as [[[] |] wc] eqn:Ec.
  2:{ injection E as <- <-. left. split; [done |].
      pose proof (insert_items_keeps_orders _ _ _ _ _ Ec) as [Sc _].
      assert (respects inside_transaction
                (for_each (fun it =>
                   run (INSERT_item (seq_orders (committed (db w)) + 1)
                          (name it) (price it) (qty it) (image it)) ;;
                   mret tt) its)) as Hin.
      { apply respects_for_each; [apply _ |]. intros it.
        apply insert_item_inside_transaction. }
      destruct (Hin _ _ _ Ec) as [Hc _]; [rewrite <- Hdb; by eexists |].
      rewrite Hc, <- Hdb. split; [done |].
      rewrite (storage_only_trace _ _ Sc), (storage_only_trace _ _ Sb).
      by apply storage_only_trace. }
  pose proof (insert_items_keeps_orders _ _ _ _ _ Ec) as [Sc _].
  apply (insert_items_inv _ _ _ _
           (insert_order (clock w) cn tn nt tot (committed (db w)))) in Ec;
    [| by rewrite <- Hdb].
  unfold mbind at 1, M_bind in E.
  destruct (run COMMIT wc) as [[r1 |] wd] eqn:Ed.
  2:{ injection E as <- <-. left. split; [done |].
      pose proof (run_storage _ _ _ _ Ed) as Sd.
      apply run_throw_db in Ed. rewrite Ed, Ec. cbn [committed]. rewrite <- Hdb.
      split; [done |].
      rewrite (storage_only_trace _ _ Sd), (storage_only_trace _ _ Sc),
        (storage_only_trace _ _ Sb). by apply storage_only_trace. }
  pose proof Ed as Sd. apply run_storage in Sd.
  apply run_inv in Ed as [Xd _]. cbn [exec_stmt] in Xd. rewrite Ec in Xd.
  cbn [pending] in Xd. injection Xd as _ Hdd.
  right. exists wd. split; [exact E |]. split; [| split; [done |]].
  - rewrite (storage_only_trace _ _ Sd), (storage_only_trace _ _ Sc),
      (storage_only_trace _ _ Sb). by apply storage_only_trace.
  - by rewrite <- Hdd.
Qed.

Lemma read_order_fresh (d : DB) :
  db_wf d -> pending d = None -> read_order (seq_orders (committed d) + 1) d = None.
Proof.
  intros [[Ho _] _] Hp. unfold read_order, select_order, matching_orders, view.
  rewrite Hp. cbn [default].
  destruct (filter _ (orders (committed d))) as [| row l] eqn:E; [done |].
  assert (row ∈ filter (fun r => o_id r = (seq_orders (committed d) + 1)%Z)
                       (orders (committed d))) as Hin by (rewrite E; by left).
  apply list_elem_of_filter in Hin as [Hid Hin]. specialize (Ho _ Hin). lia.
Qed.

Lemma length_rows_from (oid s : Z) (its : list Item) :
  length (rows_from oid s its) = length its.
Proof.
  revert s. induction its as [| it its IH]; intros s; [done |].
  cbn [rows_from length]. by rewrite IH.
Qed.

(** C9: an execution of [createOrder] in which the transaction commits and
    the re-read of the order fails.  On well-formed tables with no
    transaction open, let BEGIN, the order insert, the item inserts and
    COMMIT succeed and the next storage call fail.  Then the transaction
    of the handler ends with the complete order committed, the re-read
    that follows throws without touching the tables, and the handler
    answers 500 without an event of any kind; the tables are left as the
    commit made them, so that the order, which no read returned before
    the request, is now read with all its items. *)
Theorem createOrder_error_after_commit (reqBody : value) (w : World)
    (rest : list bool) :
  let its := normalizeItems (and_prop reqBody "items") in
  let cn := let s := sanitizeText (and_prop reqBody "customerName") 80 in
            if String.eqb s "" then "ลูกค้า" else s in
  let tn := sanitizeText (and_prop reqBody "tableNo") 60 in
  let nt := sanitizeText (and_prop reqBody "note") 300 in
  let oid := (seq_orders (committed (db w)) + 1)%Z in
  createOrder_throws reqBody = false ->
  its ≠ [] ->
  db_wf (db w) -> pending (db w) = None ->
  db_faults w = replicate (length its + 3) false ++ true :: rest ->
  ∃ w1 w2,
    order_transaction cn tn nt (order_total its) its (fun orderId => mret orderId) w
    = (Ok oid, w1) ∧
    db w1 = {| committed := tables_with_order reqBody w; pending := None |} ∧
    getOrderById oid w1 = (Throw, w2) ∧ db w2 = db w1 ∧
    (createOrder reqBody w).1 = Ok response_500 ∧
    db (createOrder reqBody w).2 = db w1 ∧
    trace (createOrder reqBody w).2 = trace w ∧
    read_order oid (db w) = None ∧
    read_order oid (db (createOrder reqBody w).2) = Some (requested_order reqBody w) ∧
    length (items (requested_order reqBody w)) = length its.
Proof.
  intros its cn tn nt oid Hc Hne Hwf Hp Hf.
  eexists _, _. split.
  { rewrite (order_transaction_ok _ _ _ _ _ _ w (true :: rest) Hp Hf). reflexivity. }
  split; [reflexivity |]. split.
  { unfold getOrderById. unfold mbind at 1, M_bind.
    rewrite get_order_fault by reflexivity. reflexivity. }
  split; [reflexivity |].
  rewrite (createOrder_reread_fault reqBody w rest Hc Hne Hp Hf).
  cbn [fst snd db set_db trace set_db_faults].
  split; [reflexivity |]. split; [reflexivity |]. split; [reflexivity |].
  split; [by apply read_order_fresh |]. split.
  - apply read_created_order. exact (proj1 Hwf).
  - unfold requested_order, created_order. cbn [items].
    by rewrite length_map, length_rows_from.
Qed.

Lemma createOrder_alone_all_or_nothing (reqBody : value) (w : World) :
  (committed (db (createOrder reqBody w).2) = committed (db w) ∨
   committed (db (createOrder reqBody w).2) = tables_with_order reqBody w) ∧
  (∀ r, (createOrder reqBody w).1 = Ok r -> statusCode r = 201%Z ->
        committed (db (createOrder reqBody w).2) = tables_with_order reqBody w).
Proof.
  destruct (createOrder reqBody w) as [r w'] eqn:E. cbn [fst snd].
  destruct (createOrder_throws reqBody) eqn:Hcv.
  { rewrite (createOrder_throw _ _ Hcv) in E. injection E as <- <-.
    split; [by left |]. intros r E. discriminate E. }
  destruct (decide (normalizeItems (and_prop reqBody "items") = [])) as [Hnil | Hne].
  { rewrite (createOrder_empty _ _ Hcv Hnil) in E. injection E as <- <-.
    split; [by left |]. intros r E. by injection E as <-. }
  rewrite (createOrder_unfold _ _ Hcv Hne) in E. cbv zeta in E.
  apply try_catch_inv in E as [(a & Et & ->) | (w1 & Et & Eh)].
  - apply order_transaction_cases in Et as [(Habs & _) | (w0 & EK & _ & Hp & Hd)];
      [discriminate |].
    assert (same_db w0 w') as Hs.
    { eapply (respects_bind same_db); [apply getOrderById_same_db | | exact EK].
      intros o. apply respects_bind; [apply _ | apply broadcast_same_db |].
      intros _. apply respects_ret, _. }
    unfold same_db in Hs.
    assert (committed (db w') = tables_with_order reqBody w) as Hfull
      by (by rewrite Hs, Hd).
    split; [by right | done].
  - apply rollback_handler_inv in Eh as [-> Hc'].
    split; [| intros r0 E; by injection E as <-].
    rewrite Hc'.
    apply order_transaction_cases in Et as [(_ & Hc & _) | (w0 & EK & _ & Hp & Hd)];
      [by left |].
    right.
    assert (same_db w0 w1) as Hs.
    { eapply (respects_bind same_db); [apply getOrderById_same_db | | exact EK].
      intros o. apply respects_bind; [apply _ | apply broadcast_same_db |].
      intros _. apply respects_ret, _. }
    unfold same_db in Hs. by rewrite Hs, Hd.
Qed.

(** X7: a request to create an order that is served with no storage call
    of another request between its own is all-or-nothing on the committed
    tables.  Whatever requests are in flight when it arrives, whatever
    state they left the connection in, whatever fails and whether or not
    the rollback works: once the request has arrived and been resumed to
    its end, the pool has gained its outcome, the other requests are
    where they were, and the committed tables are either exactly what
    they were, or what they were plus the complete order (the order row
    and one row per normalised item, appended); and the second is the
    case whenever the answer is 201. *)
Theorem createOrder_all_or_nothing (reqBody : value) (p : list (Task Response))
    (w : World) :
  ∃ n o w',
    run_events (Arrive reqBody :: replicate n (Resume (length p))) (p, w)
    = (p ++ [Return o], w') ∧
    createOrder reqBody w = (o, w') ∧
    (committed (db w') = committed (db w) ∨
     committed (db w') = tables_with_order reqBody w) ∧
    (∀ r, o = Ok r -> statusCode r = 201%Z ->
          committed (db w') = tables_with_order reqBody w).
Proof.
  destruct (served_alone reqBody p w) as [n Hn].
  exists n, (createOrder reqBody w).1, (createOrder reqBody w).2.
  split; [exact Hn |]. split; [by destruct (createOrder reqBody w) |].
  apply createOrder_alone_all_or_nothing.
Qed.

Lemma faultless_head (n : nat) (fs : list bool) :
  faultless (S n) fs -> head fs ≠ Some true.
Proof. intros H. rewrite head_lookup. apply H. lia. Qed.

Lemma faultless_drop (k n : nat) (fs : list bool) :
  faultless (k + n) fs -> faultless n (drop k fs).
Proof. intros H i Hi. rewrite lookup_drop. apply H. lia. Qed.

Lemma faultless_le (m n : nat) (fs : list bool) :
  (m <= n)%nat -> faultless n fs -> faultless m fs.
Proof. intros Hle H i Hi. apply H. lia. Qed.

Lemma after_calls_fields (k : nat) (d : DB) (w w' : World) :
  after_calls k d w w' ->
  db w' = d ∧ db_faults w' = drop k (db_faults w) ∧ clock w' = clock w ∧
  trace w' = trace w ∧ sseClients w' = sseClients w ∧ sessions w' = sessions w ∧
  net_faults w' = net_faults w.
Proof. by intros ->. Qed.

Lemma after_calls_trans (j k : nat) (d1 d2 : DB) (w1 w2 w3 : World) :
  after_calls j d1 w1 w2 -> after_calls k d2 w2 w3 ->
  after_calls (j + k) d2 w1 w3.
Proof.
  unfold after_calls. intros -> ->. world_eq.
  by rewrite drop_drop.
Qed.

Lemma bind_ok {A B} (m : M A) (f : A -> M B) (w w1 : World) (a : A) :
  m w = (Ok a, w1) -> (m ≫= f) w = f a w1.
Proof. intros E. unfold mbind, M_bind. by rewrite E. Qed.

Lemma bind_throw {A B} (m : M A) (f : A -> M B) (w w1 : World) :
  m w = (Throw, w1) -> (m ≫= f) w = (Throw, w1).
Proof. intros E. unfold mbind, M_bind. by rewrite E. Qed.

Lemma try_catch_ok {A} (m h : M A) (w w1 : World) (a : A) :
  m w = (Ok a, w1) -> try_catch m h w = (Ok a, w1).
Proof. intros E. unfold try_catch. by rewrite E. Qed.

Lemma try_catch_throw {A} (m h : M A) (w w1 : World) :
  m w = (Throw, w1) -> try_catch m h w = h w1.
Proof. intros E. unfold try_catch. by rewrite E. Qed.

Lemma run_clean (s : Stmt) (w : World) (r : RunResult) (d : DB) :
  no_db_fault 1 w -> exec_stmt (clock w) s (db w) = Some (r, d) ->
  ∃ w', run s w = (Ok r, w') ∧ after_calls 1 d w w'.
Proof.
  intros Hf Ex. rewrite run_no_fault by (by eapply faultless_head). rewrite Ex.
  eexists. split; [reflexivity |]. unfold after_calls.
  by destruct (db_faults w).
Qed.

Lemma insert_items_clean (oid : Z) (its : list Item) :
  ∀ (w : World) (t : Tables),
    pending (db w) = Some t ->
    oid ∈ map o_id (orders t) ->
    no_db_fault (length its) w ->
    ∃ w',
      for_each (fun it =>
                  run (INSERT_item oid (name it) (price it) (qty it) (image it)) ;;
                  mret tt) its w = (Ok tt, w') ∧
      after_calls (length its)
        {| committed := committed (db w);
           pending := Some (insert_rows oid its t) |} w w'.
Proof.
  induction its as [| it its IH]; intros w t Hp Ho Hf.
  - exists w. split; [reflexivity |]. unfold after_calls.
    destruct w as [[c p] ? ? ? ? ? ? ? ?]; simpl in *; subst. reflexivity.
  - cbn [for_each].
    destruct (run_clean (INSERT_item oid (name it) (price it) (qty it) (image it))
                w {| lastID := seq_order_items t + 1; changes := 1 |}
                (write_tables (insert_item oid (name it) (price it) (qty it)
                                 (image it)) (db w)))
      as (w1 & E1 & H1).
    { eapply faultless_le; [| exact Hf]. simpl. lia. }
    { cbn [exec_stmt]. rewrite (view_pending _ _ Hp).
      by rewrite bool_decide_eq_true_2 by exact Ho. }
    pose proof (after_calls_fields _ _ _ _ H1) as (Hd1 & Hf1 & _).
    destruct (IH w1 (insert_item oid (name it) (price it) (qty it) (image it) t))
      as (w2 & E2 & H2).
    { rewrite Hd1. unfold write_tables. by rewrite Hp. }
    { exact Ho. }
    { unfold no_db_fault. rewrite Hf1. by apply (faultless_drop 1). }
    exists w2. split.
    + erewrite bind_ok; [exact E2 |]. erewrite bind_ok; [| exact E1]. reflexivity.
    + pose proof (after_calls_trans _ _ _ _ _ _ _ H1 H2) as H12.
      rewrite Hd1 in H12. unfold write_tables in H12. rewrite Hp in H12.
      exact H12.
Qed.

Lemma order_transaction_clean {A} (cn tn nt : string) (tot : num) (its : list Item)
    (K : Z -> M A) (w : World) :
  pending (db w) = None ->
  no_db_fault (length its + 3) w ->
  ∃ w1,
    order_transaction cn tn nt tot its K w
    = K (seq_orders (committed (db w)) + 1)%Z w1 ∧
    after_calls (length its + 3)
      {| committed :=
           insert_rows (seq_orders (committed (db w)) + 1) its
             (insert_order (clock w) cn tn nt tot (committed (db w)));
         pending := None |} w w1.
Proof.
  intros Hp Hf. unfold order_transaction.
  destruct (run_clean BEGIN w {| lastID := 0; changes := 0 |}
              {| committed := committed (db w);
                 pending := Some (committed (db w)) |})
    as (wa & Ea & Ha).
  { eapply faultless_le; [| exact Hf]. lia. }
  { cbn [exec_stmt]. by rewrite Hp. }
  pose proof (after_calls_fields _ _ _ _ Ha) as (Hda & Hfa & Hca & _).
  set (t2 := insert_order (clock w) cn tn nt tot (committed (db w))).
  destruct (run_clean (INSERT_order cn tn nt tot) wa
              {| lastID := seq_orders (committed (db w)) + 1; changes := 1 |}
              {| committed := committed (db w); pending := Some t2 |})
    as (wb & Eb & Hb).
  { unfold no_db_fault. rewrite Hfa. apply (faultless_le 1 (length its + 2)); [lia |].
    apply (faultless_drop 1). eapply faultless_le; [| exact Hf]. lia. }
  { cbn [exec_stmt]. rewrite Hda, Hca. reflexivity. }
  pose proof (after_calls_trans _ _ _ _ _ _ _ Ha Hb) as Hab.
  pose proof (after_calls_fields _ _ _ _ Hab) as (Hdb & Hfb & _).
  destruct (insert_items_clean (seq_orders (committed (db w)) + 1) its wb t2)
    as (wc & Ec & Hc).
  { by rewrite Hdb. }
  { apply insert_order_has_id. }
  { unfold no_db_fault. rewrite Hfb. apply (faultless_le _ (length its + 1)); [lia |].
    apply (faultless_drop (1 + 1)). eapply faultless_le; [| exact Hf]. lia. }
  pose proof (after_calls_trans _ _ _ _ _ _ _ Hab Hc) as Hac.
  pose proof (after_calls_fields _ _ _ _ Hac) as (Hdc & Hfc & Hcc & _).
  rewrite Hdb in Hdc. cbn [committed] in Hdc.
  destruct (run_clean COMMIT wc {| lastID := 0; changes := 0 |}
              {| committed := insert_rows (seq_orders (committed (db w)) + 1) its t2;
                 pending := None |})
    as (wd & Ed & Hd).
  { unfold no_db_fault. rewrite Hfc.
    apply (faultless_drop (1 + 1 + length its)). eapply faultless_le; [| exact Hf]. lia. }
  { cbn [exec_stmt]. by rewrite Hdc. }
  exists wd. split.
  - erewrite bind_ok; [| exact Ea]. erewrite bind_ok; [| exact Eb].
    cbv zeta. cbn [lastID].
    erewrite bind_ok; [| exact Ec]. erewrite bind_ok; [| exact Ed]. reflexivity.
  - pose proof (after_calls_trans _ _ _ _ _ _ _ Hac Hd) as Had.
    replace (length its + 3)%nat with (1 + 1 + length its + 1)%nat by lia.
    exact Had.
Qed.

Lemma getOrderById_clean (oid : Z) (w : World) :
  no_db_fault 2 w ->
  ∃ w' k, getOrderById oid w = (Ok (read_order oid (db w)), w') ∧
          after_calls k (db w) w w' ∧
          k = match select_order oid (db w) with Some _ => 2%nat | None => 1%nat end.
Proof.
  intros Hf. unfold getOrderById, read_order.
  unfold mbind at 1, M_bind. unfold get_order at 1, next_db_fault.
  unfold mbind at 1, M_bind.
  assert (default false (head (db_faults w)) = false) as ->.
  { pose proof (faultless_head _ _ Hf) as H.
    by destruct (db_faults w) as [| [] ?]. }
  cbn [db set_db_faults].
  destruct (select_order oid (db w)) as [row |] eqn:Es.
  - unfold mbind at 1, M_bind. unfold all_items, next_db_fault.
    unfold mbind at 1, M_bind. world_fields.
    assert (default false (head (tail (db_faults w))) = false) as ->.
    { pose proof (Hf 1%nat ltac:(lia)) as H.
      by destruct (db_faults w) as [| ? [| [] ?]]. }
    eexists _, 2%nat. split; [reflexivity |]. split; [| done].
    unfold after_calls. world_eq. by destruct (db_faults w) as [| ? [| ? ?]].
  - eexists _, 1%nat. split; [reflexivity |]. split; [| done].
    unfold after_calls. world_eq.
Qed.

Lemma broadcast_storage_untouched (event : string) (payload : Payload)
    (w w' : World) (r : Outcome unit) :
  broadcast event payload w = (r, w') ->
  r = Ok tt ∧ db w' = db w ∧ db_faults w' = db_faults w ∧ clock w' = clock w.
Proof.
  unfold broadcast. intros E.
  destruct (for_each_broadcast_quiet event payload (sseClients w)
              (emit (Broadcast event payload) w)) as (w1 & new & E1 & P & Q).
  rewrite E1 in E. injection E as <- <-.
  split; [done |]. by destruct P as [(m & ls & fs & ->) _].
Qed.

Lemma inserted_order_selected (now : Z) (cn tn nt : string) (tot : num)
    (its : list Item) (t : Tables) :
  is_Some (select_order (seq_orders t + 1)
             {| committed := insert_rows (seq_orders t + 1) its
                               (insert_order now cn tn nt tot t);
                pending := None |}).
Proof.
  unfold select_order, matching_orders. cbn [view pending default committed].
  rewrite insert_rows_spec. cbn [orders insert_order].
  rewrite filter_app. cbn [filter list_filter].
  destruct (decide _) as [_ | Hn]; [| by destruct Hn].
  destruct (filter _ (orders t)); by eexists.
Qed.

(** X8: on a store that is outside a transaction and whose next
    [length its + 5] calls do not fail, [createOrder] on a body none of
    whose conversions throws and with at least one normalised item always
    answers 201 with the new id, one above the counter of the orders
    table, and the total as computed in binary64; it makes exactly
    [length its + 5] storage calls, leaves the complete order committed with
    no transaction open, and broadcasts the order as re-read from the
    store.  Nothing about the subscribers or the network can make it fail. *)
Theorem createOrder_succeeds (reqBody : value) (w : World) :
  createOrder_throws reqBody = false ->
  normalizeItems (and_prop reqBody "items") ≠ [] ->
  pending (db w) = None ->
  no_db_fault (length (normalizeItems (and_prop reqBody "items")) + 5) w ->
  ∃ w',
    createOrder reqBody w
    = (Ok {| statusCode := 201;
             body := JsonCreated "สร้างออเดอร์สำเร็จ"
                       (seq_orders (committed (db w)) + 1)
                       (order_total (normalizeItems (and_prop reqBody "items"))) |},
       w') ∧
    db w' = {| committed := tables_with_order reqBody w; pending := None |} ∧
    db_faults w'
    = drop (length (normalizeItems (and_prop reqBody "items")) + 5) (db_faults w) ∧
    broadcasts (trace w')
    = broadcasts (trace w) ++
      [("order", POrder "order_created"
                   (read_order (seq_orders (committed (db w)) + 1) (db w')))].
Proof.
  intros Hc Hne Hp Hf. rewrite (createOrder_unfold _ _ Hc Hne). cbv zeta.
  match goal with
  | |- context [order_transaction ?cn ?tn ?nt ?tot ?its ?K] =>
      destruct (order_transaction_clean cn tn nt tot its K w Hp) as (w1 & Et & H1)
  end.
  { eapply faultless_le; [| exact Hf]. lia. }
  pose proof (after_calls_fields _ _ _ _ H1) as (Hd1 & Hf1 & _ & Ht1 & _).
  destruct (getOrderById_clean (seq_orders (committed (db w)) + 1) w1)
    as (w2 & k & Eg & H2 & Hk).
  { unfold no_db_fault. rewrite Hf1. apply faultless_drop.
    eapply faultless_le; [| exact Hf]. lia. }
  assert (k = 2%nat) as ->.
  { rewrite Hk, Hd1.
    by destruct (inserted_order_selected (clock w)
                   (if String.eqb (sanitizeText (and_prop reqBody "customerName") 80) ""
                    then "ลูกค้า"
                    else sanitizeText (and_prop reqBody "customerName") 80)
                   (sanitizeText (and_prop reqBody "tableNo") 60)
                   (sanitizeText (and_prop reqBody "note") 300)
                   (order_total (normalizeItems (and_prop reqBody "items")))
                   (normalizeItems (and_prop reqBody "items"))
                   (committed (db w))) as [row ->]. }
  pose proof (after_calls_trans _ _ _ _ _ _ _ H1 H2) as H12.
  pose proof (after_calls_fields _ _ _ _ H12) as (Hd2 & Hf2 & _ & Ht2 & _).
  destruct (broadcast "order"
              (POrder "order_created"
                 (read_order (seq_orders (committed (db w)) + 1) (db w1))) w2)
    as [rb w3] eqn:Eb.
  pose proof (broadcast_once _ _ _ _ _ Eb) as (-> & _ & Hb3).
  pose proof (broadcast_storage_untouched _ _ _ _ _ Eb) as (_ & Hd3 & Hf3 & _).
  exists w3. split; [| split; [| split]].
  - erewrite try_catch_ok; [reflexivity |]. rewrite Et.
    erewrite bind_ok; [| exact Eg]. erewrite bind_ok; [| exact Eb]. reflexivity.
  - by rewrite Hd3, Hd2, Hd1.
  - rewrite Hf3, Hf2. f_equal. lia.
  - rewrite Hb3, Ht2. by rewrite Hd3, Hd2.
Qed.

(** *** [updateStatus] *)

Lemma authMiddleware_valid (authorization : value) (s : Session) (w : World) :
  sessions w !! bearer_token authorization = Some s ->
  (clock w <= expiresAt s)%Z ->
  authMiddleware authorization w = (Ok (inr s), w).
Proof.
  intros Hs Hv. unfold authMiddleware. cbv zeta.
  erewrite bind_ok; [| apply (getSession_valid _ s); [exact Hs | exact Hv]].
  reflexivity.
Qed.

Lemma authMiddleware_cases (authorization : value) (w : World) :
  (∃ s, authMiddleware authorization w = (Ok (inr s), w) ∧
        sessions w !! bearer_token authorization = Some s ∧
        (clock w <= expiresAt s)%Z) ∨
  (∃ w', authMiddleware authorization w
         = (Ok (inl {| statusCode := 401; body := JsonMessage "Unauthorized" |}), w') ∧
         ¬ session_valid (bearer_token authorization) w ∧
         db w' = db w ∧ db_faults w' = db_faults w ∧ trace w' = trace w ∧
         sseClients w' = sseClients w ∧ clock w' = clock w ∧
         sessions w' = delete (bearer_token authorization) (sessions w)).
Proof.
  unfold authMiddleware. cbv zeta. fold (bearer_token authorization).
  unfold mbind, M_bind. rewrite getSession_cases. unfold session_valid.
  destruct (sessions w !! bearer_token authorization) as [s |] eqn:Hs.
  - destruct (Z.ltb_spec (expiresAt s) (clock w)).
    + right. eexists. split; [reflexivity |].
      split; [| by repeat split]. intros (s' & Hs' & Hv). injection Hs' as <-. lia.
    + left. exists s. by repeat split.
  - right. exists w. split; [reflexivity |].
    split; [by intros (s' & Hs' & _) |]. repeat split.
    by rewrite delete_id.
Qed.

Lemma filter_map_id {A} (P : A -> Prop) `{∀ x, Decision (P x)} (f : A -> A) (l : list A) :
  (∀ x, P (f x) <-> P x) ->
  filter P (map f l) = map f (filter P l).
Proof.
  intros Hf. induction l as [| x l IH]; [done |]. cbn [map].
  rewrite !filter_cons. destruct (decide (P (f x))) as [Hy | Hn].
  - rewrite decide_True by (by apply Hf). cbn [map]. by rewrite IH.
  - rewrite decide_False by (by rewrite <- Hf). exact IH.
Qed.


Lemma matching_orders_update_status (now : Z) (st : string) (oid oid' : Z) (t : Tables) :
  matching_orders oid' (update_status now st oid t)
  = map (set_status now st oid) (matching_orders oid' t).
Proof.
  unfold matching_orders. cbn [orders update_status].
  apply filter_map_id. intros x. by rewrite set_status_id.
Qed.

(** Reading after [UPDATE orders SET status]: the order with the id comes
    back with the new status and time, every other order as before. *)
Lemma read_order_update_status (now : Z) (st : string) (oid oid' : Z) (d : DB) :
  read_order oid' (write_tables (update_status now st oid) d)
  = (if decide (oid' = oid) then with_status st now <$> read_order oid' d
     else read_order oid' d).
Proof.
  unfold read_order, select_order, select_items.
  rewrite view_write_tables, matching_orders_update_status.
  cbn [order_items update_status].
  assert (∀ row, row ∈ matching_orders oid' (view d) -> o_id row = oid') as Hid.
  { intros row Hin. unfold matching_orders in Hin.
    by apply list_elem_of_filter in Hin as [? _]. }
  destruct (matching_orders oid' (view d)) as [| row l]; cbn [map head].
  { by destruct (decide _). }
  pose proof (Hid row ltac:(by left)) as Hrow.
  unfold set_status.
  destruct (decide (oid' = oid)) as [-> | Hne].
  - rewrite (proj2 (Z.eqb_eq _ _) Hrow). reflexivity.
  - rewrite (proj2 (Z.eqb_neq _ _)) by congruence. reflexivity.
Qed.

Lemma update_status_no_match (now : Z) (st : string) (oid : Z) (d : DB) :
  matching_orders oid (view d) = [] ->
  write_tables (update_status now st oid) d = d.
Proof.
  intros Hm.
  assert (update_status now st oid (view d) = view d) as Hu.
  { unfold update_status.
    assert (map (set_status now st oid) (orders (view d)) = orders (view d)) as ->.
    { unfold matching_orders in Hm.
      induction (orders (view d)) as [| row l IH]; [done |].
      rewrite filter_cons in Hm. destruct (decide (o_id row = oid)) as [| Hne];
        [discriminate |].
      cbn [map]. rewrite (IH Hm). f_equal. unfold set_status.
      by rewrite (proj2 (Z.eqb_neq _ _) Hne). }
    by destruct (view d). }
  unfold write_tables, view in *. destruct d as [c [t |]]; cbn in *; by rewrite Hu.
Qed.

Lemma read_order_matching (oid : Z) (d : DB) (o : Order) :
  read_order oid d = Some o -> matching_orders oid (view d) ≠ [].
Proof.
  unfold read_order, select_order. intros H Hm. by rewrite Hm in H.
Qed.

(** *** Conversions that do not throw *)

Lemma value_nested_ind (P : value -> Prop) :
  P VUndefined -> P VNull -> (∀ b, P (VBool b)) -> (∀ n, P (VNum n)) ->
  (∀ s, P (VStr s)) -> (∀ elems, Forall P elems -> P (VArr elems)) ->
  (∀ props, P (VObj props)) -> ∀ v, P v.
Proof.
  intros Hu Hn Hb Hm Hs Ha Ho. fix IH 1.
  intros [| | b | n | s | elems | props];
    [exact Hu | exact Hn | apply Hb | apply Hm | apply Hs | | apply Ho].
  apply Ha. induction elems as [| e es IHes]; constructor; [apply IH | exact IHes].
Qed.

Lemma has_bracket_app (a b : string) :
  has_bracket (a ++ b) = has_bracket a || has_bracket b.
Proof. induction a as [| c a IH]; [done |]. simpl. by rewrite IH, orb_assoc. Qed.

Lemma has_bracket_concat (sep : string) (l : list string) :
  Exists (fun x => has_bracket x = true) l -> has_bracket (String.concat sep l) = true.
Proof.
  induction l as [| x l IH]; intros H; [by inversion H |].
  destruct l as [| y l].
  - simpl. inversion H as [? ? Hx | ? ? Hl]; [done | by inversion Hl].
  - change (String.concat sep (x :: y :: l))
      with (x ++ sep ++ String.concat sep (y :: l))%string.
    rewrite !has_bracket_app. inversion H as [? ? Hx | ? ? Hl]; subst.
    + by rewrite Hx.
    + rewrite (IH Hl). by rewrite !orb_true_r.
Qed.

Lemma String_throws_bracket (v : value) :
  String_throws v = true -> has_bracket (String_ v) = true.
Proof.
  induction v as [| | b | n | s | elems IH | props] using value_nested_ind;
    try discriminate; [| reflexivity].
  intros H. cbn [String_throws] in H. cbn [String_].
  apply has_bracket_concat.
  induction IH as [| e es He _ IHes]; [discriminate |].
  cbn [existsb] in H. apply orb_true_iff in H as [H | H].
  - left. destruct e; try discriminate; by apply He.
  - right. by apply IHes.
Qed.

Lemma has_bracket_trimStart (s : string) :
  has_bracket (trimStart s) = has_bracket s.
Proof.
  induction s as [| c s IH]; [done |]. cbn [trimStart].
  destruct (is_ws c) eqn:E; [| done]. rewrite IH. cbn [has_bracket].
  destruct (Ascii.eqb_spec c "["%char) as [-> | _]; [discriminate E | done].
Qed.

Lemma has_bracket_trimEnd (s : string) :
  has_bracket (trimEnd s) = has_bracket s.
Proof.
  induction s as [| c s IH]; [done |]. cbn [trimEnd has_bracket].
  rewrite <- IH. destruct (trimEnd s) eqn:E; [| done].
  destruct (is_ws c) eqn:Ec; [| done]. cbn [has_bracket].
  destruct (Ascii.eqb_spec c "["%char) as [-> | _]; [discriminate Ec | done].
Qed.

Lemma has_bracket_trim (s : string) : has_bracket (trim s) = has_bracket s.
Proof. unfold trim. by rewrite has_bracket_trimEnd, has_bracket_trimStart. Qed.

Lemma lower_char_bracket (c : ascii) :
  Ascii.eqb (lower_char c) "["%char = Ascii.eqb c "["%char.
Proof. destruct c as [[] [] [] [] [] [] [] []]; reflexivity. Qed.

Lemma has_bracket_toLowerCase (s : string) :
  has_bracket (toLowerCase s) = has_bracket s.
Proof.
  induction s as [| c s IH]; [done |]. cbn [toLowerCase has_bracket].
  by rewrite lower_char_bracket, IH.
Qed.

Lemma length_toLowerCase (s : string) :
  String.length (toLowerCase s) = String.length s.
Proof. induction s as [| c s IH]; [done |]. simpl. by rewrite IH. Qed.

Lemma has_bracket_slice0 (n : nat) (s : string) :
  has_bracket s = true ->
  has_bracket (slice0 n s) = true ∨ String.length (slice0 n s) = n.
Proof.
  revert s. induction n as [| n IH]; intros s H; [by right |].
  destruct s as [| c s]; [discriminate H |]. cbn [slice0 has_bracket String.length] in *.
  apply orb_true_iff in H as [H | H]; [left; by rewrite H |].
  destruct (IH s H) as [H' | H']; [left; by rewrite H', orb_true_r | right; by rewrite H'].
Qed.

(** A body whose status is one of the four has a status that
    [sanitizeText] converts without throwing: the text of a value that
    throws contains a bracket, and no status does. *)
Lemma status_converts (reqBody : value) :
  requested_status reqBody ∈ ORDER_STATUSES ->
  sanitizeText_throws (and_prop reqBody "status") = false.
Proof.
  intros Hst. unfold sanitizeText_throws.
  destruct (String_throws (or_else (and_prop reqBody "status") (VStr ""))) eqn:E;
    [| done].
  exfalso. apply String_throws_bracket in E. rewrite <- has_bracket_trim in E.
  assert (has_bracket (requested_status reqBody) = true ∨
          String.length (requested_status reqBody) = 40%nat) as H.
  { unfold requested_status, sanitizeText.
    rewrite has_bracket_toLowerCase, length_toLowerCase.
    by apply has_bracket_slice0. }
  unfold ORDER_STATUSES in Hst.
  assert (∀ st, st ∈ ORDER_STATUSES ->
                has_bracket st = false ∧ String.length st ≠ 40%nat) as Hall.
  { intros st Hin. unfold ORDER_STATUSES in Hin.
    repeat (apply elem_of_cons in Hin as [-> | Hin]; [by vm_compute |]).
    by apply elem_of_nil in Hin. }
  destruct (Hall _ Hst) as [Hb Hl]. destruct H as [H | H]; congruence.
Qed.


Lemma storage_only_sseClients (w w' : World) :
  storage_only w w' -> sseClients w' = sseClients w.
Proof. by intros (d & fs & ->). Qed.

(** X10: [updateStatus] throws, before its [try] and with the world
    untouched, exactly when the bearer token names a valid session and the
    conversion of the body's [status] throws.  In every other case it
    answers, with one of five status codes.  It answers 401 exactly when
    the bearer token names no valid session.  Unless it answers 200 it
    writes to no subscriber, broadcasts nothing and keeps every subscriber;
    when it answers 400, 401 or 404 the tables are exactly as before; and a
    400 or 401 is decided without any storage call. *)
Theorem updateStatus_refusals (authorization : value) (paramId : string)
    (reqBody : value) (w : World) :
  (session_valid (bearer_token authorization) w ∧
   sanitizeText_throws (and_prop reqBody "status") = true ∧
   updateStatus authorization paramId reqBody w = (Throw, w)) ∨
  (¬ (session_valid (bearer_token authorization) w ∧
      sanitizeText_throws (and_prop reqBody "status") = true) ∧
   ∃ r w',
     updateStatus authorization paramId reqBody w = (Ok r, w') ∧
     (statusCode r = 200 ∨ statusCode r = 400 ∨ statusCode r = 401 ∨
      statusCode r = 404 ∨ statusCode r = 500)%Z ∧
     (statusCode r = 401%Z <-> ¬ session_valid (bearer_token authorization) w) ∧
     (statusCode r ≠ 200%Z -> trace w' = trace w ∧ sseClients w' = sseClients w) ∧
     ((statusCode r = 400 ∨ statusCode r = 401 ∨ statusCode r = 404)%Z ->
      db w' = db w) ∧
     ((statusCode r = 400 ∨ statusCode r = 401)%Z -> db_faults w' = db_faults w)).
Proof.
  unfold updateStatus.
  destruct (authMiddleware_cases authorization w)
    as [(s & Ea & Hs & Hv) | (w0 & Ea & Hinv & Hd0 & Hf0 & Ht0 & Hc0 & _)].
  2:{ right. split; [intros [Hval _]; by apply Hinv |].
      eexists _, w0. split; [erewrite bind_ok; [| exact Ea]; reflexivity |].
      cbn [statusCode]. repeat split; auto; lia. }
  assert (session_valid (bearer_token authorization) w) as Hval by (by exists s).
  erewrite bind_ok; [| exact Ea].
  destruct (sanitizeText_throws (and_prop reqBody "status")) eqn:Hth;
    [left; done |].
  right. split; [intros [_ H]; discriminate H |]. cbv zeta.
  destruct (num_integer (Number_ (VStr paramId))) as [oid |].
  2:{ eexists _, w. split; [reflexivity |]. cbn [statusCode].
      repeat split; auto; try lia; try done. }
  destruct (oid <=? 0)%Z.
  { eexists _, w. split; [reflexivity |]. cbn [statusCode].
    repeat split; auto; try lia; try done. }
  fold (requested_status reqBody).
  destruct (negb _).
  { eexists _, w. split; [reflexivity |]. cbn [statusCode].
    repeat split; auto; try lia; try done. }
  destruct (run (UPDATE_status (requested_status reqBody) oid) w)
    as [[res |] w1] eqn:E1.
  2:{ pose proof (run_storage _ _ _ _ E1) as S1.
      eexists _, w1. split.
      { erewrite try_catch_throw; [reflexivity |]. by erewrite bind_throw. }
      cbn [statusCode]. repeat split; try lia; try done.
      - by apply storage_only_trace.
      - by apply storage_only_sseClients. }
  pose proof (run_storage _ _ _ _ E1) as S1.
  pose proof (run_inv _ _ _ _ E1) as [X1 _]. cbn [exec_stmt] in X1.
  injection X1 as Hres Hd1.
  destruct (Z.eqb_spec (changes res) 0) as [Hz | Hnz].
  { eexists _, w1. split.
    { erewrite try_catch_ok; [reflexivity |]. erewrite bind_ok; [| exact E1].
      by rewrite (proj2 (Z.eqb_eq _ _) Hz). }
    cbn [statusCode]. repeat split; try lia; try done.
    - by apply storage_only_trace.
    - by apply storage_only_sseClients.
    - intros _. rewrite <- Hd1. apply update_status_no_match.
      rewrite <- Hres in Hz. cbn [changes] in Hz.
      destruct (matching_orders oid (view (db w))); [done | simpl in Hz; lia]. }
  destruct (getOrderById oid w1) as [[o |] w2] eqn:Eg.
  2:{ pose proof (getOrderById_storage _ _ _ _ Eg) as S2.
      eexists _, w2. split.
      { erewrite try_catch_throw; [reflexivity |]. erewrite bind_ok; [| exact E1].
        rewrite (proj2 (Z.eqb_neq _ _) Hnz). by erewrite bind_throw. }
      cbn [statusCode]. repeat split; try lia; try done.
      - rewrite (storage_only_trace _ _ S2). by apply storage_only_trace.
      - rewrite (storage_only_sseClients _ _ S2). by apply storage_only_sseClients. }
  destruct (broadcast "order" (POrder "order_updated" o) w2) as [rb w3] eqn:Eb.
  pose proof (broadcast_once _ _ _ _ _ Eb) as (-> & _).
  eexists _, w3. split.
  { erewrite try_catch_ok; [reflexivity |]. erewrite bind_ok; [| exact E1].
    rewrite (proj2 (Z.eqb_neq _ _) Hnz).
    erewrite bind_ok; [| exact Eg]. erewrite bind_ok; [| exact Eb]. reflexivity. }
  cbn [statusCode]. repeat split; try lia; try done.
Qed.

Lemma getOrderById_fault (oid : Z) (w : World) :
  is_Some (select_order oid (db w)) ->
  db_faults w !! 0%nat = Some true ∨ db_faults w !! 1%nat = Some true ->
  ∃ w', getOrderById oid w = (Throw, w').
Proof.
  intros [row Hrow] Hf. unfold getOrderById.
  unfold mbind at 1, M_bind. unfold get_order at 1, next_db_fault.
  unfold mbind at 1, M_bind.
  destruct (db_faults w) as [| f0 fs] eqn:Efs.
  { destruct Hf as [Hf | Hf]; discriminate. }
  cbn [head default tail]. destruct f0.
  { eexists. reflexivity. }
  destruct Hf as [Hf | Hf]; [discriminate |].
  unfold Datatypes.id. cbv beta iota. world_fields. rewrite Hrow.
  unfold mbind at 1, M_bind. unfold all_items, next_db_fault.
  unfold mbind at 1, M_bind. world_fields.
  destruct fs as [| f1 fs']; [discriminate |]. injection Hf as ->.
  cbn [head default tail]. unfold Datatypes.id. cbv beta iota. eexists. reflexivity.
Qed.

(** X11: the status update is not undone when the re-read fails.  For an
    authorised, well-formed request on an existing order, if the UPDATE
    succeeds and one of the two reads that follow fails, the answer is 500
    and no event is sent to anyone, yet the order has the new status in
    the store. *)
Theorem updateStatus_persists_despite_500 (authorization : value) (paramId : string)
    (reqBody : value) (s : Session) (oid : Z) (o : Order) (w : World) :
  sessions w !! bearer_token authorization = Some s ->
  (clock w <= expiresAt s)%Z ->
  num_integer (Number_ (VStr paramId)) = Some oid -> (0 < oid)%Z ->
  requested_status reqBody ∈ ORDER_STATUSES ->
  read_order oid (db w) = Some o ->
  no_db_fault 1 w ->
  db_faults w !! 1%nat = Some true ∨ db_faults w !! 2%nat = Some true ->
  ∃ w',
    updateStatus authorization paramId reqBody w
    = (Ok {| statusCode := 500; body := JsonMessage "อัปเดตสถานะไม่สำเร็จ" |}, w') ∧
    read_order oid (db w')
    = Some (with_status (requested_status reqBody) (clock w) o) ∧
    trace w' = trace w.
Proof.
  intros Hs Hv Hn Hpos Hst Ho Hf Hbad.
  destruct (run_clean (UPDATE_status (requested_status reqBody) oid) w
              {| lastID := 0;
                 changes := Z.of_nat (length (matching_orders oid (view (db w)))) |}
              (write_tables (update_status (clock w) (requested_status reqBody) oid)
                 (db w)))
    as (w1 & E1 & H1); [exact Hf | reflexivity |].
  pose proof (after_calls_fields _ _ _ _ H1) as (Hd1 & Hf1 & _ & Ht1 & _).
  assert (read_order oid (db w1)
          = Some (with_status (requested_status reqBody) (clock w) o)) as Ho1.
  { rewrite Hd1, read_order_update_status, decide_True by done. by rewrite Ho. }
  destruct (getOrderById_fault oid w1) as (w2 & Eg).
  { unfold read_order in Ho1. by destruct (select_order oid (db w1)). }
  { rewrite Hf1, !lookup_drop. exact Hbad. }
  pose proof (getOrderById_storage _ _ _ _ Eg) as S2.
  pose proof (getOrderById_same_db _ _ _ _ Eg) as D2. unfold same_db in D2.
  exists w2. split; [| split].
  - unfold updateStatus.
    erewrite bind_ok; [| by apply (authMiddleware_valid _ s)].
    rewrite (status_converts _ Hst). cbv zeta. rewrite Hn.
    rewrite (proj2 (Z.leb_gt _ _)) by lia.
    fold (requested_status reqBody).
    rewrite bool_decide_eq_true_2 by exact Hst. cbn [negb].
    erewrite try_catch_throw; [reflexivity |].
    erewrite bind_ok; [| exact E1]. cbn [changes].
    destruct (Z.eqb_spec (Z.of_nat (length (matching_orders oid (view (db w))))) 0)
      as [Hz | _].
    { apply read_order_matching in Ho.
      destruct (matching_orders oid (view (db w))); [done | simpl in Hz; lia]. }
    by erewrite bind_throw.
  - by rewrite D2.
  - by rewrite (storage_only_trace _ _ S2).
Qed.

(** *** Listing the orders *)

#[global] Instance read_only_preorder : PreOrder read_only.
Proof.
  split.
  - intros w. exists 0%nat. by destruct w.
  - intros w1 w2 w3 [j ->] [k ->]. exists (j + k)%nat. world_eq.
    by rewrite drop_drop.
Qed.














#[global] Instance id_ge_total : Total id_ge.
Proof. intros a b. unfold id_ge. lia. Qed.

#[global] Instance id_ge_trans : Transitive id_ge.
Proof. intros a b c. unfold id_ge. lia. Qed.










Lemma faultless_add (j k : nat) (fs : list bool) :
  faultless (j + k) fs <-> faultless j fs ∧ faultless k (drop j fs).
Proof.
  split.
  - intros H. split; [eapply faultless_le; [| exact H]; lia |].
    by apply faultless_drop.
  - intros [Hj Hk] i Hi. destruct (decide (i < j)%nat) as [Hlt | Hge].
    + by apply Hj.
    + specialize (Hk (i - j)%nat ltac:(lia)). rewrite lookup_drop in Hk.
      by replace (j + (i - j))%nat with i in Hk by lia.
Qed.










(** *** The session store along every execution *)

#[global] Instance sessions_shrink_preorder : PreOrder sessions_shrink.
Proof.
  split.
  - intros w. split; [lia | auto].
  - intros w1 w2 w3 [C12 S12] [C23 S23]. split; [lia | auto].
Qed.

Lemma modify_sessions_shrink (f : World -> World) :
  (∀ w, sessions (f w) = sessions w ∧ clock (f w) = clock w) ->
  respects sessions_shrink (modify f).
Proof.
  intros Hf w r w' E. injection E as _ <-. destruct (Hf w) as [Hs Hc].
  split; [lia |]. intros tok s. by rewrite Hs.
Qed.

Lemma storage_only_sessions_shrink (w w' : World) :
  storage_only w w' -> sessions_shrink w w'.
Proof. intros (d & fs & ->). split; [reflexivity | auto]. Qed.

Lemma getSession_sessions_shrink (tok : string) :
  respects sessions_shrink (getSession tok).
Proof.
  intros w r w' E. rewrite getSession_cases in E.
  destruct (sessions w !! tok) as [s |] eqn:Hs; [| injection E as _ <-; reflexivity].
  destruct (expiresAt s <? clock w)%Z; injection E as _ <-; [| reflexivity].
  split; [reflexivity |]. intros tok' s' H. cbn [sessions set_sessions] in H.
  by apply lookup_delete_Some in H as [_ H].
Qed.

Lemma res_write_sessions_shrink (n : nat) (chunk : Chunk) :
  respects sessions_shrink (res_write n chunk).
Proof.
  intros w r w' E. unfold res_write in E.
  destruct (net_faults w) as [| [] rest]; injection E as _ <-;
    (split; [reflexivity | auto]).
Qed.

Lemma sendSse_sessions_shrink (n : nat) (event : string) (payload : Payload) :
  respects sessions_shrink (sendSse n event payload).
Proof.
  unfold sendSse. apply respects_bind; [apply _ | |].
  - destruct (String.eqb event ""); [apply respects_ret, _ |].
    apply res_write_sessions_shrink.
  - intros _. apply res_write_sessions_shrink.
Qed.

Lemma drop_client_sessions_shrink (c : Client) :
  respects sessions_shrink (sseClients_delete c ;; res_end (cid c)).
Proof.
  apply respects_bind; [apply _ | |]; [| intros _];
    by apply modify_sessions_shrink.
Qed.

Lemma broadcast_sessions_shrink (event : string) (payload : Payload) :
  respects sessions_shrink (broadcast event payload).
Proof.
  intros w r w' E. unfold broadcast in E.
  transitivity (emit (Broadcast event payload) w); [split; [reflexivity | auto] |].
  eapply (respects_for_each sessions_shrink); [| exact E].
  intros c. unfold broadcast_client.
  apply respects_bind; [apply _ | apply getSession_sessions_shrink |].
  intros [s |]; [| apply drop_client_sessions_shrink].
  apply respects_try_catch; [apply _ | | apply drop_client_sessions_shrink].
  apply sendSse_sessions_shrink.
Qed.

Lemma sweep_sessions_shrink (now : Z) : respects sessions_shrink (sweep now).
Proof.
  intros w r w' E. destruct (sweep_effect now w) as (m & E' & Hm).
  rewrite E' in E. injection E as _ <-. split; [reflexivity |].
  intros tok s. cbn [sessions set_sessions]. rewrite Hm.
  destruct (sessions w !! tok) as [s0 |]; [| done].
  by destruct (expiresAt s0 <? now)%Z.
Qed.

Lemma stream_sessions_shrink (query : value) :
  respects sessions_shrink (stream query).
Proof.
  unfold stream. cbv zeta.
  apply respects_bind; [apply _ | apply getSession_sessions_shrink |].
  intros [s |]; [| apply respects_ret, _].
  apply respects_bind; [apply _ | |].
  { intros w r w' E. injection E as _ <-. reflexivity. }
  intros n. apply respects_bind; [apply _ | by apply modify_sessions_shrink |].
  intros _. apply respects_bind; [apply _ | |].
  { intros w r w' E. injection E as _ <-. reflexivity. }
  intros now. apply respects_bind; [apply _ | apply sendSse_sessions_shrink |].
  intros _. apply respects_bind; [apply _ | by apply modify_sessions_shrink |].
  intros _. apply respects_ret, _.
Qed.

(** Every step but a login leaves the session store as it was or smaller. *)
Lemma step_sessions (w w' : World) :
  step w w' ->
  sessions_shrink w w' ∨ ∃ admin tok, w' = (createSession admin tok w).2.
Proof.
  assert (∀ s, respects sessions_shrink (run s)) as Hrun.
  { intros s. eapply respects_weaken;
      [apply storage_only_sessions_shrink | apply run_storage]. }
  assert (∀ oid, respects sessions_shrink (getOrderById oid)) as Hget.
  { intros oid. eapply respects_weaken;
      [apply storage_only_sessions_shrink | apply getOrderById_storage]. }
  intros [reqBody w0 | authorization paramId reqBody w0 | query w0 | c w0
          | w0 | admin tok w0 | authorization w0 | w0 w1 Henv].
  - left. eapply (createOrder_respects sessions_shrink);
      eauto using getSession_sessions_shrink, broadcast_sessions_shrink,
        surjective_pairing.
  - left. eapply (updateStatus_respects sessions_shrink);
      eauto using getSession_sessions_shrink, broadcast_sessions_shrink,
        surjective_pairing.
  - left. eapply stream_sessions_shrink, surjective_pairing.
  - left. unfold closed. destruct (bool_decide _); [| reflexivity].
    apply (modify_sessions_shrink
             (fun w => set_sseClients (set_delete c (sseClients w)) w)
             (fun _ => conj eq_refl eq_refl) w0 (Ok tt)).
    reflexivity.
  - left. unfold interval.
    eapply (respects_bind sessions_shrink); [| | apply surjective_pairing].
    { intros wa ra wb E. injection E as _ <-. reflexivity. }
    intros now. apply respects_bind; [apply _ | apply sweep_sessions_shrink |].
    intros _. apply broadcast_sessions_shrink.
  - right. by exists admin, tok.
  - left. eapply (authMiddleware_respects sessions_shrink);
      eauto using getSession_sessions_shrink, surjective_pairing.
  - left. destruct Henv as (_ & Hs & _ & _ & _ & _ & Hc).
    split; [exact Hc |]. intros tok s. by rewrite Hs.
Qed.

(** X15: no session outlives its twelve hours, and only a login makes one.
    In every world that the server reaches from the empty one, each stored
    session expires at most [SESSION_TTL_MS] after the current time; and a
    step of the server that is no login never adds a session to the store
    nor changes one. *)
Theorem reachable_session_lifetime (w : World) :
  rtc step empty_world w ->
  (∀ tok s, sessions w !! tok = Some s ->
            (expiresAt s <= clock w + SESSION_TTL_MS)%Z) ∧
  (∀ w' tok s, step w w' -> sessions w' !! tok = Some s ->
     sessions w !! tok = Some s ∨
     ∃ admin, w' = (createSession admin tok w).2 ∧
              expiresAt s = (clock w + SESSION_TTL_MS)%Z).
Proof.
  intros Hsteps. split.
  - assert (∀ tok s, sessions empty_world !! tok = Some s ->
                     (expiresAt s <= clock empty_world + SESSION_TTL_MS)%Z) as H0.
    { intros tok s H. cbn [sessions empty_world] in H.
      by rewrite lookup_empty in H. }
    induction Hsteps as [w | w1 w2 w3 H12 _ IH]; [exact H0 |].
    apply IH. intros tok s Hs.
    destruct (step_sessions _ _ H12) as [[Hc Hsub] | (admin & tok' & ->)].
    + specialize (H0 tok s (Hsub _ _ Hs)). lia.
    + cbn [createSession snd sessions set_sessions clock] in *.
      destruct (decide (tok' = tok)) as [-> | Hne].
      * rewrite lookup_insert_eq in Hs. injection Hs as <-. cbn [expiresAt]. lia.
      * rewrite lookup_insert_ne in Hs by done. by apply (H0 tok).
  - intros w' tok s Hstep Hs.
    destruct (step_sessions _ _ Hstep) as [[_ Hsub] | (admin & tok' & ->)];
      [left; by apply Hsub |].
    cbn [createSession snd sessions set_sessions] in Hs.
    destruct (decide (tok' = tok)) as [-> | Hne].
    + rewrite lookup_insert_eq in Hs. injection Hs as <-.
      right. by exists admin.
    + rewrite lookup_insert_ne in Hs by done. by left.
Qed.

(** *** A session from its login to its expiry *)

Lemma modify_keeps_valid (f : World -> World) :
  (∀ w, sessions (f w) = sessions w ∧ clock (f w) = clock w) ->
  respects keeps_valid (modify f).
Proof.
  intros Hf w r w' E. injection E as _ <-. destruct (Hf w) as [Hs Hc].
  split; [exact Hc |]. intros tok s. by rewrite Hs.
Qed.

Lemma storage_only_keeps_valid (w w' : World) :
  storage_only w w' -> keeps_valid w w'.
Proof. intros (d & fs & ->). split; [reflexivity | auto]. Qed.

Lemma getSession_keeps_valid (tok : string) :
  respects keeps_valid (getSession tok).
Proof.
  intros w r w' E. rewrite getSession_cases in E.
  destruct (sessions w !! tok) as [s |] eqn:Hs; [| injection E as _ <-; reflexivity].
  destruct (Z.ltb_spec (expiresAt s) (clock w)) as [Hlt | _];
    injection E as _ <-; [| reflexivity].
  split; [reflexivity |]. intros tok' s' H Hv. cbn [sessions set_sessions].
  rewrite lookup_delete_ne; [exact H |].
  intros <-. rewrite Hs in H. injection H as <-. lia.
Qed.

Lemma res_write_keeps_valid (n : nat) (chunk : Chunk) :
  respects keeps_valid (res_write n chunk).
Proof.
  intros w r w' E. unfold res_write in E.
  destruct (net_faults w) as [| [] rest]; injection E as _ <-;
    (split; [reflexivity | auto]).
Qed.

Lemma sendSse_keeps_valid (n : nat) (event : string) (payload : Payload) :
  respects keeps_valid (sendSse n event payload).
Proof.
  unfold sendSse. apply respects_bind; [apply _ | |].
  - destruct (String.eqb event ""); [apply respects_ret, _ |].
    apply res_write_keeps_valid.
  - intros _. apply res_write_keeps_valid.
Qed.

Lemma drop_client_keeps_valid (c : Client) :
  respects keeps_valid (sseClients_delete c ;; res_end (cid c)).
Proof.
  apply respects_bind; [apply _ | |]; [| intros _];
    by apply modify_keeps_valid.
Qed.

Lemma broadcast_keeps_valid (event : string) (payload : Payload) :
  respects keeps_valid (broadcast event payload).
Proof.
  intros w r w' E. unfold broadcast in E.
  transitivity (emit (Broadcast event payload) w); [split; [reflexivity | auto] |].
  eapply (respects_for_each keeps_valid); [| exact E].
  intros c. unfold broadcast_client.
  apply respects_bind; [apply _ | apply getSession_keeps_valid |].
  intros [s |]; [| apply drop_client_keeps_valid].
  apply respects_try_catch; [apply _ | | apply drop_client_keeps_valid].
  apply sendSse_keeps_valid.
Qed.

Lemma interval_keeps_valid : respects keeps_valid interval.
Proof.
  intros w r w' E. unfold interval, Date_now in E.
  unfold mbind at 1, M_bind in E.
  destruct (sweep_effect (clock w) w) as (m & E' & Hm).
  unfold mbind at 1, M_bind in E. rewrite E' in E.
  transitivity (set_sessions m w).
  - split; [reflexivity |]. intros tok s Hs Hv. cbn [sessions set_sessions].
    rewrite Hm, Hs. by rewrite (proj2 (Z.ltb_ge _ _)) by exact Hv.
  - eapply broadcast_keeps_valid, E.
Qed.

Lemma stream_keeps_valid (query : value) : respects keeps_valid (stream query).
Proof.
  unfold stream. cbv zeta.
  apply respects_bind; [apply _ | apply getSession_keeps_valid |].
  intros [s |]; [| apply respects_ret, _].
  apply respects_bind; [apply _ | |].
  { intros w r w' E. injection E as _ <-. reflexivity. }
  intros n. apply respects_bind; [apply _ | by apply modify_keeps_valid |].
  intros _. apply respects_bind; [apply _ | |].
  { intros w r w' E. injection E as _ <-. reflexivity. }
  intros now. apply respects_bind; [apply _ | apply sendSse_keeps_valid |].
  intros _. apply respects_bind; [apply _ | by apply modify_keeps_valid |].
  intros _. apply respects_ret, _.
Qed.

Lemma interval_sessions_shrink : respects sessions_shrink interval.
Proof.
  unfold interval. apply respects_bind; [apply _ | |].
  { intros wa ra wb E. injection E as _ <-. reflexivity. }
  intros now. apply respects_bind; [apply _ | apply sweep_sessions_shrink |].
  intros _. apply broadcast_sessions_shrink.
Qed.

#[global] Instance session_steady_preorder : PreOrder session_steady.
Proof.
  split.
  - intros w. split; reflexivity.
  - intros w1 w2 w3 [K12 S12] [K23 S23]. split; etransitivity; eauto.
Qed.

Lemma respects_steady {A} (m : M A) :
  respects keeps_valid m -> respects sessions_shrink m -> respects session_steady m.
Proof. intros Hk Hs w r w' E. split; [by eapply Hk | by eapply Hs]. Qed.

Lemma run_steady (s : Stmt) : respects session_steady (run s).
Proof.
  apply respects_steady; (eapply respects_weaken; [| apply run_storage]).
  - apply storage_only_keeps_valid.
  - apply storage_only_sessions_shrink.
Qed.

Lemma getOrderById_steady (oid : Z) : respects session_steady (getOrderById oid).
Proof.
  apply respects_steady; (eapply respects_weaken; [| apply getOrderById_storage]).
  - apply storage_only_keeps_valid.
  - apply storage_only_sessions_shrink.
Qed.

Lemma getSession_steady (tok : string) : respects session_steady (getSession tok).
Proof.
  apply respects_steady;
    [apply getSession_keeps_valid | apply getSession_sessions_shrink].
Qed.

Lemma broadcast_steady (event : string) (payload : Payload) :
  respects session_steady (broadcast event payload).
Proof.
  apply respects_steady;
    [apply broadcast_keeps_valid | apply broadcast_sessions_shrink].
Qed.

Lemma step_other_step (tok : string) (w w' : World) :
  step_other tok w w' -> step w w'.
Proof. intros []; by constructor. Qed.

(** What a step that does not issue [tok] does to the session of [tok]:
    time does not go back, the session is not replaced, and it is kept
    while it is valid. *)
Lemma step_other_session (tok : string) (w w' : World) :
  step_other tok w w' ->
  (clock w <= clock w')%Z ∧
  (∀ s, sessions w' !! tok = Some s -> sessions w !! tok = Some s) ∧
  (∀ s, sessions w !! tok = Some s -> (clock w' <= expiresAt s)%Z ->
        sessions w' !! tok = Some s).
Proof.
  assert (∀ w w', session_steady w w' ->
            (clock w <= clock w')%Z ∧
            (∀ s, sessions w' !! tok = Some s -> sessions w !! tok = Some s) ∧
            (∀ s, sessions w !! tok = Some s -> (clock w' <= expiresAt s)%Z ->
                  sessions w' !! tok = Some s)) as Hk.
  { intros w0 w0' [[Hc Hv] [_ Hsub]]. split; [lia |].
    split; [intros s; apply Hsub |].
    intros s Hs Hle. apply Hv; [exact Hs | lia]. }
  intros [reqBody w0 | authorization paramId reqBody w0 | query w0 | c w0
          | w0 | admin tok' w0 Hne | authorization w0 | w0 w1 Henv].
  - apply Hk. eapply (createOrder_respects session_steady);
      eauto using run_steady, getOrderById_steady, getSession_steady,
        broadcast_steady, surjective_pairing.
  - apply Hk. eapply (updateStatus_respects session_steady);
      eauto using run_steady, getOrderById_steady, getSession_steady,
        broadcast_steady, surjective_pairing.
  - apply Hk. eapply respects_steady;
      [apply stream_keeps_valid | apply stream_sessions_shrink
       | apply surjective_pairing].
  - apply Hk. unfold closed. destruct (bool_decide _); [| reflexivity].
    eapply (respects_steady
              (modify (fun w => set_sseClients (set_delete c (sseClients w)) w)));
      [by apply modify_keeps_valid | by apply modify_sessions_shrink
       | reflexivity].
  - apply Hk. eapply respects_steady;
      [apply interval_keeps_valid | apply interval_sessions_shrink
       | apply surjective_pairing].
  - cbn [createSession snd sessions set_sessions clock].
    split; [lia |]. split.
    + intros s. by rewrite lookup_insert_ne.
    + intros s Hs _. by rewrite lookup_insert_ne.
  - apply Hk. eapply (authMiddleware_respects session_steady);
      eauto using getSession_steady, surjective_pairing.
  - destruct Henv as (_ & Hs & _ & _ & _ & _ & Hc).
    split; [exact Hc |]. rewrite Hs. auto.
Qed.

(** The session of a token along an execution in which the token is not
    drawn again: it is the session of the login or it is gone, and it is
    there as long as it has not expired. *)
Lemma session_along (tok : string) (s : Session) (w w2 : World) :
  sessions w !! tok = Some s ->
  rtc (step_other tok) w w2 ->
  (clock w <= clock w2)%Z ∧
  (sessions w2 !! tok = Some s ∨ sessions w2 !! tok = None) ∧
  ((clock w2 <= expiresAt s)%Z -> sessions w2 !! tok = Some s).
Proof.
  intros Hs Hsteps. revert w2 Hsteps.
  apply (rtc_ind_r (fun w2 =>
           (clock w <= clock w2)%Z ∧
           (sessions w2 !! tok = Some s ∨ sessions w2 !! tok = None) ∧
           ((clock w2 <= expiresAt s)%Z -> sessions w2 !! tok = Some s))).
  - split; [lia |]. split; [by left | done].
  - intros w1 w2 Hrtc Hstep (Hc & Hcases & Hkeep).
    destruct (step_other_session _ _ _ Hstep) as (Hc' & Hsub & Hv).
    split; [lia |]. split.
    + destruct (sessions w2 !! tok) as [s' |] eqn:E; [| by right].
      left. specialize (Hsub _ eq_refl).
      destruct Hcases as [H | H]; rewrite H in Hsub; congruence.
    + intros Hle. apply Hv; [apply Hkeep; lia | exact Hle].
Qed.

(** X23: a token is accepted from its login up to and including
    [SESSION_TTL_MS] later, and refused and deleted after.  Let the token
    be issued at time [clock w] and let the server then run, in any way
    but without drawing the same token again (handlers, the interval
    callback with its sweep, logins with other tokens, time passing).  In
    every world so reached whose clock is at most
    [clock w + SESSION_TTL_MS], [getSession] returns the session of the
    login and changes nothing; in every one whose clock is later, it
    returns nothing and the store has no entry for the token
    afterwards. *)
Theorem issued_session_lifetime (admin : Admin) (tok : string) (w w2 : World) :
  let session := {| adminId := admin_id admin; username := admin_username admin;
                    expiresAt := clock w + SESSION_TTL_MS |} in
  rtc (step_other tok) (createSession admin tok w).2 w2 ->
  ((clock w2 <= clock w + SESSION_TTL_MS)%Z ->
   getSession tok w2 = (Ok (Some session), w2)) ∧
  ((clock w + SESSION_TTL_MS < clock w2)%Z ->
   (getSession tok w2).1 = Ok None ∧
   sessions (getSession tok w2).2 !! tok = None).
Proof.
  intros session Hsteps.
  destruct (session_along tok session _ _ (lookup_insert_eq _ _ _) Hsteps)
    as (_ & Hcases & Hkeep).
  split.
  - intros Hle. apply getSession_valid; [by apply Hkeep | exact Hle].
  - intros Hgt. rewrite getSession_cases.
    destruct Hcases as [H | H]; rewrite H; [| by split].
    cbn [expiresAt session]. rewrite (proj2 (Z.ltb_lt _ _)) by exact Hgt.
    cbn [fst snd sessions set_sessions]. split; [done |].
    apply lookup_delete_eq.
Qed.

(** *** Passwords *)

Lemma Buffer_from_hex_byte (b : ascii) (rest : string) :
  Buffer_from_hex (String.append (hex_of_byte b) rest) = b :: Buffer_from_hex rest.
Proof. destruct b as [[] [] [] [] [] [] [] []]; reflexivity. Qed.

(** Decoding what [toString("hex")] wrote gives the bytes back. *)
Lemma Buffer_from_hex_toString (bytes : list ascii) :
  Buffer_from_hex (toString_hex bytes) = bytes.
Proof.
  induction bytes as [| b bytes IH]; [done |].
  cbn [toString_hex]. by rewrite Buffer_from_hex_byte, IH.
Qed.

Lemma contains_append (c : ascii) (a b : string) :
  contains c (String.append a b) = contains c a || contains c b.
Proof.
  induction a as [| x a IH]; [done |]. simpl.
  by rewrite IH, orb_assoc.
Qed.

Lemma toString_hex_no_dollar (bytes : list ascii) :
  contains "$" (toString_hex bytes) = false.
Proof.
  induction bytes as [| b bytes IH]; [done |].
  cbn [toString_hex]. rewrite contains_append, IH, orb_false_r.
  destruct b as [[] [] [] [] [] [] [] []]; reflexivity.
Qed.

Lemma toString_hex_empty (bytes : list ascii) :
  toString_hex bytes = "" -> bytes = [].
Proof. destruct bytes as [| b rest]; [done |]. discriminate. Qed.

Lemma split_no_sep (c : ascii) (s : string) :
  contains c s = false -> split c s = [s].
Proof.
  induction s as [| x s IH]; [done |]. cbn [contains split].
  destruct (Ascii.eqb x c); [discriminate |]. intros H. by rewrite (IH H).
Qed.

Lemma split_append (c : ascii) (a b : string) :
  contains c a = false ->
  split c (String.append a (String c b)) = a :: split c b.
Proof.
  induction a as [| x a IH]; simpl.
  - intros _. by rewrite Ascii.eqb_refl.
  - destruct (Ascii.eqb x c); [discriminate |]. intros H. by rewrite (IH H).
Qed.

Lemma split_head (c : ascii) (s : string) :
  ∃ p ps, split c s = p :: ps ∧ contains c p = false.
Proof.
  induction s as [| x s (p & ps & E & Hp)]; [by exists "", [] |].
  cbn [split]. destruct (Ascii.eqb x c) eqn:Ex; [by exists "", (split c s) |].
  rewrite E. exists (String x p), ps. split; [done |].
  cbn [contains]. by rewrite Ex, Hp.
Qed.

Section PasswordProperties.

Variable pbkdf2 : string -> string -> list ascii.

Lemma hashPassword_split (password : value) (salt : string) (rb : list ascii) :
  salt ≠ "" -> contains "$" salt = false ->
  split "$" (hashPassword pbkdf2 password (Some salt) rb)
  = [salt; toString_hex (pbkdf2 (String_ (or_else password (VStr ""))) salt)].
Proof.
  intros Hne Hs. unfold hashPassword.
  rewrite (proj2 (String.eqb_neq _ _) Hne). cbv zeta.
  change (String.append "$" ?h) with (String "$"%char h).
  rewrite (split_append _ _ _ Hs).
  by rewrite (split_no_sep _ _ (toString_hex_no_dollar _)).
Qed.

(** What [verifyPassword] computes once the stored value has a salt and a
    hash part. *)
Lemma verifyPassword_parts (attempt : value) (hashed salt expected : string)
    (rest : list string) :
  split "$" hashed = salt :: expected :: rest ->
  verifyPassword pbkdf2 attempt hashed
  = bool_decide (salt ≠ "" ∧ expected ≠ "" ∧
                 Buffer_from_hex expected
                 = pbkdf2 (String_ (or_else attempt (VStr ""))) salt).
Proof.
  intros Hsplit. unfold verifyPassword.
  assert (contains "$" salt = false) as Hs.
  { destruct (split_head "$" hashed) as (p & ps & E & Hp). congruence. }
  assert (hashed ≠ "") as Hh by (by intros ->).
  assert (contains "$" hashed = true) as Hc.
  { destruct (contains "$" hashed) eqn:E; [done |].
    rewrite (split_no_sep _ _ E) in Hsplit. discriminate. }
  rewrite (proj2 (String.eqb_neq _ _) Hh), Hc. cbn [negb orb].
  cbv zeta. rewrite Hsplit. cbn [lookup list_lookup].
  destruct (String.eqb_spec salt "") as [-> | Hsalt].
  { cbn [orb]. symmetry. apply bool_decide_eq_false. by intros [? _]. }
  destruct (String.eqb_spec expected "") as [-> | Hexp].
  { cbn [orb]. symmetry. apply bool_decide_eq_false. by intros (_ & ? & _). }
  cbn [orb]. rewrite (hashPassword_split _ _ _ Hsalt Hs).
  cbn [lookup list_lookup default]. unfold Datatypes.id.
  rewrite Buffer_from_hex_toString.
  destruct (Nat.eqb_spec (length (Buffer_from_hex expected))
              (length (pbkdf2 (String_ (or_else attempt (VStr ""))) salt)))
    as [_ | Hlen]; cbn [negb].
  - apply bool_decide_ext. split; [by intros E | by intros (_ & _ & E)].
  - symmetry. apply bool_decide_eq_false. intros (_ & _ & E). by rewrite E in Hlen.
Qed.

Lemma hashPassword_split_current (password : value) (salt : option string)
    (rb : list ascii) :
  let currentSalt :=
    match salt with
    | Some s => if String.eqb s "" then toString_hex rb else s
    | None => toString_hex rb
    end in
  contains "$" currentSalt = false ->
  split "$" (hashPassword pbkdf2 password salt rb)
  = [currentSalt;
     toString_hex (pbkdf2 (String_ (or_else password (VStr ""))) currentSalt)].
Proof.
  intros cs Hs. unfold hashPassword. fold cs. cbv zeta.
  change (String.append "$" ?h) with (String "$"%char h).
  rewrite (split_append _ _ _ Hs).
  by rewrite (split_no_sep _ _ (toString_hex_no_dollar _)).
Qed.

(** X16: verifying against what [hashPassword] returned.  When the salt in
    use (the given one, or the hexadecimal form of the random bytes when
    none is given) is not empty and has no dollar sign, and the derived key
    of the password is not empty, then [verifyPassword] accepts the
    password that was hashed, and it accepts another value exactly when
    that value has the same derived key under this salt. *)
Theorem verifyPassword_hashPassword (password attempt : value)
    (salt : option string) (rb : list ascii) :
  let currentSalt :=
    match salt with
    | Some s => if String.eqb s "" then toString_hex rb else s
    | None => toString_hex rb
    end in
  currentSalt ≠ "" -> contains "$" currentSalt = false ->
  pbkdf2 (String_ (or_else password (VStr ""))) currentSalt ≠ [] ->
  verifyPassword pbkdf2 password (hashPassword pbkdf2 password salt rb) = true ∧
  (verifyPassword pbkdf2 attempt (hashPassword pbkdf2 password salt rb) = true <->
   pbkdf2 (String_ (or_else attempt (VStr ""))) currentSalt
   = pbkdf2 (String_ (or_else password (VStr ""))) currentSalt).
Proof.
  intros cs Hne Hs Hkey.
  pose proof (hashPassword_split_current password salt rb Hs) as Hsplit.
  fold cs in Hsplit.
  assert (toString_hex (pbkdf2 (String_ (or_else password (VStr ""))) cs) ≠ "")
    as Hhash by (intros E; by apply toString_hex_empty in E).
  split.
  - rewrite (verifyPassword_parts _ _ _ _ _ Hsplit). apply bool_decide_eq_true.
    by rewrite Buffer_from_hex_toString.
  - rewrite (verifyPassword_parts _ _ _ _ _ Hsplit), bool_decide_eq_true.
    rewrite Buffer_from_hex_toString. split; [by intros (_ & _ & <-) | by intros ->].
Qed.

(** X17: whatever is stored, [verifyPassword] accepts a password only if
    the stored value has a non-empty salt before its first dollar sign and,
    after it, a non-empty part whose hexadecimal digits decode to exactly
    the derived key of the password under that salt; it accepts whenever
    that is so. *)
Theorem verifyPassword_accepts_iff (attempt : value) (hashed : string) :
  verifyPassword pbkdf2 attempt hashed = true <->
  ∃ salt expected rest,
    split "$" hashed = salt :: expected :: rest ∧ salt ≠ "" ∧ expected ≠ "" ∧
    Buffer_from_hex expected = pbkdf2 (String_ (or_else attempt (VStr ""))) salt.
Proof.
  split.
  - intros Hv.
    destruct (split "$" hashed) as [| salt [| expected rest]] eqn:E.
    + unfold verifyPassword in Hv. rewrite E in Hv.
      by destruct (_ || _) in Hv.
    + unfold verifyPassword in Hv. rewrite E in Hv.
      by destruct (_ || _) in Hv.
    + rewrite (verifyPassword_parts _ _ _ _ _ E) in Hv.
      apply bool_decide_eq_true in Hv. by exists salt, expected, rest.
  - intros (salt & expected & rest & E & H).
    rewrite (verifyPassword_parts _ _ _ _ _ E). by apply bool_decide_eq_true.
Qed.

(** *** Login *)

Lemma get_admin_cases (admins : list AdminRow) (name : string) (w : World) :
  get_admin admins name w
  = (if bool_decide (head (db_faults w) = Some true) then Throw
     else Ok (head (filter (fun a => a_username a = name) admins)),
     set_db_faults (tail (db_faults w)) w).
Proof.
  unfold get_admin, next_db_fault. unfold mbind, M_bind.
  by destruct (db_faults w) as [| [] ?].
Qed.

(** X18: [POST /api/admin/login] throws, before its [try] and with the
    world untouched, exactly when the conversion of the body's [username]
    or [password] throws; in every other case it answers.  It creates a
    session only when it answers with a token: then the user name and the
    password of the request are not empty, the [admins] table has a row for that user
    name whose stored hash [verifyPassword] accepts, and the session store
    gains exactly one session, for that admin and token, expiring
    [SESSION_TTL_MS] after now.  Every refusal is a 400, 401 or 500 that
    leaves the session store as it was.  In no case do the tables, the
    subscribers or the trace change. *)
Theorem login_answers (admins : list AdminRow) (tok : string) (reqBody : value)
    (w : World) :
  let username := sanitizeText (and_prop reqBody "username") 80 in
  let password := String_ (or_else (and_prop reqBody "password") (VStr "")) in
  (login_throws reqBody = true ∧
   login pbkdf2 admins tok reqBody w = (Throw, w)) ∨
  (login_throws reqBody = false ∧
   ∃ ans w',
     login pbkdf2 admins tok reqBody w = (Ok ans, w') ∧
     db w' = db w ∧ sseClients w' = sseClients w ∧ trace w' = trace w ∧
     clock w' = clock w ∧
     match ans with
     | LoginOk m t adm ttl =>
         t = tok ∧ ttl = SESSION_TTL_MS ∧ username ≠ "" ∧ password ≠ "" ∧
         (∃ row, row ∈ admins ∧ a_username row = username ∧
                 adm = {| admin_id := a_id row; admin_username := a_username row |} ∧
                 verifyPassword pbkdf2 (VStr password) (a_password_hash row) = true) ∧
         sessions w'
         = <[tok := {| adminId := admin_id adm; username := admin_username adm;
                       expiresAt := clock w + SESSION_TTL_MS |}]> (sessions w)
     | LoginRefused r =>
         sessions w' = sessions w ∧
         (statusCode r = 400 ∨ statusCode r = 401 ∨ statusCode r = 500)%Z
     end).
Proof.
  cbv zeta. unfold login. cbv zeta.
  destruct (login_throws reqBody); [left; done | right; split; [done |]].
  destruct (String.eqb_spec (sanitizeText (and_prop reqBody "username") 80) "")
    as [Hu | Hu].
  { eexists _, w. split; [reflexivity |]. cbn [statusCode]. auto 10. }
  destruct (String.eqb_spec
              (String_ (or_else (and_prop reqBody "password") (VStr ""))) "")
    as [Hp | Hp].
  { eexists _, w. split; [reflexivity |]. cbn [statusCode]. auto 10. }
  cbn [orb].
  pose proof (get_admin_cases admins
                (sanitizeText (and_prop reqBody "username") 80) w) as Eg.
  case_bool_decide as Hf.
  { eexists _, _. split.
    { erewrite try_catch_throw; [reflexivity |]. by erewrite bind_throw. }
    cbn [statusCode]. auto 10. }
  destruct (head (filter _ admins)) as [row |] eqn:Hrow.
  2:{ eexists _, _. split.
      { erewrite try_catch_ok; [reflexivity |]. erewrite bind_ok; [| exact Eg].
        reflexivity. }
      cbn [statusCode]. auto 10. }
  destruct (verifyPassword pbkdf2
              (VStr (String_ (or_else (and_prop reqBody "password") (VStr ""))))
              (a_password_hash row)) eqn:Hv.
  2:{ eexists _, _. split.
      { erewrite try_catch_ok; [reflexivity |]. erewrite bind_ok; [| exact Eg].
        cbv beta iota. rewrite Hv. reflexivity. }
      cbn [statusCode]. auto 10. }
  assert (row ∈ filter (fun a => a_username a
                                 = sanitizeText (and_prop reqBody "username") 80)
                       admins) as Hin.
  { destruct (filter _ admins); [discriminate |]. injection Hrow as ->. by left. }
  apply list_elem_of_filter in Hin as [Hname Hin].
  eexists _, _. split.
  { erewrite try_catch_ok; [reflexivity |]. erewrite bind_ok; [| exact Eg].
    cbv beta iota. rewrite Hv. cbn [negb]. cbv zeta. reflexivity. }
  repeat split; try done. by exists row.
Qed.

Lemma bearer_token_of_header (tok : string) :
  trim tok = tok -> bearer_token (VStr (String.append "Bearer " tok)) = tok.
Proof.
  intros Ht. unfold bearer_token. cbv zeta.
  change (String_ (or_else (VStr (String.append "Bearer " tok)) (VStr "")))
    with (String.append "Bearer " tok).
  assert (startsWith "Bearer " (String.append "Bearer " tok) = true) as ->.
  { unfold startsWith. simpl. by destruct tok. }
  exact Ht.
Qed.

(** X19: a login that the stored hash accepts succeeds, and its token opens
    the protected routes for twelve hours.  When neither conversion of the
    request throws, the request names a user of the [admins] table with a
    password that [verifyPassword] accepts for the stored hash, and the one
    storage call does not fail, [login] answers with the token.  Let the
    server then run in any way but without drawing the same token again
    (handlers, the interval callback with its sweep, logins with other
    tokens, time passing): in every world so reached whose clock is at most
    [SESSION_TTL_MS] after the login, [authMiddleware] lets a request with
    the header [Bearer <token>] pass as that admin, provided the token has
    no white space around it. *)
Theorem login_token_is_accepted (admins : list AdminRow) (tok : string)
    (reqBody : value) (row : AdminRow) (w : World) :
  let username := sanitizeText (and_prop reqBody "username") 80 in
  let password := String_ (or_else (and_prop reqBody "password") (VStr "")) in
  let adm := {| admin_id := a_id row; admin_username := a_username row |} in
  login_throws reqBody = false ->
  username ≠ "" -> password ≠ "" ->
  head (filter (fun a => a_username a = username) admins) = Some row ->
  verifyPassword pbkdf2 (VStr password) (a_password_hash row) = true ->
  no_db_fault 1 w ->
  trim tok = tok ->
  ∃ w',
    login pbkdf2 admins tok reqBody w
    = (Ok (LoginOk "เข้าสู่ระบบสำเร็จ" tok adm SESSION_TTL_MS), w') ∧
    ∀ w2, rtc (step_other tok) w' w2 ->
      (clock w2 <= clock w + SESSION_TTL_MS)%Z ->
      authMiddleware (VStr (String.append "Bearer " tok)) w2
      = (Ok (inr {| adminId := a_id row; username := a_username row;
                    expiresAt := clock w + SESSION_TTL_MS |}),
         w2).
Proof.
  intros username password adm Hth Hu Hp Hrow Hv Hf Htok.
  pose proof (get_admin_cases admins username w) as Eg.
  rewrite bool_decide_eq_false_2 in Eg by (by eapply faultless_head).
  rewrite Hrow in Eg.
  eexists. split.
  - unfold login. rewrite Hth. cbv zeta. fold username. fold password.
    rewrite (proj2 (String.eqb_neq _ _) Hu), (proj2 (String.eqb_neq _ _) Hp).
    cbn [orb].
    erewrite try_catch_ok; [reflexivity |]. erewrite bind_ok; [| exact Eg].
    cbv beta iota. rewrite Hv. cbn [negb]. cbv zeta. reflexivity.
  - intros w2 Hsteps Hle.
    destruct (session_along tok
                {| adminId := a_id row; username := a_username row;
                   expiresAt := clock w + SESSION_TTL_MS |} _ _
                (lookup_insert_eq _ _ _) Hsteps) as (_ & _ & Hkeep).
    apply authMiddleware_valid.
    + rewrite (bearer_token_of_header _ Htok). by apply Hkeep.
    + exact Hle.
Qed.

End PasswordProperties.

(** *** Text and numbers of a request *)

Lemma trimStart_cases (s : string) :
  (trimStart s = "" ∧ all_ws s = true) ∨
  (∃ c rest, trimStart s = String c rest ∧ is_ws c = false ∧ all_ws s = false).
Proof.
  induction s as [| x s IH]; [by left |]. cbn [trimStart all_ws].
  destruct (is_ws x) eqn:Ex; [exact IH |].
  right. by exists x, s.
Qed.

Lemma trimEnd_cases (c : ascii) (rest : string) :
  is_ws c = false -> ∃ rest', trimEnd (String c rest) = String c rest'.
Proof.
  intros Hc. cbn [trimEnd]. rewrite Hc.
  destruct (trimEnd rest); by eexists.
Qed.

Lemma trimEnd_length (s : string) : (String.length (trimEnd s) <= String.length s)%nat.
Proof.
  induction s as [| x s IH]; [done |]. cbn [trimEnd].
  destruct (trimEnd s) as [| y r]; [destruct (is_ws x) |]; simpl in *; lia.
Qed.

Lemma slice0_all (n : nat) (s : string) :
  (String.length s <= n)%nat -> slice0 n s = s.
Proof.
  revert s. induction n as [| n IH]; intros [| x s] H; simpl in *; try done; [lia |].
  rewrite IH; [done | lia].
Qed.

Lemma sanitizeText_VStr (s : string) (maxLen : nat) :
  sanitizeText (VStr s) maxLen
  = match maxLen with O => trim s | _ => slice0 maxLen (trim s) end.
Proof.
  unfold sanitizeText, or_else. cbn [truthy].
  by destruct (String.eqb_spec s "") as [-> |].
Qed.

(** X20: [sanitizeText] on a string.  The result is empty exactly when the
    string is empty or white space only; otherwise it begins with the
    first character of the string that is no white space.  With a limit
    it has at most that many characters, and it is the trimmed string
    itself when that fits. *)
Theorem sanitizeText_string (s : string) (maxLen : nat) :
  (sanitizeText (VStr s) maxLen = "" <-> all_ws s = true) ∧
  (∀ c rest, sanitizeText (VStr s) maxLen = String c rest -> is_ws c = false) ∧
  (maxLen ≠ O -> (String.length (sanitizeText (VStr s) maxLen) <= maxLen)%nat) ∧
  ((String.length (trim s) <= maxLen)%nat -> sanitizeText (VStr s) maxLen = trim s).
Proof.
  rewrite sanitizeText_VStr.
  assert ((trim s = "" ∧ all_ws s = true) ∨
          (∃ c rest, trim s = String c rest ∧ is_ws c = false ∧ all_ws s = false))
    as Htrim.
  { unfold trim. destruct (trimStart_cases s) as [[-> Hw] | (c & rest & -> & Hc & Hw)].
    - by left.
    - right. destruct (trimEnd_cases c rest Hc) as [rest' ->]. by exists c, rest'. }
  split; [| split; [| split]].
  - destruct Htrim as [[-> Hw] | (c & rest & -> & Hc & Hw)].
    + by destruct maxLen.
    + rewrite Hw. by destruct maxLen.
  - intros c rest. destruct Htrim as [[-> Hw] | (c0 & rest0 & -> & Hc & Hw)].
    + by destruct maxLen.
    + destruct maxLen; simpl; intros E; by injection E as <- _.
  - intros Hn. destruct maxLen; [done |]. apply slice0_length.
  - intros Hlen. destruct maxLen; [done |]. by apply slice0_all.
Qed.

Lemma Math_max_of_Z (a b : Z) :
  Math_max (num_of_Z a) (num_of_Z b) = num_of_Z (Z.max a b).
Proof.
  change (Math_max (num_of_Z a) (num_of_Z b))
    with (if num_ltb (num_of_Z a) (num_of_Z b) then num_of_Z b else num_of_Z a).
  rewrite num_ltb_of_Z. destruct (Z.ltb_spec a b); f_equal; lia.
Qed.

Lemma Math_min_of_Z (a b : Z) :
  Math_min (num_of_Z a) (num_of_Z b) = num_of_Z (Z.min a b).
Proof.
  change (Math_min (num_of_Z a) (num_of_Z b))
    with (if num_ltb (num_of_Z b) (num_of_Z a) then num_of_Z b else num_of_Z a).
  rewrite num_ltb_of_Z. destruct (Z.ltb_spec b a); f_equal; lia.
Qed.

Lemma Qfloor_half_zero (x : Q) : Qeq_bool x 0 = true -> Qfloor (x + (1 # 2)) = 0%Z.
Proof.
  intros H. apply Qeq_bool_eq in H.
  assert (x + (1 # 2) == 1 # 2)%Q as E by (rewrite H; reflexivity).
  by rewrite (Qfloor_comp _ _ E).
Qed.

(** X21: the numbers of a normalised item, in closed form.  A price that
    converts to a finite number [x] becomes [max 0 (floor (x + 1/2))], a
    quantity [max 1 (min 99 (floor (x + 1/2)))]; what converts to [NaN]
    becomes price 0 and quantity 1; [+Infinity] stays an infinite price and
    becomes quantity 99; [-Infinity] becomes price 0 and quantity 1. *)
Theorem normalizeItem_numbers (item : value) :
  price (normalizeItem item)
  = match Number_ (and_prop item "price") with
    | Fin x => num_of_Z (Z.max 0 (Qfloor (x + (1 # 2))))
    | PInf => PInf
    | NaN | NInf => num_of_Z 0
    end ∧
  qty (normalizeItem item)
  = match Number_ (and_prop item "qty") with
    | Fin x => num_of_Z (Z.max 1 (Z.min 99 (Qfloor (x + (1 # 2)))))
    | PInf => num_of_Z 99
    | NaN | NInf => num_of_Z 1
    end.
Proof.
  unfold normalizeItem. cbn [price qty]. split.
  - destruct (Number_ (and_prop item "price")) as [| | | x]; try reflexivity.
    unfold num_or, num_truthy. destruct (Qeq_bool x 0) eqn:E; cbn [negb].
    + change (Math_round (num_of_Z 0)) with (num_of_Z 0).
      by rewrite (Qfloor_half_zero _ E), Math_max_of_Z.
    + cbn [Math_round]. by rewrite Math_max_of_Z.
  - destruct (Number_ (and_prop item "qty")) as [| | | x]; try reflexivity.
    unfold num_or, num_truthy. destruct (Qeq_bool x 0) eqn:E; cbn [negb].
    + change (Math_round (num_of_Z 1)) with (num_of_Z 1).
      by rewrite (Qfloor_half_zero _ E), Math_min_of_Z, Math_max_of_Z.
    + cbn [Math_round]. by rewrite Math_min_of_Z, Math_max_of_Z.
Qed.

(** X22: what normalisation guarantees, when none of its conversions
    throws.  No more items come out than the
    array holds; every item that comes out has a name that is not empty and
    has at most 120 characters, an image of at most 2048 characters, a
    quantity that is an integer from 1 to 99, and a price that is a
    non-negative integer or [+Infinity]; and when no price is infinite and
    the exact sum of price times quantity is at most 2^53, the total that
    the handler computes in binary64 is that exact sum, without rounding. *)
Theorem normalizeItems_guarantees (its : value) :
  normalizeItems_throws its = false ->
  (length (normalizeItems its)
   <= match its with VArr l => length l | _ => O end)%nat ∧
  (∀ it, it ∈ normalizeItems its ->
     name it ≠ "" ∧ (String.length (name it) <= 120)%nat ∧
     (String.length (image it) <= 2048)%nat ∧
     (price it = PInf ∨ ∃ p, (0 <= p)%Z ∧ price it = num_of_Z p) ∧
     (∃ q, (1 <= q <= 99)%Z ∧ qty it = num_of_Z q)) ∧
  ((∀ it, it ∈ normalizeItems its -> price it ≠ PInf) ->
   (exact_total (normalizeItems its) <= 2 ^ 53)%Z ->
   order_total (normalizeItems its) = num_of_Z (exact_total (normalizeItems its)) ∧
   (0 <= exact_total (normalizeItems its))%Z).
Proof.
  intros _. split; [| split].
  - destruct its; try (cbn; lia). rewrite normalizeItems_drops_blank.
    etrans; [apply length_filter |]. by rewrite length_map.
  - intros it Hit.
    destruct (normalizeItems_bounds _ _ Hit) as (Hn & Hl & Hp & Hq).
    apply normalizeItems_elem in Hit as (_ & l & raw & -> & _ & ->).
    repeat split; try done. unfold normalizeItem. cbn [image].
    apply (sanitizeText_length _ 2048). lia.
  - apply normalizeItems_total.
Qed.

End Handlers.

(** ** Closed instances *)

(** C3 at the boundary: at [now = expiresAt] the session is still returned
    and kept. *)
Lemma getSession_boundary_counterexample :
  sessions (world_with_session 1000) !! "tok" = Some (session_until 1000) ∧
  clock (world_with_session 1000) = expiresAt (session_until 1000) ∧
  getSession "tok" (world_with_session 1000)
  = (Ok (Some (session_until 1000)), world_with_session 1000) ∧
  (getSession "tok" (world_with_session 1000)).1 ≠ Ok None.
Proof. vm_compute. repeat split. discriminate. Qed.

Lemma getSession_expiry_witness :
  sessions (world_with_session 999) !! "tok" = Some (session_until 999) ∧
  (getSession "tok" (world_with_session 999)).1 = Ok None.
Proof.
  assert (sessions (world_with_session 999) !! "tok" = Some (session_until 999)) as H
    by (vm_compute; reflexivity).
  split; [exact H |].
  apply (proj1 (getSession_expiry "tok" (session_until 999) (world_with_session 999) H)).
  vm_compute. reflexivity.
Defined.

(** C8 at the boundary: a session with [expiresAt = now] survives the
    sweep. *)
Lemma sweep_boundary_counterexample :
  sessions (world_with_session 1000) !! "tok" = Some (session_until 1000) ∧
  expiresAt (session_until 1000) = 1000%Z ∧
  sessions (sweep 1000 (world_with_session 1000)).2 !! "tok"
  = Some (session_until 1000).
Proof. vm_compute. repeat split. Qed.

Lemma sweep_deletes_strictly_expired_witness :
  ∃ m, sweep 1000 (world_with_session 999) = (Ok tt, set_sessions m (world_with_session 999)) ∧
       m !! "tok" = None.
Proof.
  destruct (sweep_deletes_strictly_expired 1000 (world_with_session 999))
    as (m & E & Hdel & _).
  exists m. split; [exact E |].
  apply (Hdel "tok" (session_until 999)); vm_compute; reflexivity.
Defined.

Lemma createOrder_no_items_witness :
  createOrder String_of_simple Number_of_decimal body_unconvertible_empty empty_world
  = (Throw, empty_world) ∧
  createOrder String_of_simple Number_of_decimal body_blank_names empty_world
  = (Ok response_400_no_items, empty_world).
Proof.
  split.
  - apply (proj1 (createOrder_no_items String_of_simple Number_of_decimal)
             empty_world).
  - refine (proj1 (proj2 (createOrder_no_items String_of_simple Number_of_decimal)
                     body_blank_names empty_world _)).
    vm_compute; reflexivity.
Defined.
Lemma createOrder_items_not_array_witness :
  createOrder String_of_simple Number_of_decimal body_unconvertible_no_array empty_world
  = (Throw, empty_world) ∧
  createOrder String_of_simple Number_of_decimal body_items_string empty_world
  = createOrder String_of_simple Number_of_decimal (VObj [("items", VArr [])]) empty_world.
Proof.
  split.
  - apply (proj1 (createOrder_items_not_array String_of_simple Number_of_decimal)
             empty_world).
  - refine (proj2 (proj2 (proj2 (proj2
              (createOrder_items_not_array String_of_simple Number_of_decimal)
              body_items_string empty_world _))) _);
      vm_compute; reflexivity.
Defined.

Lemma db_wf_empty (fs : list bool) : db_wf (db (world_with_faults fs)).
Proof.
  split; [| intros t H; discriminate H].
  split; intros x Hx; cbn in Hx; by apply elem_of_nil in Hx.
Defined.

Lemma createOrder_error_after_commit_witness :
  let w := world_with_faults [false; false; false; false; false; true] in
  let r := createOrder String_of_simple Number_of_decimal body_two_items w in
  r.1 = Ok response_500 ∧
  trace r.2 = [] ∧
  read_order 1 (db w) = None ∧
  ∃ order, read_order 1 (db r.2) = Some order ∧
           map iv_name (items order) = ["Pad Thai"; "Tea"] ∧
           total order = num_of_Z 135.
Proof.
  intros w r.
  destruct (createOrder_error_after_commit String_of_simple Number_of_decimal
              body_two_items w [])
    as (w1 & w2 & _ & _ & _ & _ & Hr & _ & Ht & Hb & Ha & _).
  - reflexivity.
  - vm_compute. discriminate.
  - apply db_wf_empty.
  - reflexivity.
  - vm_compute. reflexivity.
  - split; [exact Hr |]. split; [exact Ht |]. split; [exact Hb |].
    exists (requested_order String_of_simple Number_of_decimal body_two_items w).
    split; [exact Ha |]. vm_compute. split; reflexivity.
Defined.


Lemma hub_wf_world_with_subscriber (t : Z) : hub_wf (world_with_subscriber t).
Proof.
  split.
  - apply NoDup_singleton.
  - intros c Hc. apply list_elem_of_singleton in Hc as ->. simpl. lia.
Defined.

Lemma broadcast_prunes_invalid_subscriber_witness :
  let w := world_with_subscriber 999 in
  let w1 := (broadcast "order" (POrder "order_created" None) w).2 in
  ¬ live 0 w1 ∧
  ∀ w2, rtc (step String_of_simple Number_of_decimal) w1 w2 ->
    ¬ live 0 w2 ∧ received 0 (trace w2) = [].
Proof.
  intros w w1.
  destruct (broadcast_prunes_invalid_subscriber String_of_simple Number_of_decimal
              subscriber0 w w1) as (Hdead & _ & Hlater).
  - apply hub_wf_world_with_subscriber.
  - by left.
  - vm_compute. reflexivity.
  - left. by eexists _, _.
  - split; [exact Hdead | exact Hlater].
Defined.

(** C6 at the boundary: a subscriber whose session has [expiresAt = now]
    is kept by the broadcast, and by the interval callback, and is sent the
    event. *)
Lemma broadcast_boundary_counterexample :
  let w := world_with_subscriber 1000 in
  let w1 := (broadcast "order" (POrder "order_created" None) w).2 in
  let w2 := (interval w).2 in
  subscriber0 ∈ sseClients w ∧
  sessions w !! token subscriber0 = Some (session_until 1000) ∧
  clock w = expiresAt (session_until 1000) ∧
  sseClients w1 = [subscriber0] ∧
  received 0 (trace w1)
  = [EventLine "order"; DataLine (POrder "order_created" None)] ∧
  ended 0 (trace w1) = 0%nat ∧
  sseClients w2 = [subscriber0] ∧
  received 0 (trace w2) = [EventLine "ping"; DataLine (PPing 1000)] ∧
  ended 0 (trace w2) = 0%nat.
Proof. vm_compute. repeat split. by left. Qed.

(** C7 where it fails: the handshake write throws, and the subscriber is in
    the live set although no handshake was ever written to it. *)
Lemma stream_handshake_counterexample :
  let r := stream String_of_simple query_tok
             (set_net_faults [true] (world_with_session 5000)) in
  r.1 = Throw ∧
  sseClients r.2 = [subscriber0] ∧
  received 0 (trace r.2) = [].
Proof. vm_compute. repeat split. Qed.

Lemma stream_registers_then_greets_witness :
  let w := world_with_session 5000 in
  subscriber0 ∈ sseClients (stream String_of_simple query_tok w).2 ∧
  ∃ r fs new,
    sendSse 0 "ready" (PReady 1000) (world_with_subscriber 5000)
    = (r, set_net_faults fs (emits new (world_with_subscriber 5000))) ∧
    r = Ok tt ∧
    new = [Write 0 (EventLine "ready"); Write 0 (DataLine (PReady 1000))].
Proof.
  intros w.
  destruct (stream_registers_then_greets String_of_simple Number_of_decimal
              query_tok (session_until 5000) w)
    as (r & fs & new & Esend & _ & Hin & Hok).
  - vm_compute. reflexivity.
  - vm_compute. discriminate.
  - split; [exact Hin |]. exists r, fs, new.
    destruct Hok as [Hr Hn].
    + intros i Hi. vm_compute. by destruct i.
    + split; [exact Esend | split; [exact Hr | exact Hn]].
Defined.

Lemma broadcast_delivers_or_drops_witness :
  let w := world_with_subscriber 5000 in
  ∃ new,
    trace (broadcast "ping" (PPing 1000) w).2
    = trace w ++ Broadcast "ping" (PPing 1000) :: new ∧
    ((subscriber0 ∈ sseClients (broadcast "ping" (PPing 1000) w).2 ∧
      session_valid "tok" (broadcast "ping" (PPing 1000) w).2 ∧
      received 0 new = event_chunks "ping" (PPing 1000) ∧ ended 0 new = O) ∨
     (¬ live 0 (broadcast "ping" (PPing 1000) w).2 ∧ ended 0 new = 1%nat ∧
      ∃ k, (k < length (event_chunks "ping" (PPing 1000)))%nat ∧
           received 0 new = take k (event_chunks "ping" (PPing 1000)))).
Proof.
  intros w.
  apply (broadcast_delivers_or_drops Number_of_decimal "ping" (PPing 1000)
           subscriber0 w).
  - apply hub_wf_world_with_subscriber.
  - by left.
Defined.

Lemma broadcast_leaves_valid_subscribers_witness :
  let w := world_with_subscriber 5000 in
  subscriber0 ∈ sseClients w ∧ session_valid "tok" (interval w).2.
Proof.
  intros w.
  apply (broadcast_leaves_valid_subscribers Number_of_decimal subscriber0 w
           (interval w).2).
  - apply hub_wf_world_with_subscriber.
  - by right.
  - vm_compute. by left.
Defined.

Lemma broadcast_delivers_to_all_witness :
  let w := world_with_subscriber 5000 in
  ∃ fs, (true ∉ fs) ∧
    broadcast "ping" (PPing 1000) w
    = (Ok tt,
       set_net_faults fs
         (emits [Broadcast "ping" (PPing 1000); Write 0 (EventLine "ping");
                 Write 0 (DataLine (PPing 1000))] w)).
Proof.
  intros w.
  apply (broadcast_delivers_to_all "ping" (PPing 1000) w).
  - vm_compute. apply not_elem_of_nil.
  - intros c Hc. apply list_elem_of_singleton in Hc as ->.
    exists (session_until 5000). split; [vm_compute; reflexivity |].
    vm_compute. discriminate.
Defined.

Lemma stream_rejects_invalid_token_witness :
  let w := world_with_session 999 in
  (stream String_of_simple query_tok w).1
  = Ok {| statusCode := 401; body := Text "Unauthorized" |} ∧
  sseClients (stream String_of_simple query_tok w).2 = sseClients w ∧
  next_cid (stream String_of_simple query_tok w).2 = next_cid w ∧
  on_close (stream String_of_simple query_tok w).2 = on_close w ∧
  db (stream String_of_simple query_tok w).2 = db w ∧
  trace (stream String_of_simple query_tok w).2 = trace w.
Proof.
  intros w. apply (stream_rejects_invalid_token String_of_simple query_tok w).
  vm_compute. reflexivity.
Defined.

Lemma closed_unregisters_for_good_witness :
  let w := world_with_listener in
  ¬ live 0 (closed subscriber0 w).2 ∧
  trace (closed subscriber0 w).2 = trace w ∧
  ∀ w2, rtc (step String_of_simple Number_of_decimal) (closed subscriber0 w).2 w2 ->
    ¬ live 0 w2 ∧ received 0 (trace w2) = received 0 (trace w).
Proof.
  intros w.
  apply (closed_unregisters_for_good String_of_simple Number_of_decimal
           subscriber0 w).
  - split; [apply NoDup_singleton |].
    intros c Hc. apply list_elem_of_singleton in Hc as ->. simpl. lia.
  - by left.
  - by left.
Defined.

Lemma reachable_orders_consistent_witness :
  db_consistent
    (db (createOrder String_of_simple Number_of_decimal body_two_items empty_world).2).
Proof.
  apply (reachable_orders_consistent String_of_simple Number_of_decimal).
  apply rtc_once, step_createOrder.
Defined.

Lemma createOrder_succeeds_witness :
  ∃ w',
    createOrder String_of_simple Number_of_decimal body_two_items empty_world
    = (Ok {| statusCode := 201;
             body := JsonCreated "สร้างออเดอร์สำเร็จ" 1 (num_of_Z 135) |}, w') ∧
    length (order_items (committed (db w'))) = 2%nat ∧
    pending (db w') = None.
Proof.
  destruct (createOrder_succeeds String_of_simple Number_of_decimal
              body_two_items empty_world) as (w' & E & Hd & _).
  - reflexivity.
  - vm_compute. discriminate.
  - reflexivity.
  - intros i _. vm_compute. discriminate.
  - exists w'. split; [exact E |]. rewrite Hd. split; reflexivity.
Defined.


Lemma updateStatus_persists_despite_500_witness :
  let w := set_db_faults [false; true]
             (createOrder String_of_simple Number_of_decimal body_two_items
                (world_with_session 5000)).2 in
  ∃ w' o,
    updateStatus String_of_simple Number_of_decimal (VStr "Bearer tok") "1"
      body_served w
    = (Ok {| statusCode := 500; body := JsonMessage "อัปเดตสถานะไม่สำเร็จ" |}, w') ∧
    read_order 1 (db w') = Some o ∧ status o = "served" ∧ trace w' = trace w.
Proof.
  intros w.
  destruct (read_order 1 (db w)) as [o |] eqn:Ho; [| vm_compute in Ho; discriminate].
  destruct (updateStatus_persists_despite_500 String_of_simple Number_of_decimal
              (VStr "Bearer tok") "1" body_served (session_until 5000) 1 o w)
    as (w' & E & Hr & Ht).
  - vm_compute. reflexivity.
  - vm_compute. discriminate.
  - vm_compute. reflexivity.
  - lia.
  - apply (bool_decide_unpack _). vm_compute. exact I.
  - exact Ho.
  - intros i Hi. destruct i; [vm_compute; discriminate | lia].
  - left. reflexivity.
  - exists w', (with_status (requested_status String_of_simple body_served)
                  (clock w) o).
    split; [exact E |]. split; [exact Hr |]. split; [vm_compute; reflexivity | exact Ht].
Defined.



Lemma reachable_session_lifetime_witness :
  ∃ s, sessions world_after_login !! "tok" = Some s ∧
       (expiresAt s <= clock world_after_login + SESSION_TTL_MS)%Z.
Proof.
  exists {| adminId := 1; username := "admin"; expiresAt := 1000 + SESSION_TTL_MS |}.
  split; [vm_compute; reflexivity |].
  apply (proj1 (reachable_session_lifetime String_of_simple Number_of_decimal
                  world_after_login
                  (rtc_once _ _ (step_login _ _ admin0 "tok" empty_world)))
           "tok").
  vm_compute. reflexivity.
Defined.

Lemma verifyPassword_hashPassword_witness :
  let hashed := hashPassword String_of_simple pbkdf2_sample (VStr "admin123")
                  (Some "c0ffee") [] in
  verifyPassword String_of_simple pbkdf2_sample (VStr "admin123") hashed = true ∧
  (verifyPassword String_of_simple pbkdf2_sample (VStr "admin124") hashed = true <->
   pbkdf2_sample "admin124" "c0ffee" = pbkdf2_sample "admin123" "c0ffee").
Proof.
  intros hashed.
  apply (verifyPassword_hashPassword String_of_simple pbkdf2_sample
           (VStr "admin123") (VStr "admin124") (Some "c0ffee") []).
  - vm_compute. discriminate.
  - reflexivity.
  - vm_compute. discriminate.
Defined.

Lemma login_token_is_accepted_witness :
  let row := {| a_id := 1; a_username := "admin";
                a_password_hash :=
                  hashPassword String_of_simple pbkdf2_sample (VStr "admin123")
                    (Some "c0ffee") [] |} in
  ∃ w',
    login String_of_simple pbkdf2_sample [row] "tok" body_login empty_world
    = (Ok (LoginOk "เข้าสู่ระบบสำเร็จ" "tok" admin0 SESSION_TTL_MS), w') ∧
    ∀ w2, rtc (step_other String_of_simple Number_of_decimal "tok") w' w2 ->
      (clock w2 <= 1000 + SESSION_TTL_MS)%Z ->
      authMiddleware String_of_simple (VStr "Bearer tok") w2
      = (Ok (inr {| adminId := 1; username := "admin";
                    expiresAt := 1000 + SESSION_TTL_MS |}),
         w2).
Proof.
  intros row.
  apply (login_token_is_accepted String_of_simple Number_of_decimal pbkdf2_sample
           [row] "tok" body_login row empty_world).
  - reflexivity.
  - vm_compute. discriminate.
  - vm_compute. discriminate.
  - vm_compute. reflexivity.
  - vm_compute. reflexivity.
  - intros i _. vm_compute. discriminate.
  - reflexivity.
Defined.

Lemma issued_session_lifetime_witness :
  let w2 := set_clock 2000 world_after_login in
  let w3 := set_clock (1000 + SESSION_TTL_MS + 1) world_after_login in
  getSession "tok" w2
  = (Ok (Some {| adminId := 1; username := "admin";
                 expiresAt := 1000 + SESSION_TTL_MS |}), w2) ∧
  (getSession "tok" w3).1 = Ok None ∧
  sessions (getSession "tok" w3).2 !! "tok" = None.
Proof.
  intros w2 w3.
  assert (∀ t, (1000 <= t)%Z ->
            rtc (step_other String_of_simple Number_of_decimal "tok")
              (createSession admin0 "tok" empty_world).2
              (set_clock t world_after_login)) as Hreach.
  { intros t Ht. apply rtc_once, other_env. repeat split. exact Ht. }
  split.
  - apply (proj1 (issued_session_lifetime String_of_simple Number_of_decimal
                    admin0 "tok" empty_world w2 (Hreach 2000%Z ltac:(lia)))).
    vm_compute. discriminate.
  - apply (proj2 (issued_session_lifetime String_of_simple Number_of_decimal
                    admin0 "tok" empty_world w3
                    (Hreach (1000 + SESSION_TTL_MS + 1)%Z
                       ltac:(unfold SESSION_TTL_MS; lia)))).
    vm_compute. reflexivity.
Defined.

Lemma normalizeItems_guarantees_witness :
  let its := prop body_two_items "items" in
  (length (normalizeItems String_of_simple Number_of_decimal its) <= 2)%nat ∧
  order_total (normalizeItems String_of_simple Number_of_decimal its)
  = num_of_Z 135.
Proof.
  intros its.
  destruct (normalizeItems_guarantees String_of_simple Number_of_decimal its)
    as (Hlen & Hall & Htot); [reflexivity |].
  split; [exact Hlen |].
  refine (proj1 (Htot _ _)).
  - intros it Hit Hp.
    eassert (normalizeItems String_of_simple Number_of_decimal its = _) as E
      by (vm_compute; reflexivity).
    rewrite E in Hit.
    repeat (apply elem_of_cons in Hit as [-> | Hit]; [discriminate Hp |]).
    by apply elem_of_nil in Hit.
  - vm_compute. discriminate.
Defined.
